(** * spotisave: playlist export and download orchestration

    A shallow embedding of the Python sources of the repository
    ([spotisaver.py], [spotisave.py] and the scripts under [old py/]).

    Python [str] values are sequences of Unicode code points; they are
    modelled as lists of code points so that non-ASCII names can be
    written down.  Python [set] objects are modelled by the sequence of
    insertions that built them, together with their mathematical content
    as a [gset]; dictionaries used as rows are association lists, because
    the column order matters for the exported table. *)

From Stdlib Require Import NArith ZArith Ascii String DecimalString.
From stdpp Require Import base numbers list sets gmap strings.

Local Open Scope N_scope.

(** ** Python strings *)

(** A character is a Unicode code point. *)
Definition pychar := N.
Definition pystr := list pychar.

(** [py "abc"] is the Python literal ["abc"] (ASCII literals only). *)
Definition py (s : string) : pystr :=
  List.map N_of_ascii (list_ascii_of_string s).

(** [c in s] for a one-character string [c]. *)
Definition char_in (c : pychar) (s : pystr) : bool :=
  existsb (N.eqb c) s.

(** [Py_UNICODE_ISSPACE]: the characters [str.strip()] removes and the
    regular expression class [\s] matches. *)
Definition py_isspace (c : pychar) : bool :=
  ((9 <=? c) && (c <=? 13)) || ((28 <=? c) && (c <=? 32))
  || (c =? 133) || (c =? 160) || (c =? 5760)
  || ((8192 <=? c) && (c <=? 8202))
  || (c =? 8232) || (c =? 8233) || (c =? 8239) || (c =? 8287)
  || (c =? 12288).

Fixpoint py_lstrip (s : pystr) : pystr :=
  match s with
  | [] => []
  | c :: s' => if py_isspace c then py_lstrip s' else s
  end.

Definition py_rstrip (s : pystr) : pystr := rev (py_lstrip (rev s)).

(** [s.strip()] *)
Definition py_strip (s : pystr) : pystr := py_rstrip (py_lstrip s).

(** [s.replace(old, new)] for one-character [old] and [new]. *)
Definition py_replace_char (old new : pychar) (s : pystr) : pystr :=
  List.map (fun c => if c =? old then new else c) s.

(** [sep.join(items)] *)
Fixpoint py_join (sep : pystr) (items : list pystr) : pystr :=
  match items with
  | [] => []
  | [x] => x
  | x :: rest => x ++ sep ++ py_join sep rest
  end.

(** [string.ascii_letters] and [string.digits] *)
Definition ascii_letters : pystr :=
  py "abcdefghijklmnopqrstuvwxyzABCDEFGHIJKLMNOPQRSTUVWXYZ".
Definition digits : pystr := py "0123456789".

Definition SPACE : pychar := 32.
Definition UNDERSCORE : pychar := 95.

(** ** [sanitize_filename]

    The same three lines appear in [spotisaver.py], [spotisave.py],
    [old py/csvsaver.py] and [old py/csvsaver-gui.py]:
<<
    valid = f"-_.() {string.ascii_letters}{string.digits}"
    return "".join(c for c in name if c in valid).strip().replace(" ", "_")
>> *)
Definition valid : pystr := py "-_.() " ++ ascii_letters ++ digits.

Definition sanitize_filename (name : pystr) : pystr :=
  py_replace_char SPACE UNDERSCORE
    (py_strip (List.filter (fun c => char_in c valid) name)).

(** Character classes used to state what survives sanitization. *)
Definition is_ascii_letter (c : pychar) : bool :=
  ((65 <=? c) && (c <=? 90)) || ((97 <=? c) && (c <=? 122)).
Definition is_ascii_digit (c : pychar) : bool := (48 <=? c) && (c <=? 57).
Definition is_filename_punct (c : pychar) : bool :=
  char_in c (py "-_.()").
Definition is_non_ascii (c : pychar) : bool := 128 <=? c.

Definition sanitized_char (c : pychar) : bool :=
  is_ascii_letter c || is_ascii_digit c || is_filename_punct c.


(** ** Playlist and user ids

    [parse_playlist_id] ([spotisaver.py], [spotisave.py] and the scripts
    under [old py/]) and [parse_user_id] ([spotisave.py]):
<<
    m = re.search(r"playlist/([a-zA-Z0-9]+)", url)
    return m.group(1) if m else None
>>
    [re.search] tries the positions of [url] from left to right; at a
    position the pattern matches when the literal is followed by at least
    one ASCII letter or digit, and the group takes all that follow. *)
Definition is_alnum (c : pychar) : bool := is_ascii_letter c || is_ascii_digit c.

Fixpoint strip_prefix (pat s : pystr) : option pystr :=
  match pat, s with
  | [], _ => Some s
  | p :: pat', c :: s' => if c =? p then strip_prefix pat' s' else None
  | _ :: _, [] => None
  end.

Fixpoint take_alnum (s : pystr) : pystr :=
  match s with
  | c :: s' => if is_alnum c then c :: take_alnum s' else []
  | [] => []
  end.

Fixpoint search_id (literal url : pystr) : option pystr :=
  match url with
  | [] => None
  | _ :: rest =>
      match strip_prefix literal url with
      | Some after =>
          match take_alnum after with
          | [] => search_id literal rest
          | id => Some id
          end
      | None => search_id literal rest
      end
  end.

Definition parse_playlist_id (url : pystr) : option pystr :=
  search_id (py "playlist/") url.

Definition parse_user_id (url : pystr) : option pystr :=
  search_id (py "user/") url.

(** [folder_name] in the user branch of [main] of [spotisave.py]:
    [sanitize_filename(f"{user_id}'s spotify playlist data")] *)
Definition user_folder_name (user_id : pystr) : pystr :=
  sanitize_filename (user_id ++ py "'s spotify playlist data").

(** ** Exceptions and results *)

Inductive exn_class :=
  | TypeError | RuntimeError | AttributeError | SpotifyException
  | RequestException | OSError.

(** A raised exception: its class and [str(e)].  Every class above is a
    subclass of [Exception]. *)
Record pyexn := PyExn { exn_cls : exn_class; exn_msg : pystr }.

Inductive result (A : Type) :=
  | Ok (a : A)
  | Raise (e : pyexn).
Arguments Ok {A} a.
Arguments Raise {A} e.

Definition rbind {A B} (r : result A) (k : A -> result B) : result B :=
  match r with
  | Ok a => k a
  | Raise e => Raise e
  end.

Declare Scope result_scope.
Delimit Scope result_scope with result.
Notation "x <- r ;; k" := (rbind r (fun x => k))
  (at level 100, r at next level, right associativity) : result_scope.

(** A [for] loop that appends one computed value per element and stops at
    the first exception. *)
Fixpoint for_each {A B} (f : A -> result B) (l : list A) : result (list B) :=
  match l with
  | [] => Ok []
  | x :: l' =>
      (y <- f x ;; ys <- for_each f l' ;; Ok (y :: ys))%result
  end.

Definition is_ok {A} (r : result A) : bool :=
  match r with Ok _ => true | Raise _ => false end.

(** ** Catalog data, as the Spotify Web API returns it *)

Record Artist := { artist_id : pystr; artist_name : pystr }.

Record Album := {
  album_name : pystr;
  album_release_date : pystr;
  album_label : option pystr;      (* the key "label" may be missing *)
  album_images : list pystr        (* image URLs, widest first *)
}.

Record Track := {
  track_uri : pystr;
  track_name : pystr;
  track_album : Album;
  track_artists : list Artist;
  track_duration_ms : Z;
  track_popularity : Z;
  track_explicit : bool;
  track_external_url : option pystr
}.

(** One entry of a playlist.  ["track"] is [None] for removed or
    unavailable tracks. *)
Record Item := {
  item_track : option Track;
  item_added_by : pystr;
  item_added_at : pystr
}.

(** One page of a paginated response. *)
Record Page := { items : list Item; next : option pystr }.

(** The [spotipy.Spotify] client [sp], reduced to the calls the sources
    make.  Every call may raise. *)
Record Spotify := {
  sp_playlist : pystr -> result pystr;          (* playlist(pid)["name"] *)
  sp_playlist_tracks : pystr -> result Page;
  sp_next : Page -> result Page;
  sp_artist : pystr -> result (list pystr);     (* artist(id)["genres"] *)
  sp_track : pystr -> result (list pystr)       (* track(id)["album"]["images"] urls *)
}.

(** Truth value of [results["next"]]: [None] and the empty string are
    false. *)
Definition truthy_next (p : Page) : bool :=
  match next p with
  | Some (_ :: _) => true
  | _ => false
  end.

(** ** Python sets

    A [set] built only by [update] calls is represented by the sequence
    of elements inserted so far.  Its content is the [gset] of those
    elements; the order in which iteration visits them is chosen by the
    interpreter (for strings it depends on the per-process hash seed),
    so it is a parameter: any duplicate-free enumeration of the content. *)
Definition pyset := list pystr.

Definition set_new : pyset := [].
Definition set_update (s : pyset) (l : list pystr) : pyset := s ++ l.
Definition set_content (s : pyset) : gset pystr := list_to_set s.

Record PyRuntime := {
  set_iter : pyset -> list pystr;
  set_iter_NoDup : forall s, NoDup (set_iter s);
  set_iter_elem : forall s x, x ∈ set_iter s <-> x ∈ s
}.

(** ** Table rows *)

Inductive cell :=
  | CStr (s : pystr)
  | CInt (z : Z)
  | CBool (b : bool)
  | CNone.

(** A row is a [dict] from column name to value, in insertion order. *)
Definition Row := list (pystr * cell).

Definition opt_cell (o : option pystr) : cell :=
  match o with Some s => CStr s | None => CNone end.

(** The twelve audio-feature columns, always zero. *)
Definition feature_columns : Row :=
  List.map (fun k => (py k, CInt 0))
    ["Danceability"; "Energy"; "Key"; "Loudness"; "Mode"; "Speechiness";
     "Acousticness"; "Instrumentalness"; "Liveness"; "Valence"; "Tempo";
     "Time Signature"]%string.

(** A cell is empty when it would be written as an empty field. *)
Definition cell_empty (c : cell) : bool :=
  match c with
  | CNone => true
  | CStr [] => true
  | _ => false
  end.

(** ** Paths ([posixpath.join] with two components) *)
Definition SLASH : pychar := 47.

Definition os_path_join (a b : pystr) : pystr :=
  match b with
  | c :: _ => if c =? SLASH then b
              else match last a with
                   | None => b
                   | Some d => if d =? SLASH then a ++ b else a ++ SLASH :: b
                   end
  | [] => match last a with
          | None => []
          | Some d => if d =? SLASH then a else a ++ [SLASH]
          end
  end.

(** ** Paths, continued ([posixpath.basename], [dirname], [splitext]) *)
Definition DOT : pychar := 46.

(** [p] cut at its last [sep]: what is before and what is after it;
    [None] when [p] holds no [sep] ([p.rfind(sep) == -1]). *)
Fixpoint split_at_last (sep : pychar) (p : pystr) : option (pystr * pystr) :=
  match p with
  | [] => None
  | c :: p' =>
      match split_at_last sep p' with
      | Some (before, after) => Some (c :: before, after)
      | None => if c =? sep then Some ([], p') else None
      end
  end.

(** [s.lstrip(c)] and [s.rstrip(c)] for a one-character [c] *)
Fixpoint lstrip_char (c : pychar) (s : pystr) : pystr :=
  match s with
  | d :: s' => if d =? c then lstrip_char c s' else s
  | [] => []
  end.
Definition rstrip_char (c : pychar) (s : pystr) : pystr :=
  rev (lstrip_char c (rev s)).

Definition os_path_basename (p : pystr) : pystr :=
  match split_at_last SLASH p with
  | Some (_, after) => after
  | None => p
  end.

Definition os_path_dirname (p : pystr) : pystr :=
  match split_at_last SLASH p with
  | Some (before, _) =>
      let head := before ++ [SLASH] in
      if forallb (fun c => c =? SLASH) head then head
      else rstrip_char SLASH head
  | None => []
  end.

(** [os.path.splitext(p)[0]]: the extension starts at the last dot,
    unless a slash follows that dot or only dots stand between the last
    slash and it. *)
Definition os_path_splitext_root (p : pystr) : pystr :=
  match split_at_last DOT p with
  | Some (before, after) =>
      if char_in SLASH after then p
      else if forallb (fun c => c =? DOT) (os_path_basename before) then p
      else before
  | None => p
  end.

(** ** Pagination

    [get_playlist_tracks] of [spotisave.py] (and of both scripts under
    [old py/]); [export_csv] of [spotisaver.py] inlines the same loop:
<<
    tracks = []
    results = sp.playlist_tracks(playlist_id)
    tracks.extend(results['items'])
    while results['next']:
        results = sp.next(results)
        tracks.extend(results['items'])
    return tracks
>>
    The [while] loop is bounded by [fuel]; [None] means that the loop was
    still running when the fuel ran out. *)
Fixpoint fetch_more (sp : Spotify) (fuel : nat) (results : Page)
    (tracks : list Item) : option (result (list Item)) :=
  if truthy_next results then
    match fuel with
    | O => None
    | S fuel' =>
        match sp_next sp results with
        | Ok results' => fetch_more sp fuel' results' (tracks ++ items results')
        | Raise e => Some (Raise e)
        end
    end
  else Some (Ok tracks).

Definition get_playlist_tracks (sp : Spotify) (fuel : nat)
    (playlist_id : pystr) : option (result (list Item)) :=
  match sp_playlist_tracks sp playlist_id with
  | Ok results => fetch_more sp fuel results ([] ++ items results)
  | Raise e => Some (Raise e)
  end.

(** ** Genre aggregation

<<
    genres = set()
    for a in artists:
        genres.update(sp.artist(a["id"])["genres"])
>> *)
Fixpoint update_genres (sp : Spotify) (artists : list Artist)
    (genres : pyset) : result pyset :=
  match artists with
  | [] => Ok genres
  | a :: rest =>
      (gl <- sp_artist sp (artist_id a) ;;
       update_genres sp rest (set_update genres gl))%result
  end.

Definition collect_genres (sp : Spotify) (artists : list Artist) : result pyset :=
  update_genres sp artists set_new.

(** The catalog answers the artist lookups of [artists] with the genre
    lists of [table]. *)
Definition answers (sp : Spotify) (table : pystr -> list pystr)
    (artists : list Artist) : Prop :=
  forall a, a ∈ artists -> sp_artist sp (artist_id a) = Ok (table (artist_id a)).

(** [", ".join(genres)] *)
Definition genres_field (rt : PyRuntime) (genres : pyset) : pystr :=
  py_join (py ", ") (set_iter rt genres).

Definition artist_names_field (artists : list Artist) : pystr :=
  py_join (py ", ") (List.map artist_name artists).

(** ** [spotisave.py]: the command-line exporter *)
Module spotisave.

(** [extract_track_info]: every access goes through [.get], so an entry
    without a track gives a record whose six fields are all [None]. *)
Definition extract_track_info (track_item : Item) : Row :=
  let track := item_track track_item in
  [ (py "Track Name", opt_cell (track_name <$> track));
    (py "Artists",
      match track with
      | Some tr =>
          match track_artists tr with
          | [] => CNone
          | artists => CStr (artist_names_field artists)
          end
      | None => CNone
      end);
    (py "Album", opt_cell ((fun tr => album_name (track_album tr)) <$> track));
    (py "Duration (ms)",
      match track with Some tr => CInt (track_duration_ms tr) | None => CNone end);
    (py "Popularity",
      match track with Some tr => CInt (track_popularity tr) | None => CNone end);
    (py "Track URL", opt_cell (track ≫= track_external_url)) ].

(** The playlist branch of [main]:
    [data = [extract_track_info(t) for t in tracks]]. *)
Definition playlist_data (sp : Spotify) (fuel : nat) (playlist_id : pystr)
    : option (result (list Row)) :=
  match get_playlist_tracks sp fuel playlist_id with
  | Some (Ok tracks) => Some (Ok (List.map extract_track_info tracks))
  | Some (Raise e) => Some (Raise e)
  | None => None
  end.

End spotisave.

(** ** [old py/csvsaver.py] *)
Module csvsaver.

(** [extract_track_info]: an entry without a track gives the empty
    dictionary, which the data frame turns into a row of empty cells. *)
Definition extract_track_info (rt : PyRuntime) (sp : Spotify)
    (track_item : Item) : result Row :=
  match item_track track_item with
  | None => Ok []
  | Some track =>
      let album := track_album track in
      let artists := track_artists track in
      (genres <- collect_genres sp artists ;;
       Ok ([ (py "Track URI", CStr (track_uri track));
             (py "Track Name", CStr (track_name track));
             (py "Album Name", CStr (album_name album));
             (py "Artist Name(s)", CStr (artist_names_field artists));
             (py "Release Date", CStr (album_release_date album));
             (py "Duration (ms)", CInt (track_duration_ms track));
             (py "Popularity", CInt (track_popularity track));
             (py "Explicit", CBool (track_explicit track));
             (py "Added By", CStr (item_added_by track_item));
             (py "Added At", CStr (item_added_at track_item));
             (py "Genres", CStr (genres_field rt genres));
             (py "Record Label", opt_cell (album_label album)) ]
           ++ feature_columns))%result
  end.

End csvsaver.

(** ** [spotisaver.py]: the application *)
Module spotisaver.

(** *** Export ([SpotiSaverApp.export_csv], inner [task]) *)

(** The body of [for i, t in enumerate(tracks, 1)].  [tr = t["track"]]
    is subscripted directly, which raises [TypeError] when it is
    [None]. *)
Definition export_row (rt : PyRuntime) (sp : Spotify) (t : Item) : result Row :=
  match item_track t with
  | None =>
      Raise (PyExn TypeError (py "'NoneType' object is not subscriptable"))
  | Some tr =>
      let artists := track_artists tr in
      (genres <- collect_genres sp artists ;;
       Ok ([ (py "Track URI", CStr (track_uri tr));
             (py "Track Name", CStr (track_name tr));
             (py "Album Name", CStr (album_name (track_album tr)));
             (py "Artist Name(s)", CStr (artist_names_field artists));
             (py "Release Date", CStr (album_release_date (track_album tr)));
             (py "Duration (ms)", CInt (track_duration_ms tr));
             (py "Popularity", CInt (track_popularity tr));
             (py "Explicit", CBool (track_explicit tr));
             (py "Added By", CStr (item_added_by t));
             (py "Added At", CStr (item_added_at t));
             (py "Genres", CStr (genres_field rt genres));
             (py "Record Label",
               CStr (default [] (album_label (track_album tr)))) ]
           ++ feature_columns))%result
  end.

(** The files written so far: path to table. *)
Abbreviation Files := (gmap pystr (list Row)).

(** The last step of the export: name, path, [to_csv]. *)
Definition write_csv (files : Files) (out playlist_name : pystr)
    (data : list Row) : result (pystr * Files) :=
  let name := sanitize_filename playlist_name in
  let path := os_path_join out (name ++ py ".csv") in
  Ok (path, <[path := data]> files).

(** The whole [task]; progress-bar and status updates are left out. *)
Definition export_csv (rt : PyRuntime) (sp : Spotify) (fuel : nat)
    (files : Files) (pid out : pystr) : option (result (pystr * Files)) :=
  match sp_playlist sp pid with
  | Raise e => Some (Raise e)
  | Ok playlist_name =>
      match get_playlist_tracks sp fuel pid with
      | None => None
      | Some (Raise e) => Some (Raise e)
      | Some (Ok tracks) =>
          Some (data <- for_each (export_row rt sp) tracks ;;
                write_csv files out playlist_name data)%result
      end
  end.

(** *** Per-track download ([download_track]) *)

(** The part of the machine a job touches: which paths exist, and the
    log queue (messages without their time stamp). *)
Record World := { files : gset pystr; log : list pystr }.

(** A command-line argument as the source builds it: [cover] may be
    [None]. *)
Inductive pyval := VStr (s : pystr) | VNone.

(** Everything outside the program. *)
Record Env := {
  sp : Spotify;
  (** what running an external program does; it may raise (for
      instance when the executable is missing) *)
  run_program : list pystr -> World -> result World;
  requests_get : pystr -> result unit;
  (** the directory [tempfile.TemporaryDirectory()] creates *)
  mkdtemp : World -> pystr
}.

Record Config := {
  format_var : pystr;
  bitrate_var : pystr;
  overwrite_var : pystr;
  output_dir : pystr
}.

(** The columns [download_track] reads from a row. *)
Record TrackJob := {
  job_artist : pystr;
  job_title : pystr;
  job_album : pystr;
  job_uri : pystr;
  job_genres : pystr;
  job_label : pystr;
  job_release_date : pystr
}.

(** Computations that read and change the world and may raise. *)
Definition M (A : Type) := World -> result A * World.

Definition ret {A} (a : A) : M A := fun w => (Ok a, w).
Definition raise {A} (e : pyexn) : M A := fun w => (Raise e, w).
Definition bind {A B} (m : M A) (k : A -> M B) : M B :=
  fun w => match m w with
           | (Ok a, w') => k a w'
           | (Raise e, w') => (Raise e, w')
           end.
Definition lift {A} (r : result A) : M A := fun w => (r, w).
Definition path_exists (p : pystr) : M bool :=
  fun w => (Ok (bool_decide (p ∈ files w)), w).
Definition add_file (p : pystr) : M unit :=
  fun w => (Ok tt, {| files := {[p]} ∪ files w; log := log w |}).
(** [self.log(message)] *)
Definition log_message (msg : pystr) : M unit :=
  fun w => (Ok tt, {| files := files w; log := log w ++ [msg] |}).

Declare Scope M_scope.
Delimit Scope M_scope with M.
Notation "x <- m ;; k" := (bind m (fun x => k))
  (at level 100, m at next level, right associativity) : M_scope.
Notation "m ;; k" := (bind m (fun _ => k))
  (at level 100, right associativity) : M_scope.

(** [subprocess.run(args, ...)]: an argument that is not a string
    raises [TypeError] before anything runs. *)
Fixpoint argv_strings (args : list pyval) : option (list pystr) :=
  match args with
  | [] => Some []
  | VStr s :: rest => cons s <$> argv_strings rest
  | VNone :: _ => None
  end.

Definition subprocess_run (env : Env) (args : list pyval) : M unit :=
  match argv_strings args with
  | None =>
      raise (PyExn TypeError
        (py "expected str, bytes or os.PathLike object, not NoneType"))
  | Some argv =>
      fun w => match run_program env argv w with
               | Ok w' => (Ok tt, w')
               | Raise e => (Raise e, w)
               end
  end.

(** [with tempfile.TemporaryDirectory() as tmp]: the directory and all
    below it are removed on the way out, also when the body raises. *)
Definition under (dir p : pystr) : Prop := (dir ++ [SLASH]) `prefix_of` p.

#[global] Instance under_dec dir p : Decision (under dir p).
Proof. unfold under. apply _. Defined.

Definition with_tmpdir {A} (env : Env) (body : pystr -> M A) : M A :=
  fun w =>
    let tmp := mkdtemp env w in
    let '(r, w') := body tmp {| files := {[tmp]} ∪ files w; log := log w |} in
    (r, {| files := filter (fun p => p <> tmp /\ ~ under tmp p) (files w');
           log := log w' |}).

(** [s.split(":")[-1]] *)
Definition COLON : pychar := 58.
Definition last_segment (s : pystr) : pystr :=
  fold_left (fun acc c => if c =? COLON then [] else acc ++ [c]) s [].

Definition download_spotify_cover (env : Env) (track_uri tmp : pystr)
    : M (option pystr) :=
  (let track_id := last_segment track_uri in
   images <- lift (sp_track (sp env) track_id) ;;
   match images with
   | [] => ret None
   | url :: _ =>
       let path := os_path_join tmp (py "cover.jpg") in
       _ <- lift (requests_get env url) ;;
       add_file path ;;
       ret (Some path)
   end)%M.

(** [build_safe_filename]: Windows-illegal characters become spaces,
    runs of white space collapse to one space, the ends are trimmed. *)
Definition illegal_chars : pystr := [92; 47; 58; 42; 63; 34; 60; 62; 124].

Fixpoint collapse_spaces (s : pystr) : pystr :=
  match s with
  | [] => []
  | c :: s' =>
      if py_isspace c then
        match s' with
        | d :: _ => if py_isspace d then collapse_spaces s'
                    else SPACE :: collapse_spaces s'
        | [] => [SPACE]
        end
      else c :: collapse_spaces s'
  end.

Definition build_safe_filename (artist title ext : pystr) : pystr :=
  let name := artist ++ py " - " ++ title in
  let name := List.map (fun c => if char_in c illegal_chars then SPACE else c) name in
  let name := py_strip (collapse_spaces name) in
  name ++ py "." ++ ext.

Definition pystr_eqb (a b : pystr) : bool := bool_decide (a = b).

Definition vs (s : string) : pyval := VStr (py s).

(** [f"key={value}" if value else ""] *)
Definition optional_tag (key : string) (value : pystr) : pyval :=
  match value with
  | [] => VStr []
  | _ => VStr (py key ++ value)
  end.

Definition download_track (env : Env) (cfg : Config) (row : TrackJob) : M unit :=
  (let artist := job_artist row in
   let title := job_title row in
   let album := job_album row in
   let uri := job_uri row in
   let genres := job_genres row in
   let label := job_label row in
   let release_date := job_release_date row in
   let year := take 4 release_date in
   let fmt := format_var cfg in
   let overwrite := overwrite_var cfg in
   let filename := build_safe_filename artist title fmt in
   let out := os_path_join (output_dir cfg) filename in
   present <- path_exists out ;;
   if pystr_eqb overwrite (py "skip") && present then
     log_message (py "Skipped (exists): " ++ filename)
   else
     with_tmpdir env (fun tmp =>
       let audio_path := os_path_join tmp (py "source." ++ fmt) in
       let cmd :=
         [ vs "yt-dlp"; vs "--extractor-args"; vs "youtube:music";
           vs "--no-keep-video"; vs "--rm-cache-dir";
           vs "--no-post-overwrites"; vs "--no-playlist"; vs "--no-warnings";
           vs "--paths"; VStr tmp; vs "-o"; vs "source.%(ext)s";
           VStr (py "ytsearch1:" ++ artist ++ py " - " ++ title);
           vs "-x"; vs "--audio-format"; VStr fmt ] in
       subprocess_run env cmd ;;
       cover <- download_spotify_cover env uri tmp ;;
       let ff :=
         [ vs "ffmpeg"; vs "-y";
           vs "-i"; VStr audio_path;
           vs "-i"; match cover with Some p => VStr p | None => VNone end;
           vs "-map"; vs "0:a"; vs "-map"; vs "1:v";
           vs "-c:a"; vs "copy"; vs "-c:v"; vs "mjpeg";
           vs "-metadata"; VStr (py "title=" ++ title);
           vs "-metadata"; VStr (py "artist=" ++ artist);
           vs "-metadata"; VStr (py "album=" ++ album);
           vs "-metadata"; optional_tag "date=" release_date;
           vs "-metadata"; optional_tag "year=" year;
           vs "-metadata"; optional_tag "genre=" genres;
           vs "-metadata"; optional_tag "publisher=" label;
           vs "-metadata"; VStr (py "comment=Spotify URI: " ++ uri);
           vs "-metadata:s:v"; vs "title=Album cover";
           vs "-metadata:s:v"; vs "comment=Cover (front)" ] in
       let ff := List.filter
                   (fun x => match x with VStr [] => false | _ => true end) ff in
       let ff := if pystr_eqb fmt (py "mp3")
                 then ff ++ [vs "-id3v2_version"; vs "3"] else ff in
       let ff := ff ++ [VStr out] in
       subprocess_run env ff ;;
       log_message (py "Finished: " ++ artist ++ py " - " ++ title) ;;
       made <- path_exists out ;;
       if made then ret tt
       else raise (PyExn RuntimeError (py "Final output file was not created"))))%M.

(** *** The download run ([run_dl], [stop_dl], [start_dl])

    [run_dl] runs in its own thread, the pool's workers in theirs, and
    [stop_dl] and [start_dl] in the interface thread.  The run is
    modelled as a transition system whose events are the atomic actions
    of these threads; a schedule is a list of events.  Jobs are
    identified by the position of their row in the data frame.

    The Start button is never disabled, so [start_dl] can run while a
    run is alive: it clears the stop flag and starts another [run_dl]
    thread.  That other run has its own pool, futures and counter; with
    this one it shares the flag, which runs only read, the status label,
    which each run sets, and the log queue.  The state below follows one
    run: the other run appears in it through the label only. *)

(** How a future ended: [download_track] returned or raised. *)
Inductive outcome := Returned | Raised (e : pyexn).

(** Where the [run_dl] thread is. *)
Inductive phase :=
  | Submitting (rows : list nat)   (* [for _, row in df.iterrows()], rows left *)
  | Collecting                     (* [for future in as_completed(futures)] *)
  | ShuttingDown                   (* end of [with]: [shutdown(wait=True)] *)
  | Finished (r : result unit).    (* [run_dl] returned or raised *)

(** The text of [dl_status]. *)
Inductive status :=
  | Idle
  | Stopping                            (* "Stopping…" *)
  | Progress (completed total : nat)    (* f"{completed}/{total} completed" *)
  | Done.

Record RunState := {
  phase_of : phase;
  total : nat;                       (* [len(df)], read once *)
  max_workers : nat;
  futures : list nat;                (* jobs submitted, in order *)
  work_queue : list nat;             (* submitted, not yet started *)
  running : list nat;                (* being executed by a worker *)
  finished : list (nat * outcome);   (* futures that are done *)
  collected : list nat;              (* futures whose result the loop consumed *)
  completed : nat;
  stop_event : bool;
  stop_seen : bool;                  (* history: [run_dl] left a loop through
                                        [if self.stop_event.is_set(): break] *)
  dl_status : status;                (* the label, shared with [stop_dl] and
                                        with other runs *)
  run_log : list pystr               (* the lines the [run_dl] thread of this
                                        run logs, in order; the jobs log their
                                        own lines, see [download_track] *)
}.

(** [str(n)] *)
Definition py_str_nat (n : nat) : pystr :=
  py (NilZero.string_of_uint (Nat.to_uint n)).

(** f"Starting downloads with {max_workers} parallel workers" *)
Definition starting_line (workers : nat) : pystr :=
  py "Starting downloads with " ++ py_str_nat workers ++ py " parallel workers".

Definition init (n workers : nat) : RunState :=
  {| phase_of := Submitting (seq 0 n); total := n; max_workers := workers;
     futures := []; work_queue := []; running := []; finished := [];
     collected := []; completed := 0; stop_event := false;
     stop_seen := false; dl_status := Idle;
     run_log := [starting_line workers] |}.

(** Attributes assigned to [self] by [__init__], [build_ui],
    [build_logs_panel], [build_csv_saver] and [build_downloader]. *)
Definition app_attributes : list string :=
  [ "root"; "log_queue"; "last_exported_csv"; "left"; "right"; "log_text";
    "playlist_entry"; "csv_status"; "csv_progress"; "csv_path";
    "output_dir"; "stop_event"; "csv_label"; "out_label"; "format_var";
    "bitrate_var"; "bitrate_box"; "parallel_var"; "overwrite_var";
    "dl_status"; "dl_progress" ]%string.

(** [self.<name>] *)
Definition getattr_self (name : string) : result unit :=
  if bool_decide (name ∈ app_attributes) then Ok tt
  else Raise (PyExn AttributeError
         (py "'SpotiSaverApp' object has no attribute '" ++ py name ++ py "'")).

(** The two statements after the [with] block. *)
Definition restore_buttons : result unit :=
  (_ <- getattr_self "start_btn" ;; getattr_self "stop_btn")%result.

Fixpoint outcome_of (j : nat) (fin : list (nat * outcome)) : option outcome :=
  match fin with
  | [] => None
  | (k, o) :: rest => if Nat.eqb j k then Some o else outcome_of j rest
  end.

Definition mem (j : nat) (l : list nat) : bool := existsb (Nat.eqb j) l.

Definition remove_job (j : nat) (l : list nat) : list nat :=
  List.filter (fun k => negb (Nat.eqb j k)) l.

Inductive event :=
  | MainSubmit                (* one pass of the submit loop *)
  | MainCollect (j : nat)     (* [as_completed] yields future [j]; the body runs *)
  | MainEndCollect            (* [as_completed] has yielded every future *)
  | MainShutdown              (* pool drained: leave [with], run to the end *)
  | WorkerStart               (* a worker takes the oldest queued job *)
  | WorkerFinish (j : nat) (o : outcome)
  | StopClicked               (* [stop_dl] *)
  | StartClicked              (* [start_dl], while this run is alive *)
  | OtherRunStatus (st : status).  (* another run sets the label *)

Definition submit_step (s : RunState) : option RunState :=
  match phase_of s with
  | Submitting [] =>
      Some {| phase_of := Collecting; total := total s;
              max_workers := max_workers s; futures := futures s;
              work_queue := work_queue s; running := running s;
              finished := finished s; collected := collected s;
              completed := completed s; stop_event := stop_event s;
              stop_seen := stop_seen s; dl_status := dl_status s;
              run_log := run_log s |}
  | Submitting (row :: rest) =>
      if stop_event s then
        Some {| phase_of := Collecting; total := total s;
                max_workers := max_workers s; futures := futures s;
                work_queue := work_queue s; running := running s;
                finished := finished s; collected := collected s;
                completed := completed s; stop_event := stop_event s;
                stop_seen := true; dl_status := dl_status s;
                run_log := run_log s |}
      else
        Some {| phase_of := Submitting rest; total := total s;
                max_workers := max_workers s; futures := futures s ++ [row];
                work_queue := work_queue s ++ [row]; running := running s;
                finished := finished s; collected := collected s;
                completed := completed s; stop_event := stop_event s;
                stop_seen := stop_seen s; dl_status := dl_status s;
                run_log := run_log s |}
  | _ => None
  end.

Definition collect_step (j : nat) (s : RunState) : option RunState :=
  match phase_of s, outcome_of j (finished s) with
  | Collecting, Some o =>
      if mem j (collected s) then None
      else if stop_event s then
        Some {| phase_of := ShuttingDown; total := total s;
                max_workers := max_workers s; futures := futures s;
                work_queue := work_queue s; running := running s;
                finished := finished s; collected := collected s;
                completed := completed s; stop_event := stop_event s;
                stop_seen := true; dl_status := dl_status s;
                run_log := run_log s |}
      else
        Some {| phase_of := Collecting; total := total s;
                max_workers := max_workers s; futures := futures s;
                work_queue := work_queue s; running := running s;
                finished := finished s; collected := collected s ++ [j];
                completed := completed s + 1; stop_event := stop_event s;
                stop_seen := stop_seen s;
                dl_status := Progress (completed s + 1) (total s);
                run_log :=
                  match o with
                  | Returned => run_log s
                  | Raised e => run_log s ++ [py "ERROR: " ++ exn_msg e]
                  end |}
  | _, _ => None
  end.

Definition end_collect_step (s : RunState) : option RunState :=
  match phase_of s with
  | Collecting =>
      if forallb (fun j => mem j (collected s)) (futures s) then
        Some {| phase_of := ShuttingDown; total := total s;
                max_workers := max_workers s; futures := futures s;
                work_queue := work_queue s; running := running s;
                finished := finished s; collected := collected s;
                completed := completed s; stop_event := stop_event s;
                stop_seen := stop_seen s; dl_status := dl_status s;
                run_log := run_log s |}
      else None
  | _ => None
  end.

Definition shutdown_step (s : RunState) : option RunState :=
  match phase_of s, work_queue s, running s with
  | ShuttingDown, [], [] =>
      Some {| phase_of := Finished restore_buttons; total := total s;
              max_workers := max_workers s; futures := futures s;
              work_queue := []; running := [];
              finished := finished s; collected := collected s;
              completed := completed s; stop_event := stop_event s;
              stop_seen := stop_seen s;
              dl_status := if stop_event s then dl_status s else Done;
              run_log := run_log s |}
  | _, _, _ => None
  end.

Definition start_step (s : RunState) : option RunState :=
  match work_queue s with
  | j :: rest =>
      if Nat.ltb (length (running s)) (max_workers s) then
        Some {| phase_of := phase_of s; total := total s;
                max_workers := max_workers s; futures := futures s;
                work_queue := rest; running := running s ++ [j];
                finished := finished s; collected := collected s;
                completed := completed s; stop_event := stop_event s;
                stop_seen := stop_seen s; dl_status := dl_status s;
                run_log := run_log s |}
      else None
  | [] => None
  end.

Definition finish_step (j : nat) (o : outcome) (s : RunState) : option RunState :=
  if mem j (running s) then
    Some {| phase_of := phase_of s; total := total s;
            max_workers := max_workers s; futures := futures s;
            work_queue := work_queue s; running := remove_job j (running s);
            finished := finished s ++ [(j, o)]; collected := collected s;
            completed := completed s; stop_event := stop_event s;
            stop_seen := stop_seen s; dl_status := dl_status s;
            run_log := run_log s |}
  else None.

(** [stop_dl] *)
Definition stop_dl (s : RunState) : RunState :=
  {| phase_of := phase_of s; total := total s;
     max_workers := max_workers s; futures := futures s;
     work_queue := work_queue s; running := running s;
     finished := finished s; collected := collected s;
     completed := completed s; stop_event := true;
     stop_seen := stop_seen s; dl_status := Stopping;
     run_log := run_log s |}.

(** [start_dl], clicked while this run is alive: [csv_path] is set, or
    this run would not exist, so the handler goes on to
    [self.stop_event.clear()] and starts another run. *)
Definition start_dl (s : RunState) : RunState :=
  {| phase_of := phase_of s; total := total s;
     max_workers := max_workers s; futures := futures s;
     work_queue := work_queue s; running := running s;
     finished := finished s; collected := collected s;
     completed := completed s; stop_event := false;
     stop_seen := stop_seen s; dl_status := dl_status s;
     run_log := run_log s |}.

(** The [run_dl] thread of another run writes the label: a progress
    text after each result it consumes, "Done" at its end. *)
Definition other_run_status (st : status) (s : RunState) : option RunState :=
  match st with
  | Progress _ _ | Done =>
      Some {| phase_of := phase_of s; total := total s;
              max_workers := max_workers s; futures := futures s;
              work_queue := work_queue s; running := running s;
              finished := finished s; collected := collected s;
              completed := completed s; stop_event := stop_event s;
              stop_seen := stop_seen s; dl_status := st;
              run_log := run_log s |}
  | Idle | Stopping => None
  end.

(** One event; [None] when the event is not enabled. *)
Definition step (e : event) (s : RunState) : option RunState :=
  match e with
  | MainSubmit => submit_step s
  | MainCollect j => collect_step j s
  | MainEndCollect => end_collect_step s
  | MainShutdown => shutdown_step s
  | WorkerStart => start_step s
  | WorkerFinish j o => finish_step j o s
  | StopClicked => Some (stop_dl s)
  | StartClicked => Some (start_dl s)
  | OtherRunStatus st => other_run_status st s
  end.

(** A schedule, event by event. *)
Fixpoint exec (sched : list event) (s : RunState) : option RunState :=
  match sched with
  | [] => Some s
  | e :: rest =>
      match step e s with
      | Some s' => exec rest s'
      | None => None
      end
  end.

(** [run_dl] on a table of [n] rows with [workers] pool threads, under
    the schedule [sched]. *)
Definition run_dl (n workers : nat) (sched : list event) : option RunState :=
  exec sched (init n workers).

Definition is_finished (s : RunState) : bool :=
  match phase_of s with Finished _ => true | _ => false end.

(** The log lines the result loop writes for a list of consumed
    futures. *)
Definition error_lines (fin : list (nat * outcome)) (js : list nat) : list pystr :=
  omap (fun j => match outcome_of j fin with
                 | Some (Raised e) => Some (py "ERROR: " ++ exn_msg e)
                 | _ => None
                 end) js.

(** What holds in every state a schedule can reach. *)
Record run_inv (s : RunState) : Prop := {
  (** the jobs submitted so far are the first rows of the table *)
  inv_rows : exists rest,
    futures s ++ rest = seq 0 (total s)
    /\ forall rows, phase_of s = Submitting rows -> rows = rest;
  (** the submit loop ended by exhaustion or by [break] *)
  inv_full : (forall rows, phase_of s <> Submitting rows) ->
    stop_seen s = true \/ futures s = seq 0 (total s);
  (** every submitted job is queued, running or done *)
  inv_pool : futures s ≡ₚ work_queue s ++ running s ++ (fst <$> finished s);
  inv_collected : forall j, j ∈ collected s -> j ∈ (fst <$> finished s);
  inv_collected_NoDup : NoDup (collected s);
  inv_completed : completed s = length (collected s);
  inv_log : run_log s
    = starting_line (max_workers s) :: error_lines (finished s) (collected s);
  (** a loop left by [break] is not entered again *)
  inv_seen : stop_seen s = true -> forall rows, phase_of s <> Submitting rows;
  (** the result loop ended by exhaustion or by [break] *)
  inv_exit : phase_of s = ShuttingDown \/ is_finished s = true ->
    stop_seen s = true \/ forall j, j ∈ futures s -> j ∈ collected s;
  inv_drained : is_finished s = true -> work_queue s = [] /\ running s = [];
  inv_not_started : forall rows, phase_of s = Submitting rows -> collected s = []
}.

Definition is_returned (o : outcome) : bool :=
  match o with Returned => true | Raised _ => false end.

(** Events from outside the run: the clicks on Stop and Start and the
    other runs.  Every other event is one of the run's own threads. *)
Definition is_click (e : event) : bool :=
  match e with
  | StopClicked | StartClicked | OtherRunStatus _ => true
  | _ => false
  end.

(** The same schedule with other job outcomes: [f j o] is how job [j]
    ends where it ended with [o]. *)
Definition with_outcomes (f : nat -> outcome -> outcome) (e : event) : event :=
  match e with
  | WorkerFinish j o => WorkerFinish j (f j o)
  | _ => e
  end.

Definition outcomes_as (f : nat -> outcome -> outcome)
    (fin : list (nat * outcome)) : list (nat * outcome) :=
  (fun jo => (jo.1, f jo.1 jo.2)) <$> fin.

(** The state [s] with the outcomes of its finished jobs read through
    [f], and the log lines that go with them. *)
Definition relabelled (f : nat -> outcome -> outcome) (s : RunState) : RunState :=
  {| phase_of := phase_of s; total := total s;
     max_workers := max_workers s; futures := futures s;
     work_queue := work_queue s; running := running s;
     finished := outcomes_as f (finished s); collected := collected s;
     completed := completed s; stop_event := stop_event s;
     stop_seen := stop_seen s; dl_status := dl_status s;
     run_log := starting_line (max_workers s)
                :: error_lines (outcomes_as f (finished s)) (collected s) |}.

Definition phase_rank (p : phase) : nat :=
  match p with
  | Submitting rows => 3 + 4 * length rows
  | Collecting => 2
  | ShuttingDown => 1
  | Finished _ => 0
  end.

(** A bound on the number of events the run's own threads can still
    perform: a row still to submit costs four (submit, start, finish,
    collect), a queued job three, a running job two, a finished job whose
    result is not consumed one. *)
Definition steps_left (s : RunState) : nat :=
  phase_rank (phase_of s) + 3 * length (work_queue s)
  + 2 * length (running s)
  + (length (finished s) - length (collected s)).

(** The [filename] and [out] that [download_track] computes for a row. *)
Definition output_name (cfg : Config) (row : TrackJob) : pystr :=
  build_safe_filename (job_artist row) (job_title row) (format_var cfg).

Definition output_path (cfg : Config) (row : TrackJob) : pystr :=
  os_path_join (output_dir cfg) (output_name cfg row).

(** The job is skipped: the policy is "skip" and the output exists. *)
Definition skipped (cfg : Config) (row : TrackJob) (w : World) : bool :=
  pystr_eqb (overwrite_var cfg) (py "skip")
  && bool_decide (output_path cfg row ∈ files w).

(** [get_default_output_dir]: the directory it returns for [self.csv_path]
    (and creates with [os.makedirs(..., exist_ok=True)]). *)
Definition get_default_output_dir (csv_path : pystr) : pystr :=
  let csv_dir := os_path_dirname csv_path in
  let csv_name := os_path_splitext_root (os_path_basename csv_path) in
  os_path_join csv_dir (csv_name ++ py "_download").

End spotisaver.

(** ** A catalog serving a playlist in pages

    The remote side of the pagination protocol: the playlist is cut into
    [pages]; page [i] carries a [next] link exactly when page [i+1]
    exists, and [sp.next] follows the link. *)
Definition page_url (i : nat) : pystr := replicate (S i) SLASH.
Definition page_index (url : pystr) : nat := pred (length url).

Definition served_page (pages : list (list Item)) (i : nat) : Page :=
  {| items := default [] (pages !! i);
     next := if Nat.ltb (S i) (length pages) then Some (page_url (S i)) else None |}.

Definition serve (playlist_name : pystr) (pages : list (list Item))
    (genres images : pystr -> list pystr) : Spotify :=
  {| sp_playlist := fun _ => Ok playlist_name;
     sp_playlist_tracks := fun _ => Ok (served_page pages 0);
     sp_next := fun results =>
       match next results with
       | Some url => Ok (served_page pages (page_index url))
       | None => Raise (PyExn TypeError (py "'NoneType' object is not subscriptable"))
       end;
     sp_artist := fun id => Ok (genres id);
     sp_track := fun id => Ok (images id) |}.

(** ** Two interpreters

    Both enumerate a set without repetition; they differ in the order,
    as two processes with different string-hash seeds may. *)
Program Definition runtime_a : PyRuntime :=
  {| set_iter := fun s => remove_dups s |}.
Next Obligation. intros s. apply NoDup_remove_dups. Qed.
Next Obligation. intros s x. apply elem_of_remove_dups. Qed.

Program Definition runtime_b : PyRuntime :=
  {| set_iter := fun s => reverse (remove_dups s) |}.
Next Obligation. intros s. rewrite reverse_Permutation. apply NoDup_remove_dups. Qed.
Next Obligation. intros s x. rewrite elem_of_reverse. apply elem_of_remove_dups. Qed.

(** [row[key]] for a row, [None] when the column is missing. *)
Fixpoint row_get (key : pystr) (r : Row) : option cell :=
  match r with
  | [] => None
  | (k, c) :: rest => if bool_decide (key = k) then Some c else row_get key rest
  end.

(** ** Sample data *)
Module sample.

Definition a1 : Artist := {| artist_id := py "A1"; artist_name := py "Sade" |}.
Definition a2 : Artist := {| artist_id := py "A2"; artist_name := py "Maxwell" |}.

Definition genres (id : pystr) : list pystr :=
  if bool_decide (id = py "A1") then [py "pop"; py "soul"]
  else if bool_decide (id = py "A2") then [py "pop"; py "jazz"]
  else [].

Definition album (covers : list pystr) : Album :=
  {| album_name := py "Diamond Life"; album_release_date := py "1984-07-16";
     album_label := None; album_images := covers |}.

Definition track (n : N) : Track :=
  {| track_uri := py "spotify:track:" ++ [n]; track_name := py "Song " ++ [n];
     track_album := album [py "https://i.scdn.co/image/1"];
     track_artists := [a1; a2]; track_duration_ms := 240000;
     track_popularity := 50; track_explicit := false;
     track_external_url := None |}.

Definition entry (n : N) : Item :=
  {| item_track := Some (track n); item_added_by := py "user";
     item_added_at := py "2024-01-01T00:00:00Z" |}.

(** A playlist entry whose track was removed from the catalog. *)
Definition removed : Item :=
  {| item_track := None; item_added_by := py "user";
     item_added_at := py "2024-01-01T00:00:00Z" |}.

Definition images (covers : list pystr) (id : pystr) : list pystr := covers.

(** Five entries in pages of two. *)
Definition pages : list (list Item) :=
  [[entry 65; entry 66]; [entry 67; entry 68]; [entry 69]].

Definition catalog (name : pystr) (pgs : list (list Item)) : Spotify :=
  serve name pgs genres (images [py "https://i.scdn.co/image/1"]).

(** External programs that do their work: the extractor writes
    [source.mp3] below the directory given after [--paths], the muxer
    writes its last argument. *)
Definition run_program (argv : list pystr) (w : spotisaver.World)
    : result spotisaver.World :=
  match argv with
  | prog :: _ =>
      let made :=
        if bool_decide (prog = py "ffmpeg") then default [] (last argv)
        else os_path_join (default [] (argv !! 9%nat)) (py "source.mp3") in
      Ok {| spotisaver.files := {[made]} ∪ spotisaver.files w;
            spotisaver.log := spotisaver.log w |}
  | [] => Raise (PyExn OSError (py "no program"))
  end.

Definition env (covers : list pystr) : spotisaver.Env :=
  {| spotisaver.sp := serve (py "Mix") pages genres (images covers);
     spotisaver.run_program := run_program;
     spotisaver.requests_get := fun _ => Ok tt;
     spotisaver.mkdtemp := fun _ => py "/tmp/tmpab12" |}.

Definition config : spotisaver.Config :=
  {| spotisaver.format_var := py "mp3"; spotisaver.bitrate_var := py "320";
     spotisaver.overwrite_var := py "skip";
     spotisaver.output_dir := py "/music" |}.

Definition job : spotisaver.TrackJob :=
  {| spotisaver.job_artist := py "Sade"; spotisaver.job_title := py "Smooth Operator";
     spotisaver.job_album := py "Diamond Life";
     spotisaver.job_uri := py "spotify:track:1";
     spotisaver.job_genres := py "pop, soul"; spotisaver.job_label := py "Epic";
     spotisaver.job_release_date := py "1984-07-16" |}.

Definition world : spotisaver.World :=
  {| spotisaver.files := ∅; spotisaver.log := [] |}.

Definition boom : pyexn := PyExn RuntimeError (py "Final output file was not created").

(** Ten rows, two workers.  All ten jobs are submitted; jobs 0 and 1
    start; job 0 finishes and is counted; Stop is clicked; job 1
    finishes and the result loop, asked for its result, sees the flag
    and breaks. *)
Definition cancel_observed : list spotisaver.event :=
  replicate 11 spotisaver.MainSubmit
  ++ [ spotisaver.WorkerStart; spotisaver.WorkerStart;
       spotisaver.WorkerFinish 0 spotisaver.Returned;
       spotisaver.MainCollect 0;
       spotisaver.StopClicked;
       spotisaver.WorkerFinish 1 spotisaver.Returned;
       spotisaver.MainCollect 1 ].

(** ... after which the pool works through the eight queued jobs and
    [run_dl] leaves the [with] block. *)
Definition drain_queue : list spotisaver.event :=
  flat_map (fun j => [spotisaver.WorkerStart;
                      spotisaver.WorkerFinish j spotisaver.Returned])
           (seq 2 8)
  ++ [spotisaver.MainShutdown].

(** Two rows, two workers, both jobs fail, Stop is clicked after the
    first failure has been logged. *)
Definition cancelled_failures : list spotisaver.event :=
  [ spotisaver.MainSubmit; spotisaver.MainSubmit; spotisaver.MainSubmit;
    spotisaver.WorkerStart; spotisaver.WorkerStart;
    spotisaver.WorkerFinish 0 (spotisaver.Raised boom);
    spotisaver.MainCollect 0;
    spotisaver.StopClicked;
    spotisaver.WorkerFinish 1 (spotisaver.Raised boom);
    spotisaver.MainCollect 1;
    spotisaver.MainShutdown ].

(** Two rows, one worker, both jobs fail, nobody clicks Stop. *)
Definition all_failures : list spotisaver.event :=
  [ spotisaver.MainSubmit; spotisaver.MainSubmit; spotisaver.MainSubmit;
    spotisaver.WorkerStart;
    spotisaver.WorkerFinish 0 (spotisaver.Raised boom);
    spotisaver.WorkerStart;
    spotisaver.WorkerFinish 1 (spotisaver.Raised boom);
    spotisaver.MainCollect 1; spotisaver.MainCollect 0;
    spotisaver.MainEndCollect; spotisaver.MainShutdown ].

(** The world after an earlier download of [job]. *)
Definition world_with_output : spotisaver.World :=
  {| spotisaver.files := {[py "/music/Sade - Smooth Operator.mp3"]};
     spotisaver.log := [] |}.

(** External programs that run and produce nothing. *)
Definition idle_env : spotisaver.Env :=
  {| spotisaver.sp := serve (py "Mix") pages genres
                        (images [py "https://i.scdn.co/image/1"]);
     spotisaver.run_program := fun _ w => Ok w;
     spotisaver.requests_get := fun _ => Ok tt;
     spotisaver.mkdtemp := fun _ => py "/tmp/tmpab12" |}.

(** A catalog whose every page links to itself. *)
Definition looping_page : Page :=
  {| items := [entry 65]; next := Some (py "https://api.spotify.com/v1/again") |}.

Definition looping_catalog : Spotify :=
  {| sp_playlist := fun _ => Ok (py "Mix");
     sp_playlist_tracks := fun _ => Ok looping_page;
     sp_next := fun _ => Ok looping_page;
     sp_artist := fun id => Ok (genres id);
     sp_track := fun _ => Ok [] |}.


End sample.

(** The columns of the exported table, in order. *)
Definition export_columns : list pystr :=
  List.map py
    ["Track URI"; "Track Name"; "Album Name"; "Artist Name(s)"; "Release Date";
     "Duration (ms)"; "Popularity"; "Explicit"; "Added By"; "Added At";
     "Genres"; "Record Label";
     "Danceability"; "Energy"; "Key"; "Loudness"; "Mode"; "Speechiness";
     "Acousticness"; "Instrumentalness"; "Liveness"; "Valence"; "Tempo";
     "Time Signature"]%string.

(** The pages reached from [p] by following [next] links through
    [sp.next], up to the first page without one. *)
Fixpoint follows (sp : Spotify) (p : Page) (ps : list Page) : Prop :=
  match ps with
  | [] => truthy_next p = false
  | q :: ps' => truthy_next p = true /\ sp_next sp p = Ok q /\ follows sp q ps'
  end.

(** ** The log panel of [spotisaver.py] ([log], [flush_logs])

    Worker threads put lines into [log_queue]; the interface thread moves
    them to the text widget every 100 ms. *)
Module log_panel.

Record Panel := {
  log_queue : list pystr;   (* [queue.Queue], oldest first *)
  log_text : pystr          (* the content of the text widget *)
}.

Definition empty : Panel := {| log_queue := []; log_text := [] |}.

(** [f"[{timestamp}] {message}"] *)
Definition line (timestamp message : pystr) : pystr :=
  py "[" ++ timestamp ++ py "] " ++ message.

(** [log]: [timestamp] is what [time.strftime] returns. *)
Definition log (timestamp message : pystr) (p : Panel) : Panel :=
  {| log_queue := log_queue p ++ [line timestamp message];
     log_text := log_text p |}.

(** [flush_logs]: the [while not self.log_queue.empty()] loop. *)
Fixpoint drain (queue : list pystr) (text : pystr) : pystr :=
  match queue with
  | [] => text
  | msg :: rest => drain rest (text ++ msg ++ [10])
  end.

Definition flush_logs (p : Panel) : Panel :=
  {| log_queue := []; log_text := drain (log_queue p) (log_text p) |}.

(** What the two threads do, in the order it happens. *)
Inductive op :=
  | Log (timestamp message : pystr)
  | Flush.

Definition apply_op (p : Panel) (o : op) : Panel :=
  match o with
  | Log timestamp message => log timestamp message p
  | Flush => flush_logs p
  end.

Definition run (ops : list op) : Panel := fold_left apply_op ops empty.

(** The lines logged by [ops], in call order. *)
Definition logged (ops : list op) : list pystr :=
  omap (fun o => match o with
                 | Log timestamp message => Some (line timestamp message)
                 | Flush => None
                 end) ops.

End log_panel.

(** ** [old py/downloader.py]: the sequential downloader *)
Module downloader.

(** The table read from the CSV: its columns, each with its values. *)
Definition DataFrame := list (pystr * list pystr).

(** How a call ended, as far as the [except Exception as e] clause of
    [run_downloads] can tell: normally, or with an exception whose
    [str(e)] is [message]. *)
Inductive attempt (A : Type) :=
  | Returned (a : A)
  | Failed (message : pystr).
Arguments Returned {A} a.
Arguments Failed {A} message.

Fixpoint lookup_column (key : pystr) (df : DataFrame) : option (list pystr) :=
  match df with
  | [] => None
  | (k, values) :: rest =>
      if bool_decide (key = k) then Some values else lookup_column key rest
  end.

(** [df[key]]; a missing column raises [KeyError(key)], whose [str] is
    the key in quotes. *)
Definition column (df : DataFrame) (key : pystr) : attempt (list pystr) :=
  match lookup_column key df with
  | Some values => Returned values
  | None => Failed (py "'" ++ key ++ py "'")
  end.

Fixpoint zip3 (a b c : list pystr) : list (pystr * pystr * pystr) :=
  match a, b, c with
  | x :: a', y :: b', z :: c' => (x, y, z) :: zip3 a' b' c'
  | _, _, _ => []
  end.

(** From the column check to [tracks = list(zip(...))]. *)
Definition load_tracks (df : DataFrame) : attempt (list (pystr * pystr * pystr)) :=
  if bool_decide (py "Track Name" ∈ (fst <$> df))
     && bool_decide (py "Artist Name(s)" ∈ (fst <$> df)) then
    match column df (py "Artist Name(s)") with
    | Failed m => Failed m
    | Returned artists =>
        match column df (py "Track Name") with
        | Failed m => Failed m
        | Returned titles =>
            match column df (py "Track URI") with
            | Failed m => Failed m
            | Returned uris => Returned (zip3 artists titles uris)
            end
        end
    end
  else Failed (py "CSV missing required columns").

Inductive status :=
  | Idle
  | Stopping                                   (* "Stopping after current track…" *)
  | Downloading (i total : nat) (title : pystr)
  | Cancelled
  | Done
  | Error.

Section runner.

(** The machine outside the interface (files, network). *)
Variable W : Type.

(** What one call of [download_track] does: the machine afterwards,
    whether it raised, and whether Stop was clicked while it ran. *)
Record Outcome := {
  after : W;
  raised : option pystr;
  stop_clicked : bool
}.

(** [download_track(query, track_uri, ...)] with the format, bitrate and
    overwrite mode of the run. *)
Variable download_track : pystr -> pystr -> W -> Outcome.

Record Gui := {
  world : W;
  gui_status : status;
  progress : nat;
  progress_maximum : nat;
  stop_event : bool;
  start_btn_enabled : bool;
  stop_btn_enabled : bool;
  errors_shown : list pystr;     (* [messagebox.showerror] texts *)
  infos_shown : list pystr;      (* [messagebox.showinfo] texts *)
  calls : list (pystr * pystr)   (* history: the [download_track] calls made *)
}.

Definition with_status (st : status) (g : Gui) : Gui :=
  {| world := world g; gui_status := st; progress := progress g;
     progress_maximum := progress_maximum g; stop_event := stop_event g;
     start_btn_enabled := start_btn_enabled g;
     stop_btn_enabled := stop_btn_enabled g; errors_shown := errors_shown g;
     infos_shown := infos_shown g; calls := calls g |}.

Definition with_progress (value maximum : nat) (g : Gui) : Gui :=
  {| world := world g; gui_status := gui_status g; progress := value;
     progress_maximum := maximum; stop_event := stop_event g;
     start_btn_enabled := start_btn_enabled g;
     stop_btn_enabled := stop_btn_enabled g; errors_shown := errors_shown g;
     infos_shown := infos_shown g; calls := calls g |}.

(** [stop] *)
Definition stop (g : Gui) : Gui :=
  {| world := world g; gui_status := Stopping; progress := progress g;
     progress_maximum := progress_maximum g; stop_event := true;
     start_btn_enabled := start_btn_enabled g;
     stop_btn_enabled := stop_btn_enabled g; errors_shown := errors_shown g;
     infos_shown := infos_shown g; calls := calls g |}.

(** A row whose download returns, without a click on Stop while it
    runs. *)
Definition quiet (t : pystr * pystr * pystr) : Prop :=
  let '(artist, title, track_uri) := t in
  forall w,
    raised (download_track (artist ++ py " - " ++ title) track_uri w) = None
    /\ stop_clicked (download_track (artist ++ py " - " ++ title) track_uri w)
       = false.

(** One call of [download_track] from the loop. *)
Definition call (query uri : pystr) (g : Gui) : Gui * option pystr :=
  let o := download_track query uri (world g) in
  let g1 :=
    {| world := after o; gui_status := gui_status g; progress := progress g;
       progress_maximum := progress_maximum g; stop_event := stop_event g;
       start_btn_enabled := start_btn_enabled g;
       stop_btn_enabled := stop_btn_enabled g; errors_shown := errors_shown g;
       infos_shown := infos_shown g; calls := calls g ++ [(query, uri)] |} in
  (if stop_clicked o then stop g1 else g1, raised o).

(** [for i, (artist, title, track_uri) in enumerate(tracks, start=1)];
    the second component is the message of the exception that ended the
    loop, if one did. *)
Fixpoint download_loop (total i : nat) (tracks : list (pystr * pystr * pystr))
    (g : Gui) : Gui * option pystr :=
  match tracks with
  | [] => (g, None)
  | (artist, title, track_uri) :: rest =>
      if stop_event g then (with_status Cancelled g, None)
      else
        let query := artist ++ py " - " ++ title in
        match call query track_uri (with_status (Downloading i total title) g) with
        | (g1, Some message) => (g1, Some message)
        | (g1, None) =>
            download_loop total (S i) rest
              (with_progress i (progress_maximum g1) g1)
        end
  end.

(** The [try] block after the CSV has been read. *)
Definition try_block (df : DataFrame) (g : Gui) : Gui * option pystr :=
  match load_tracks df with
  | Failed message => (g, Some message)
  | Returned tracks =>
      let total := length tracks in
      match download_loop total 1 tracks (with_progress 0 total g) with
      | (g1, Some message) => (g1, Some message)
      | (g1, None) =>
          if stop_event g1 then (g1, None)
          else
            ({| world := world g1; gui_status := Done; progress := progress g1;
                progress_maximum := progress_maximum g1;
                stop_event := stop_event g1;
                start_btn_enabled := start_btn_enabled g1;
                stop_btn_enabled := stop_btn_enabled g1;
                errors_shown := errors_shown g1;
                infos_shown := infos_shown g1 ++ [py "All downloads completed"];
                calls := calls g1 |}, None)
      end
  end.

(** [run_downloads], with its [except] and [finally] clauses. *)
Definition run_downloads (df : DataFrame) (g : Gui) : Gui :=
  let '(g1, exn) := try_block df g in
  let g2 :=
    match exn with
    | Some message =>
        {| world := world g1; gui_status := Error; progress := progress g1;
           progress_maximum := progress_maximum g1; stop_event := stop_event g1;
           start_btn_enabled := start_btn_enabled g1;
           stop_btn_enabled := stop_btn_enabled g1;
           errors_shown := errors_shown g1 ++ [message];
           infos_shown := infos_shown g1; calls := calls g1 |}
    | None => g1
    end in
  {| world := world g2; gui_status := gui_status g2; progress := 0;
     progress_maximum := progress_maximum g2; stop_event := false;
     start_btn_enabled := true; stop_btn_enabled := false;
     errors_shown := errors_shown g2; infos_shown := infos_shown g2;
     calls := calls g2 |}.

End runner.

Arguments after {W} _.
Arguments raised {W} _.
Arguments stop_clicked {W} _.
Arguments world {W} _.
Arguments gui_status {W} _.
Arguments progress {W} _.
Arguments progress_maximum {W} _.
Arguments stop_event {W} _.
Arguments start_btn_enabled {W} _.
Arguments stop_btn_enabled {W} _.
Arguments errors_shown {W} _.
Arguments infos_shown {W} _.
Arguments calls {W} _.
Arguments with_status {W} st g.
Arguments with_progress {W} value maximum g.
Arguments stop {W} g.
Arguments call {W} download_track query uri g.
Arguments download_loop {W} download_track total i tracks g.
Arguments try_block {W} download_track df g.
Arguments run_downloads {W} download_track df g.
Arguments quiet {W} download_track t.

(** The query and URI of a row, as passed to [download_track]. *)
Definition query_of (t : pystr * pystr * pystr) : pystr * pystr :=
  let '(artist, title, track_uri) := t in (artist ++ py " - " ++ title, track_uri).

End downloader.

(** ** Sample data for the old downloader *)
Module sample_old.

(** A two-row table for the old downloader, and a [download_track] that
    fails on every track of the artist "Nobody". *)
Definition table : downloader.DataFrame :=
  [ (py "Track URI", [py "spotify:track:1"; py "spotify:track:2"; py "spotify:track:3"]);
    (py "Track Name", [py "Smooth Operator"; py "Missing"; py "Pretty Wings"]);
    (py "Artist Name(s)", [py "Sade"; py "Nobody"; py "Maxwell"]) ].

Definition job (query uri : pystr) (w : nat) : downloader.Outcome nat :=
  {| downloader.after := S w;
     downloader.raised :=
       if bool_decide (take 6 query = py "Nobody") then Some (py "no match") else None;
     downloader.stop_clicked := false |}.


Definition gui : downloader.Gui nat :=
  {| downloader.world := 0%nat; downloader.gui_status := downloader.Idle;
     downloader.progress := 0; downloader.progress_maximum := 0;
     downloader.stop_event := false; downloader.start_btn_enabled := false;
     downloader.stop_btn_enabled := true; downloader.errors_shown := [];
     downloader.infos_shown := []; downloader.calls := [] |}.

End sample_old.

(** ** [spotisave.py]: saving, and the user branch of [main] *)
Module spotisave_cli.

(** A playlist as listed for a user: its ["id"] and ["name"]. *)
Record Playlist := { playlist_id : pystr; playlist_name : pystr }.

(** The files of the current directory. *)
Abbreviation Files := (gmap pystr (list Row)).

(** [save_to_file] *)
Definition save_to_file (data : list Row) (filename : pystr) (save_xls : bool)
    (files : Files) : Files :=
  let filename := sanitize_filename filename in
  let files := <[filename ++ py ".csv" := data]> files in
  if save_xls then <[filename ++ py ".xlsx" := data]> files else files.

(** [for pl in playlists: ...] in the user branch of [main]: fetch,
    extract, save.  An exception leaves the loop with the files written so
    far. *)
Fixpoint save_playlists (sp : Spotify) (fuel : nat) (save_xls : bool)
    (playlists : list Playlist) (files : Files) : option (Files * result unit) :=
  match playlists with
  | [] => Some (files, Ok tt)
  | pl :: rest =>
      match get_playlist_tracks sp fuel (playlist_id pl) with
      | None => None
      | Some (Raise e) => Some (files, Raise e)
      | Some (Ok tracks) =>
          save_playlists sp fuel save_xls rest
            (save_to_file (List.map spotisave.extract_track_info tracks)
               (playlist_name pl) save_xls files)
      end
  end.

End spotisave_cli.

(** * Properties *)

(** ** The filename sanitizer *)
Section sanitizer_facts.

(** The characters of [valid], one by one. *)
Lemma char_in_valid_inv c :
  char_in c valid = true ->
  c = SPACE \/ (sanitized_char c = true /\ py_isspace c = false /\ c <> SPACE).
Proof.
  unfold char_in. rewrite existsb_exists. intros (d & Hin & Heq).
  apply N.eqb_eq in Heq. subst d.
  vm_compute in Hin.
  repeat (destruct Hin as [<- | Hin];
          [first [left; reflexivity
                 | right; split; [reflexivity | split; [reflexivity | discriminate]]] | ]).
  destruct Hin.
Qed.

Lemma char_in_valid_ascii c : char_in c valid = true -> is_non_ascii c = false.
Proof.
  intros H. destruct (char_in_valid_inv c H) as [-> | (Hs & _ & _)]; [reflexivity|].
  unfold sanitized_char, is_ascii_letter, is_ascii_digit, is_filename_punct in Hs.
  unfold is_non_ascii. apply N.leb_gt.
  rewrite !orb_true_iff, !andb_true_iff, !N.leb_le in Hs.
  destruct Hs as [[[[? ?] | [? ?]] | [? ?]] | Hp]; try lia.
  unfold char_in in Hp. rewrite existsb_exists in Hp.
  destruct Hp as (d & Hin & Heq). apply N.eqb_eq in Heq. subst d.
  vm_compute in Hin.
  repeat (destruct Hin as [<- | Hin]; [lia|]). destruct Hin.
Qed.

Lemma py_lstrip_incl s c : In c (py_lstrip s) -> In c s.
Proof.
  induction s as [|d s IH]; simpl; [tauto|].
  destruct (py_isspace d); simpl; intuition.
Qed.

Lemma py_strip_incl s c : In c (py_strip s) -> In c s.
Proof.
  unfold py_strip, py_rstrip. intros H.
  apply in_rev, py_lstrip_incl, in_rev in H.
  by apply py_lstrip_incl.
Qed.

Lemma py_lstrip_id s :
  Forall (fun c => py_isspace c = false) s -> py_lstrip s = s.
Proof. intros [|c s' Hc _]; simpl; [done|]. by rewrite Hc. Qed.

Lemma py_strip_id s :
  Forall (fun c => py_isspace c = false) s -> py_strip s = s.
Proof.
  intros H. unfold py_strip, py_rstrip.
  rewrite (py_lstrip_id s H), py_lstrip_id, rev_involutive; [done|].
  by apply List.Forall_rev.
Qed.

(** What every character of a sanitized name looks like. *)
Lemma sanitize_filename_chars name c :
  In c (sanitize_filename name) ->
  char_in c valid = true /\ sanitized_char c = true
  /\ py_isspace c = false /\ c <> SPACE.
Proof.
  unfold sanitize_filename, py_replace_char. rewrite in_map_iff.
  intros (d & Hd & Hin). apply py_strip_incl, filter_In in Hin.
  destruct Hin as [_ Hv]. destruct (N.eqb_spec d SPACE) as [Heq | Hne].
  - subst c. by vm_compute.
  - subst c. destruct (char_in_valid_inv d Hv) as [? | (? & ? & ?)]; [done|].
    done.
Qed.

Lemma filter_all {A} (f : A -> bool) l :
  (forall x, In x l -> f x = true) -> List.filter f l = l.
Proof.
  induction l as [|x l IH]; simpl; intros H; [done|].
  rewrite (H x) by auto. f_equal. apply IH. auto.
Qed.

Lemma filter_none {A} (f : A -> bool) l :
  (forall x, In x l -> f x = false) -> List.filter f l = [].
Proof.
  induction l as [|x l IH]; simpl; intros H; [done|].
  rewrite (H x) by auto. apply IH. auto.
Qed.

Lemma py_replace_char_id old new s :
  (forall c, In c s -> c <> old) -> py_replace_char old new s = s.
Proof.
  unfold py_replace_char. induction s as [|c s IH]; simpl; intros H; [done|].
  destruct (N.eqb_spec c old) as [-> | _].
  - exfalso. by apply (H old); [left|].
  - f_equal. apply IH. auto.
Qed.

Lemma sanitize_filename_fixed s :
  (forall c, In c s ->
     char_in c valid = true /\ py_isspace c = false /\ c <> SPACE) ->
  sanitize_filename s = s.
Proof.
  intros H. unfold sanitize_filename.
  rewrite filter_all by (intros c Hc; by apply H).
  rewrite py_strip_id by (apply List.Forall_forall; intros c Hc; by apply H).
  apply py_replace_char_id. intros c Hc. by apply H.
Qed.

End sanitizer_facts.

(** C9. The filename sanitizer is idempotent, and the sanitized form of
    ["Sade: Best Hits? (Live)"] is ["Sade_Best_Hits_(Live)"], which holds
    neither [':'] nor ['?']. *)
Theorem sanitize_filename_idempotent :
  (forall x : pystr,
     sanitize_filename (sanitize_filename x) = sanitize_filename x)
  /\ sanitize_filename (py "Sade: Best Hits? (Live)") = py "Sade_Best_Hits_(Live)"
  /\ char_in 58 (sanitize_filename (py "Sade: Best Hits? (Live)")) = false
  /\ char_in 63 (sanitize_filename (py "Sade: Best Hits? (Live)")) = false.
Proof.
  split; [|by vm_compute].
  intros x. apply sanitize_filename_fixed. intros c Hc.
  destruct (sanitize_filename_chars x c Hc) as (? & ? & ? & ?). done.
Qed.

(** C10. Every character the sanitizer returns is an ASCII letter, an
    ASCII digit or one of [-_.()]; in particular no non-ASCII character
    survives, and a name made of non-ASCII characters only is sanitized
    to the empty string. *)
Theorem sanitize_filename_ascii_only (x : pystr) :
  Forall (fun c => sanitized_char c = true /\ is_non_ascii c = false)
         (sanitize_filename x)
  /\ (Forall (fun c => is_non_ascii c = true) x -> sanitize_filename x = []).
Proof.
  split.
  - apply List.Forall_forall. intros c Hc.
    destruct (sanitize_filename_chars x c Hc) as (Hv & Hs & _ & _).
    split; [done|]. by apply char_in_valid_ascii.
  - intros Hx. unfold sanitize_filename.
    rewrite filter_none; [done|].
    intros c Hc. rewrite List.Forall_forall in Hx.
    destruct (char_in c valid) eqn:Hv; [|done].
    apply char_in_valid_ascii in Hv. rewrite (Hx c Hc) in Hv. done.
Qed.

(** A playlist name written in kanji only. *)
Lemma sanitize_filename_ascii_only_witness :
  Forall (fun c => is_non_ascii c = true) [26085; 26412; 35486]
  /\ sanitize_filename [26085; 26412; 35486] = [].
Proof.
  assert (H : Forall (fun c => is_non_ascii c = true) [26085; 26412; 35486])
    by (repeat constructor).
  split; [exact H|].
  exact (proj2 (sanitize_filename_ascii_only [26085; 26412; 35486]) H).
Defined.

(** ** Pagination *)
Section pagination_facts.

Variables (playlist_name : pystr) (pages : list (list Item)).
Variables (genres images : pystr -> list pystr).

Let sp := serve playlist_name pages genres images.

Lemma page_index_url i : page_index (page_url i) = i.
Proof. unfold page_index, page_url. by rewrite length_replicate. Qed.

Lemma truthy_next_served i :
  truthy_next (served_page pages i) = Nat.ltb (S i) (length pages).
Proof.
  unfold truthy_next, served_page. simpl.
  by destruct (Nat.ltb (S i) (length pages)).
Qed.

(** After page [i] has been appended, the loop appends exactly the
    pages that follow it. *)
Lemma fetch_more_served fuel : forall i tracks,
  (length pages <= S i + fuel)%nat ->
  fetch_more sp fuel (served_page pages i) tracks
  = Some (Ok (tracks ++ concat (drop (S i) pages))).
Proof.
  induction fuel as [|fuel IH]; intros i tracks Hlen.
  - destruct (Nat.ltb_spec (S i) (length pages)) as [Hlt | Hge]; [lia|].
    simpl. rewrite truthy_next_served.
    destruct (Nat.ltb_spec (S i) (length pages)); [lia|].
    rewrite drop_ge by lia. simpl. by rewrite app_nil_r.
  - simpl. rewrite truthy_next_served.
    destruct (Nat.ltb_spec (S i) (length pages)) as [Hlt | Hge].
    + rewrite page_index_url, IH by lia.
      destruct (lookup_lt_is_Some_2 pages (S i) Hlt) as [pg Hpg].
      rewrite (drop_S pages pg (S i) Hpg). simpl.
      rewrite Hpg. simpl. by rewrite <- app_assoc.
    + rewrite drop_ge by lia. simpl. by rewrite app_nil_r.
Qed.

Lemma get_playlist_tracks_served fuel pid :
  (length pages <= S fuel)%nat ->
  get_playlist_tracks sp fuel pid = Some (Ok (concat pages)).
Proof.
  intros Hlen. unfold get_playlist_tracks. simpl.
  rewrite fetch_more_served by lia. simpl.
  destruct pages as [|pg rest]; simpl; [done|].
  by rewrite drop_0.
Qed.

End pagination_facts.

(** C3. A playlist of [N] entries served in [P] pages, however the
    entries are cut into pages: the pagination loop stops after [P - 1]
    further requests and returns exactly the [N] entries in playlist
    order (no entry at a page boundary is lost or repeated), and the
    record list built from it has one record per entry, in the same
    order. *)
Theorem get_playlist_tracks_all_pages
    (tracks : list Item) (pages : list (list Item)) (name : pystr)
    (genres images : pystr -> list pystr) (fuel : nat) (pid : pystr) :
  concat pages = tracks ->
  (length pages <= S fuel)%nat ->
  let sp := serve name pages genres images in
  get_playlist_tracks sp fuel pid = Some (Ok tracks)
  /\ spotisave.playlist_data sp fuel pid
     = Some (Ok (List.map spotisave.extract_track_info tracks))
  /\ length (List.map spotisave.extract_track_info tracks) = length tracks.
Proof.
  intros <- Hlen sp.
  assert (H : get_playlist_tracks sp fuel pid = Some (Ok (concat pages)))
    by (by apply get_playlist_tracks_served).
  split; [done|]. split.
  - unfold spotisave.playlist_data. by rewrite H.
  - apply length_map.
Qed.

(** Five entries in pages of two, two requests after the first. *)
Lemma get_playlist_tracks_all_pages_witness :
  get_playlist_tracks (sample.catalog (py "Mix") sample.pages) 2 (py "37i9")
  = Some (Ok [sample.entry 65; sample.entry 66; sample.entry 67;
              sample.entry 68; sample.entry 69]).
Proof.
  refine (proj1 (get_playlist_tracks_all_pages _ sample.pages (py "Mix")
            sample.genres (sample.images _) 2 (py "37i9") _ _)).
  - reflexivity.
  - simpl. lia.
Defined.

(** ** Genres *)
Section genre_facts.

Variable sp : Spotify.

Lemma update_genres_answers table artists : forall genres,
  answers sp table artists ->
  update_genres sp artists genres
  = Ok (genres ++ concat ((fun a => table (artist_id a)) <$> artists)).
Proof.
  induction artists as [|a rest IH]; intros genres Hans; simpl.
  - by rewrite app_nil_r.
  - rewrite (Hans a) by apply list_elem_of_here. simpl.
    rewrite IH.
    + unfold set_update. by rewrite <- app_assoc.
    + intros b Hb. apply Hans. by apply list_elem_of_further.
Qed.

Lemma set_content_concat (ls : list (list pystr)) :
  set_content (concat ls) = ⋃ (list_to_set <$> ls).
Proof.
  unfold set_content. induction ls as [|l ls IH]; simpl; [done|].
  by rewrite list_to_set_app_L, IH.
Qed.

Lemma collect_genres_answers table artists :
  answers sp table artists ->
  exists genres,
    collect_genres sp artists = Ok genres
    /\ set_content genres
       = ⋃ ((fun a => list_to_set (table (artist_id a))) <$> artists).
Proof.
  intros Hans. eexists. split.
  - unfold collect_genres. by apply update_genres_answers.
  - unfold set_new. simpl. rewrite set_content_concat.
    by rewrite <- list_fmap_compose.
Qed.

Lemma union_list_perm (f : Artist -> gset pystr) l l' :
  l ≡ₚ l' -> ⋃ (f <$> l) = ⋃ (f <$> l').
Proof.
  intros Hp. apply set_eq. intros x.
  rewrite !elem_of_union_list. split.
  - intros (X & HX & Hx). apply list_elem_of_fmap in HX as (a & -> & Ha).
    exists (f a). split; [|done]. apply list_elem_of_fmap. exists a.
    split; [done|]. by rewrite <- Hp.
  - intros (X & HX & Hx). apply list_elem_of_fmap in HX as (a & -> & Ha).
    exists (f a). split; [|done]. apply list_elem_of_fmap. exists a.
    split; [done|]. by rewrite Hp.
Qed.

Lemma set_iter_content (rt : PyRuntime) genres :
  list_to_set (set_iter rt genres) = set_content genres.
Proof.
  apply set_eq. intros x. unfold set_content.
  rewrite !elem_of_list_to_set. apply set_iter_elem.
Qed.

Lemma set_iter_length (rt : PyRuntime) genres :
  length (set_iter rt genres) = size (set_content genres).
Proof.
  rewrite <- (set_iter_content rt). symmetry.
  apply size_list_to_set, set_iter_NoDup.
Qed.

Lemma set_iter_perm (rt1 rt2 : PyRuntime) genres :
  set_iter rt1 genres ≡ₚ set_iter rt2 genres.
Proof.
  apply NoDup_Permutation;
    [apply (set_iter_NoDup rt1) | apply (set_iter_NoDup rt2) |].
  intros x. by rewrite (set_iter_elem rt1), (set_iter_elem rt2).
Qed.

Lemma perm_short_eq {A} (l k : list A) :
  l ≡ₚ k -> (length l <= 1)%nat -> l = k.
Proof.
  intros Hp Hl. destruct l as [|x [|y l]]; simpl in Hl; try lia.
  - by apply Permutation_nil_l in Hp.
  - by apply Permutation_singleton_l in Hp.
Qed.

Lemma size_shared_genre (shared g1 g2 : pystr) :
  shared <> g1 -> shared <> g2 -> g1 <> g2 ->
  size (list_to_set [shared; g1] ∪ (list_to_set [shared; g2] ∪ ∅) : gset pystr)
  = 3%nat.
Proof.
  intros Hn1 Hn2 Hn12.
  assert (Heq : list_to_set [shared; g1] ∪ (list_to_set [shared; g2] ∪ ∅)
                = (list_to_set [shared; g1; g2] : gset pystr)).
  { apply set_eq. intros x. simpl.
    rewrite !elem_of_union, !elem_of_singleton, elem_of_empty. tauto. }
  rewrite Heq, size_list_to_set; [done|].
  apply NoDup_cons. split.
  - rewrite !elem_of_cons, elem_of_nil. tauto.
  - apply NoDup_cons. split; [|apply NoDup_singleton].
    rewrite elem_of_cons, elem_of_nil. tauto.
Qed.

End genre_facts.

(** C6. When the catalog answers the artist lookups of a track, the
    genre set is the union of the artists' genre lists; the Genres field
    of the exported row joins an enumeration of that set without
    repetition; the set is the same for every ordering of the artists;
    and two artists who share one genre and have one more each give
    exactly three genres. *)
Theorem genres_are_union (rt : PyRuntime) (sp : Spotify)
    (table : pystr -> list pystr) (artists : list Artist) :
  answers sp table artists ->
  exists genres,
    collect_genres sp artists = Ok genres
    /\ set_content genres
       = ⋃ ((fun a => list_to_set (table (artist_id a))) <$> artists)
    /\ genres_field rt genres = py_join (py ", ") (set_iter rt genres)
    /\ NoDup (set_iter rt genres)
    /\ list_to_set (set_iter rt genres) = set_content genres
    /\ (forall t tr, item_track t = Some tr -> track_artists tr = artists ->
          exists row, spotisaver.export_row rt sp t = Ok row
                      /\ row_get (py "Genres") row
                         = Some (CStr (genres_field rt genres)))
    /\ (forall artists', artists' ≡ₚ artists ->
          exists genres', collect_genres sp artists' = Ok genres'
                          /\ set_content genres' = set_content genres)
    /\ (forall a1 a2 shared g1 g2,
          artists = [a1; a2] ->
          table (artist_id a1) = [shared; g1] ->
          table (artist_id a2) = [shared; g2] ->
          shared <> g1 -> shared <> g2 -> g1 <> g2 ->
          size (set_content genres) = 3%nat
          /\ length (set_iter rt genres) = 3%nat).
Proof.
  intros Hans.
  destruct (collect_genres_answers sp table artists Hans) as (genres & Hg & Hc).
  exists genres. split; [done|]. split; [done|]. split; [done|].
  split; [apply set_iter_NoDup|]. split; [apply set_iter_content|]. split.
  { intros t tr Ht Ha. unfold spotisaver.export_row. rewrite Ht, Ha, Hg.
    eexists. split; reflexivity. }
  split.
  - intros artists' Hp.
    assert (Hans' : answers sp table artists').
    { intros a Ha. apply Hans. by rewrite <- Hp. }
    destruct (collect_genres_answers sp table artists' Hans') as (genres' & Hg' & Hc').
    exists genres'. split; [done|]. rewrite Hc, Hc'. by apply union_list_perm.
  - intros a1 a2 shared g1 g2 -> H1 H2 Hn1 Hn2 Hn12.
    assert (Hsize : size (set_content genres) = 3%nat).
    { rewrite Hc. simpl. rewrite H1, H2. by apply size_shared_genre. }
    split; [done|]. by rewrite set_iter_length.
Qed.

(** Sade (pop, soul) and Maxwell (pop, jazz). *)
Lemma genres_are_union_witness :
  exists genres,
    collect_genres (sample.catalog (py "Mix") sample.pages) [sample.a1; sample.a2]
    = Ok genres
    /\ size (set_content genres) = 3%nat
    /\ length (set_iter runtime_a genres) = 3%nat.
Proof.
  assert (Hans : answers (sample.catalog (py "Mix") sample.pages) sample.genres
                   [sample.a1; sample.a2]) by (intros a _; reflexivity).
  destruct (genres_are_union runtime_a _ _ _ Hans)
    as (genres & Hg & _ & _ & _ & _ & _ & _ & Hex).
  exists genres. split; [exact Hg|].
  apply (Hex sample.a1 sample.a2 (py "pop") (py "soul") (py "jazz"));
    first [reflexivity | discriminate].
Defined.

(** C7 as stated fails: the same catalog data exported by two
    interpreters that enumerate the genre set in different orders gives
    two different Genres fields. *)
Lemma genres_field_order_counterexample :
  exists r1 r2,
    spotisaver.export_row runtime_a (sample.catalog (py "Mix") sample.pages)
      (sample.entry 65) = Ok r1
    /\ spotisaver.export_row runtime_b (sample.catalog (py "Mix") sample.pages)
      (sample.entry 65) = Ok r2
    /\ row_get (py "Genres") r1 = Some (CStr (py "soul, pop, jazz"))
    /\ row_get (py "Genres") r2 = Some (CStr (py "jazz, pop, soul"))
    /\ row_get (py "Genres") r1 <> row_get (py "Genres") r2.
Proof.
  eexists _, _. split; [reflexivity|]. split; [reflexivity|].
  split; [by vm_compute|]. split; [by vm_compute|].
  vm_compute. discriminate.
Qed.

(** C7, amended. Two exports of the same entry from the same catalog
    data agree on every column but Genres; their Genres fields join the
    same genres, each once, possibly in a different order; they are the
    same string when the track has at most one genre. *)
Theorem genres_field_same_genres (rt1 rt2 : PyRuntime) (sp : Spotify)
    (t : Item) (r1 : Row) :
  spotisaver.export_row rt1 sp t = Ok r1 ->
  exists r2 g1 g2,
    spotisaver.export_row rt2 sp t = Ok r2
    /\ (forall k, k <> py "Genres" -> row_get k r2 = row_get k r1)
    /\ row_get (py "Genres") r1 = Some (CStr (py_join (py ", ") g1))
    /\ row_get (py "Genres") r2 = Some (CStr (py_join (py ", ") g2))
    /\ NoDup g1 /\ g1 ≡ₚ g2
    /\ ((length g1 <= 1)%nat -> r2 = r1).
Proof.
  unfold spotisaver.export_row.
  destruct (item_track t) as [tr|]; [|discriminate].
  destruct (collect_genres sp (track_artists tr)) as [genres|e]; [|discriminate].
  simpl. intros [= <-].
  eexists _, (set_iter rt1 genres), (set_iter rt2 genres).
  split; [reflexivity|]. split.
  { intros k Hk. unfold row_get.
    repeat (case_bool_decide; [first [reflexivity | by subst k]|]).
    reflexivity. }
  split; [reflexivity|]. split; [reflexivity|].
  split; [apply set_iter_NoDup|]. split; [apply set_iter_perm|].
  intros Hlen. unfold genres_field.
  by rewrite (perm_short_eq _ _ (set_iter_perm rt1 rt2 genres) Hlen).
Qed.

Lemma genres_field_same_genres_witness :
  exists r2 g1 g2,
    spotisaver.export_row runtime_b (sample.catalog (py "Mix") sample.pages)
      (sample.entry 65) = Ok r2
    /\ row_get (py "Genres") r2 = Some (CStr (py_join (py ", ") g2))
    /\ g1 ≡ₚ g2.
Proof.
  destruct (genres_field_same_genres runtime_a runtime_b
              (sample.catalog (py "Mix") sample.pages) (sample.entry 65) _
              eq_refl)
    as (r2 & g1 & g2 & H2 & _ & _ & Hg2 & _ & Hp & _).
  exists r2, g1, g2. split; [exact H2|]. split; [exact Hg2 | exact Hp].
Defined.

(** ** Export *)

(** C8 as stated fails: a playlist named ["???"] sanitizes to the empty
    string, and the export succeeds and writes the five rows to
    [/music/.csv]. *)
Lemma export_csv_unnamed_counterexample :
  sanitize_filename (py "???") = []
  /\ exists written,
       spotisaver.export_csv runtime_a (sample.catalog (py "???") sample.pages)
         2 ∅ (py "37i9") (py "/music")
       = Some (Ok (py "/music/.csv", written))
       /\ length <$> (written !! py "/music/.csv") = Some 5%nat.
Proof.
  split; [reflexivity|]. eexists. split.
  - vm_compute. reflexivity.
  - vm_compute. reflexivity.
Qed.

(** C8, amended. When the sanitized playlist name is empty the export
    raises nothing on that account: once the name and the entries have
    been fetched, the only failure left is one raised while the rows are
    built, and otherwise the table is written to the file [.csv] in the
    chosen directory. *)
Theorem export_csv_empty_name (rt : PyRuntime) (sp : Spotify) (fuel : nat)
    (files : gmap pystr (list Row)) (pid out name : pystr) (tracks : list Item) :
  sp_playlist sp pid = Ok name ->
  get_playlist_tracks sp fuel pid = Some (Ok tracks) ->
  sanitize_filename name = [] ->
  let path := os_path_join out (py ".csv") in
  spotisaver.export_csv rt sp fuel files pid out
  = Some (match for_each (spotisaver.export_row rt sp) tracks with
          | Ok data => Ok (path, <[path := data]> files)
          | Raise e => Raise e
          end).
Proof.
  intros Hname Htracks Hempty path. unfold spotisaver.export_csv.
  rewrite Hname, Htracks. f_equal.
  destruct (for_each (spotisaver.export_row rt sp) tracks) as [data|e]; simpl; [|done].
  unfold spotisaver.write_csv. by rewrite Hempty.
Qed.

Lemma export_csv_empty_name_witness :
  is_ok (default (Raise sample.boom)
           (spotisaver.export_csv runtime_a
              (sample.catalog (py "???") sample.pages) 2 ∅
              (py "37i9") (py "/music"))) = true.
Proof.
  rewrite (export_csv_empty_name runtime_a
             (sample.catalog (py "???") sample.pages) 2 ∅
             (py "37i9") (py "/music") (py "???") (concat sample.pages)
             eq_refl eq_refl eq_refl).
  reflexivity.
Defined.

(** An entry without a track makes [export_row] raise, whatever the rest
    of the playlist is; nothing is written. *)
Lemma for_each_raises {A B} (f : A -> result B) (l : list A) (x : A) :
  In x l -> is_ok (f x) = false -> is_ok (for_each f l) = false.
Proof.
  induction l as [|y l IH]; simpl; [tauto|].
  intros [-> | Hin] Hx.
  - by destruct (f x).
  - destruct (f y); simpl; [|done].
    specialize (IH Hin Hx). by destruct (for_each f l).
Qed.

Lemma removed_track_export_fails (rt : PyRuntime) (sp : Spotify) (fuel : nat)
    (files : gmap pystr (list Row)) (pid out : pystr) (tracks : list Item)
    (t : Item) (name : pystr) :
  sp_playlist sp pid = Ok name ->
  get_playlist_tracks sp fuel pid = Some (Ok tracks) ->
  In t tracks -> item_track t = None ->
  exists e, spotisaver.export_csv rt sp fuel files pid out = Some (Raise e).
Proof.
  intros Hname Htracks Hin Hnone. unfold spotisaver.export_csv.
  rewrite Hname, Htracks.
  assert (Hr : is_ok (for_each (spotisaver.export_row rt sp) tracks) = false).
  { apply (for_each_raises _ _ t Hin). unfold spotisaver.export_row.
    by rewrite Hnone. }
  destruct (for_each (spotisaver.export_row rt sp) tracks) as [data|e];
    [discriminate|].
  by exists e.
Qed.

(** C4, on the code. A three-entry playlist whose second entry has lost
    its track: [export_csv] of [spotisaver.py] raises [TypeError] and
    writes no table, while [extract_track_info] of [old py/csvsaver.py]
    returns the empty record for that entry and the one of [spotisave.py]
    a record of empty cells. *)
Theorem export_csv_removed_track_raises :
  spotisaver.export_csv runtime_a
    (sample.catalog (py "Mix") [[sample.entry 65; sample.removed]; [sample.entry 67]])
    2 ∅ (py "37i9") (py "/music")
  = Some (Raise (PyExn TypeError (py "'NoneType' object is not subscriptable")))
  /\ csvsaver.extract_track_info runtime_a
       (sample.catalog (py "Mix") [[sample.entry 65; sample.removed]; [sample.entry 67]])
       sample.removed = Ok []
  /\ forallb (fun kc => cell_empty (snd kc))
       (spotisave.extract_track_info sample.removed) = true.
Proof. split; [by vm_compute|]. split; reflexivity. Qed.

(** ** Per-track download *)

(** Without cover art the muxer's argument list holds [None], so the
    call raises; a job that is not skipped never returns normally. *)
Lemma argv_strings_none (args : list spotisaver.pyval) :
  In spotisaver.VNone args -> spotisaver.argv_strings args = None.
Proof.
  induction args as [|[s|] args IH]; simpl; [tauto | | done].
  intros [Heq | Hin]; [discriminate|]. by rewrite IH.
Qed.

Lemma subprocess_run_none (env : spotisaver.Env) (args : list spotisaver.pyval)
    (w : spotisaver.World) :
  In spotisaver.VNone args ->
  spotisaver.subprocess_run env args w
  = (Raise (PyExn TypeError
              (py "expected str, bytes or os.PathLike object, not NoneType")), w).
Proof.
  intros Hin. unfold spotisaver.subprocess_run.
  by rewrite (argv_strings_none args Hin).
Qed.

Lemma no_cover_job_fails (env : spotisaver.Env) (cfg : spotisaver.Config)
    (row : spotisaver.TrackJob) (w : spotisaver.World) :
  sp_track (spotisaver.sp env) (spotisaver.last_segment (spotisaver.job_uri row))
    = Ok [] ->
  spotisaver.overwrite_var cfg <> py "skip" ->
  is_ok (fst (spotisaver.download_track env cfg row w)) = false.
Proof.
  intros Himg Hover.
  unfold spotisaver.download_track, spotisaver.bind, spotisaver.path_exists.
  unfold spotisaver.pystr_eqb. rewrite bool_decide_eq_false_2 by done.
  cbn [andb]. unfold spotisaver.with_tmpdir.
  match goal with
  | |- context [spotisaver.subprocess_run env ?cmd ?w0] =>
      destruct (spotisaver.subprocess_run env cmd w0) as [[[]|e] w1] eqn:Hrun
  end; [|reflexivity].
  unfold spotisaver.download_spotify_cover, spotisaver.bind, spotisaver.lift.
  rewrite Himg. unfold spotisaver.ret.
  match goal with
  | |- context [spotisaver.subprocess_run env ?args w1] =>
      rewrite (subprocess_run_none env args w1)
  end; [reflexivity|].
  apply in_or_app. left.
  destruct (bool_decide (spotisaver.format_var cfg = py "mp3"));
    [apply in_or_app; left|];
    (apply filter_In; split; [do 5 right; left; reflexivity | reflexivity]).
Qed.

(** C5, on the code. The same job with and without cover art in the
    catalog, the external programs doing their work in both runs: with
    art the job returns and the output file exists; without art it
    raises [TypeError] at the muxer call and no output file exists. *)
Theorem download_track_no_cover_raises :
  fst (spotisaver.download_track (sample.env []) sample.config sample.job
         sample.world)
  = Raise (PyExn TypeError
             (py "expected str, bytes or os.PathLike object, not NoneType"))
  /\ elements (spotisaver.files
       (snd (spotisaver.download_track (sample.env []) sample.config sample.job
               sample.world))) = []
  /\ fst (spotisaver.download_track (sample.env [py "https://i.scdn.co/image/1"])
            sample.config sample.job sample.world) = Ok tt
  /\ elements (spotisaver.files
       (snd (spotisaver.download_track (sample.env [py "https://i.scdn.co/image/1"])
               sample.config sample.job sample.world)))
     = [py "/music/Sade - Smooth Operator.mp3"].
Proof. repeat split; by vm_compute. Qed.

(** ** The download run *)
Section run_facts.
Import spotisaver.

Lemma mem_elem_of j l : mem j l = true <-> j ∈ l.
Proof.
  unfold mem. rewrite existsb_exists. split.
  - intros (k & Hin & Heq). apply Nat.eqb_eq in Heq. subst k.
    by apply list_elem_of_In.
  - intros Hin. exists j. split; [by apply list_elem_of_In | apply Nat.eqb_refl].
Qed.

Lemma mem_false j l : mem j l = false <-> j ∉ l.
Proof.
  rewrite <- mem_elem_of. destruct (mem j l); split; try done.
Qed.

Lemma remove_job_absent j l : j ∉ l -> remove_job j l = l.
Proof.
  unfold remove_job. induction l as [|k l IH]; simpl; [done|].
  rewrite not_elem_of_cons. intros [Hne Hl].
  destruct (Nat.eqb_spec j k) as [? | _]; [done|]. simpl. by rewrite IH.
Qed.

Lemma remove_job_perm j l :
  NoDup l -> j ∈ l -> l ≡ₚ j :: remove_job j l.
Proof.
  induction l as [|k l IH]; intros Hnd Hin.
  - by apply elem_of_nil in Hin.
  - apply NoDup_cons in Hnd as [Hk Hnd].
    change (remove_job j (k :: l))
      with (if negb (Nat.eqb j k) then k :: remove_job j l else remove_job j l).
    destruct (Nat.eqb_spec j k) as [-> | Hne]; simpl.
    + by rewrite remove_job_absent.
    + apply elem_of_cons in Hin as [-> | Hin]; [done|].
      rewrite perm_swap. constructor. by apply IH.
Qed.

Lemma outcome_of_Some j fin :
  j ∈ (fst <$> fin) <-> is_Some (outcome_of j fin).
Proof.
  induction fin as [|[k o] fin IH]; simpl.
  - rewrite elem_of_nil. split; [done | by intros [? ?]].
  - rewrite elem_of_cons. destruct (Nat.eqb_spec j k) as [-> | Hne].
    + split; [by eexists | by left].
    + rewrite IH. split; [by intros [? | ?] | by right].
Qed.

Lemma outcome_of_app j fin more :
  j ∈ (fst <$> fin) -> outcome_of j (fin ++ more) = outcome_of j fin.
Proof.
  induction fin as [|[k o] fin IH]; simpl.
  - by intros ?%elem_of_nil.
  - rewrite elem_of_cons. destruct (Nat.eqb_spec j k) as [-> | Hne]; [done|].
    intros [? | Hin]; [done|]. by apply IH.
Qed.

Lemma error_lines_app_fin fin more js :
  (forall j, j ∈ js -> j ∈ (fst <$> fin)) ->
  error_lines (fin ++ more) js = error_lines fin js.
Proof.
  intros Hjs. unfold error_lines. apply list_omap_ext, Forall_Forall2_diag.
  apply Forall_forall. intros j Hj. by rewrite outcome_of_app by auto.
Qed.

Lemma error_lines_snoc fin js j :
  error_lines fin (js ++ [j])
  = error_lines fin js
    ++ match outcome_of j fin with
       | Some (Raised e) => [py "ERROR: " ++ exn_msg e]
       | _ => []
       end.
Proof.
  unfold error_lines. rewrite omap_app. f_equal. simpl.
  by destruct (outcome_of j fin) as [[|e]|].
Qed.

Lemma init_inv n workers : run_inv (init n workers).
Proof.
  split; simpl; try done.
  - exists (seq 0 n). split; [done|]. by intros rows [= <-].
  - intros H. by destruct (H (seq 0 n)).
  - constructor.
  - by intros [? | ?].
Qed.

Ltac inv_split :=
  split; unfold stop_dl, start_dl;
  cbn [phase_of total max_workers futures work_queue running finished
       collected completed stop_event stop_seen dl_status run_log is_finished];
  try done.

Lemma submit_step_inv s s' : run_inv s -> submit_step s = Some s' -> run_inv s'.
Proof.
  intros [Hrows Hfull Hpool Hcoll Hnd Hcomp Hlog Hseen Hexit Hdr Hns] H.
  unfold submit_step in H.
  destruct (phase_of s) as [[|row rest]| | |] eqn:Hph; try discriminate.
  - injection H as <-. destruct Hrows as (rest & Hrest & Hrows).
    rewrite <- (Hrows [] eq_refl), app_nil_r in Hrest.
    inv_split.
    + exists []. by rewrite app_nil_r.
    + by right.
    + by intros [? | ?].
  - destruct Hrows as (rest' & Hrest & Hrows).
    rewrite <- (Hrows _ eq_refl) in Hrest.
    destruct (stop_event s) eqn:Hstop; injection H as <-.
    + inv_split.
      * exists (row :: rest). split; [done|]. by intros rows [=].
      * by left.
      * by intros [? | ?].
    + inv_split.
      * exists rest. split; [by rewrite <- app_assoc|]. by intros rows [= <-].
      * intros Hno. by destruct (Hno rest).
      * rewrite Hpool. rewrite <- !app_assoc.
        rewrite (Permutation_app_comm [row]).
        by rewrite <- !app_assoc.
      * intros Hs. by destruct (Hseen Hs (row :: rest)).
      * by intros [? | ?].
      * intros rows _. by apply (Hns (row :: rest)).
Qed.

Lemma collect_step_inv j s s' :
  run_inv s -> collect_step j s = Some s' -> run_inv s'.
Proof.
  intros [Hrows Hfull Hpool Hcoll Hnd Hcomp Hlog Hseen Hexit Hdr Hns] H.
  unfold collect_step in H.
  destruct (phase_of s) eqn:Hph; try discriminate.
  destruct (outcome_of j (finished s)) as [o|] eqn:Ho; [|discriminate].
  destruct (mem j (collected s)) eqn:Hmem; [discriminate|].
  apply mem_false in Hmem.
  assert (Hfin : j ∈ (fst <$> finished s)).
  { apply outcome_of_Some. by rewrite Ho. }
  destruct (stop_event s) eqn:Hstop; injection H as <-.
  - inv_split.
    + destruct Hrows as (rest & ? & _). exists rest. split; [done|]. by intros rows [=].
    + by left.
    + by left.
  - inv_split.
    + intros k [Hk | ->%list_elem_of_singleton]%elem_of_app; auto.
    + apply NoDup_app. split; [done|]. split; [|apply NoDup_singleton].
      by intros k Hk ->%list_elem_of_singleton.
    + rewrite length_app. simpl. lia.
    + rewrite error_lines_snoc, Ho, Hlog. destruct o; [|done].
      by rewrite app_nil_r.
    + by intros [? | ?].
Qed.

Lemma end_collect_step_inv s s' :
  run_inv s -> end_collect_step s = Some s' -> run_inv s'.
Proof.
  intros [Hrows Hfull Hpool Hcoll Hnd Hcomp Hlog Hseen Hexit Hdr Hns] H.
  unfold end_collect_step in H.
  destruct (phase_of s) eqn:Hph; try discriminate.
  destruct (forallb _ _) eqn:Hall; [|discriminate].
  injection H as <-. rewrite forallb_forall in Hall.
  inv_split.
  - destruct Hrows as (rest & ? & _). exists rest. split; [done|]. by intros rows [=].
  - intros _. by apply Hfull.
  - intros _. right. intros k Hk. apply mem_elem_of, Hall.
    by apply list_elem_of_In.
Qed.

Lemma shutdown_step_inv s s' :
  run_inv s -> shutdown_step s = Some s' -> run_inv s'.
Proof.
  intros [Hrows Hfull Hpool Hcoll Hnd Hcomp Hlog Hseen Hexit Hdr Hns] H.
  unfold shutdown_step in H.
  destruct (phase_of s) eqn:Hph; try discriminate.
  destruct (work_queue s) eqn:Hq; [|discriminate].
  destruct (running s) eqn:Hr; [|discriminate].
  injection H as <-.
  inv_split.
  - destruct Hrows as (rest & ? & _). exists rest. split; [done|]. by intros rows [=].
  - intros _. by apply Hfull.
  - intros _. apply Hexit. by left.
Qed.

Lemma start_step_inv s s' :
  run_inv s -> start_step s = Some s' -> run_inv s'.
Proof.
  intros [Hrows Hfull Hpool Hcoll Hnd Hcomp Hlog Hseen Hexit Hdr Hns] H.
  unfold start_step in H.
  destruct (work_queue s) as [|j rest] eqn:Hq; [discriminate|].
  destruct (Nat.ltb _ _); [|discriminate].
  injection H as <-.
  inv_split.
  - rewrite Hpool. rewrite <- (app_assoc (running s)). cbn [app].
    by rewrite <- !Permutation_middle.
  - unfold is_finished. cbn [phase_of]. intros Hf. by destruct (Hdr Hf).
Qed.

Lemma futures_NoDup s : run_inv s -> NoDup (futures s).
Proof.
  intros [(rest & Hrest & _) _ _ _ _ _ _ _ _ _ _].
  assert (Hnd : NoDup (futures s ++ rest)) by (rewrite Hrest; apply NoDup_seq).
  by apply NoDup_app in Hnd as [? _].
Qed.

Lemma finish_step_inv j o s s' :
  run_inv s -> finish_step j o s = Some s' -> run_inv s'.
Proof.
  intros Hinv H. pose proof (futures_NoDup s Hinv) as Hfnd.
  destruct Hinv as [Hrows Hfull Hpool Hcoll Hnd Hcomp Hlog Hseen Hexit Hdr Hns].
  unfold finish_step in H.
  destruct (mem j (running s)) eqn:Hmem; [|discriminate].
  apply mem_elem_of in Hmem. injection H as <-.
  rewrite Hpool in Hfnd.
  apply NoDup_app in Hfnd as (_ & _ & Hfnd).
  apply NoDup_app in Hfnd as (Hrnd & _ & _).
  inv_split.
  - rewrite Hpool, fmap_app. apply Permutation_app_head.
    rewrite (app_assoc (remove_job j (running s))).
    change (fst <$> [(j, o)]) with [j].
    rewrite <- Permutation_cons_append.
    by rewrite (remove_job_perm j (running s) Hrnd Hmem) at 1.
  - intros k Hk. rewrite fmap_app. apply elem_of_app. left. by apply Hcoll.
  - by rewrite error_lines_app_fin.
  - unfold is_finished. cbn [phase_of]. intros Hf.
    destruct (Hdr Hf) as [_ Hr]. rewrite Hr in Hmem.
    by apply elem_of_nil in Hmem.
Qed.

Lemma stop_dl_inv s : run_inv s -> run_inv (stop_dl s).
Proof.
  intros [Hrows Hfull Hpool Hcoll Hnd Hcomp Hlog Hseen Hexit Hdr Hns].
  by inv_split.
Qed.

Lemma start_dl_inv s : run_inv s -> run_inv (start_dl s).
Proof.
  intros [Hrows Hfull Hpool Hcoll Hnd Hcomp Hlog Hseen Hexit Hdr Hns].
  by inv_split.
Qed.

Lemma other_run_status_inv st s s' :
  run_inv s -> other_run_status st s = Some s' -> run_inv s'.
Proof.
  intros [Hrows Hfull Hpool Hcoll Hnd Hcomp Hlog Hseen Hexit Hdr Hns] H.
  destruct st; try discriminate; injection H as <-; by inv_split.
Qed.

Lemma step_total e s s' : step e s = Some s' -> total s' = total s.
Proof.
  destruct e; simpl.
  - unfold submit_step. destruct (phase_of s) as [[|? ?]| | |]; try discriminate;
      [|destruct (stop_event s)]; by intros [= <-].
  - unfold collect_step. destruct (phase_of s); try discriminate.
    destruct (outcome_of j (finished s)); [|discriminate].
    destruct (mem j (collected s)); [discriminate|].
    destruct (stop_event s); by intros [= <-].
  - unfold end_collect_step. destruct (phase_of s); try discriminate.
    destruct (forallb _ _); [|discriminate]. by intros [= <-].
  - unfold shutdown_step. destruct (phase_of s); try discriminate.
    destruct (work_queue s); [|discriminate].
    destruct (running s); [|discriminate]. by intros [= <-].
  - unfold start_step. destruct (work_queue s); [discriminate|].
    destruct (Nat.ltb _ _); [|discriminate]. by intros [= <-].
  - unfold finish_step. destruct (mem j (running s)); [|discriminate].
    by intros [= <-].
  - by intros [= <-].
  - by intros [= <-].
  - destruct st; try discriminate; by intros [= <-].
Qed.

Lemma step_inv e s s' : run_inv s -> step e s = Some s' -> run_inv s'.
Proof.
  destruct e; simpl; intros Hinv H.
  - by apply (submit_step_inv s).
  - by apply (collect_step_inv j s).
  - by apply (end_collect_step_inv s).
  - by apply (shutdown_step_inv s).
  - by apply (start_step_inv s).
  - by apply (finish_step_inv j o s).
  - injection H as <-. by apply stop_dl_inv.
  - injection H as <-. by apply start_dl_inv.
  - by apply (other_run_status_inv st s).
Qed.

Lemma exec_inv sched : forall s s',
  run_inv s -> exec sched s = Some s' -> run_inv s'.
Proof.
  induction sched as [|e sched IH]; simpl; intros s s' Hinv H.
  - by injection H as <-.
  - destruct (step e s) as [s1|] eqn:Hstep; [|discriminate].
    apply (IH s1); [|done]. by apply (step_inv e s).
Qed.

Lemma run_dl_inv n workers sched s :
  run_dl n workers sched = Some s -> run_inv s /\ total s = n.
Proof.
  intros H. split.
  - apply (exec_inv sched (init n workers)); [apply init_inv | done].
  - revert H. unfold run_dl.
    assert (Ht : total (init n workers) = n) by done.
    revert Ht. generalize (init n workers). 
    induction sched as [|e sched IH]; simpl; intros s0 Ht H.
    + by injection H as <-.
    + destruct (step e s0) as [s1|] eqn:Hstep; [|discriminate].
      apply (IH s1); [|done]. rewrite <- Ht. by apply (step_total e s0).
Qed.

Lemma exec_app a b : forall s,
  exec (a ++ b) s = match exec a s with Some s1 => exec b s1 | None => None end.
Proof.
  induction a as [|e a IH]; intros s; simpl; [done|].
  destruct (step e s) as [s1|]; [apply IH | done].
Qed.

(** Once the result loop has ended, by exhaustion or by [break], nothing
    is submitted, consumed, counted or logged by [run_dl] any more. *)
Lemma step_after_loop e s s' :
  phase_of s = ShuttingDown \/ is_finished s = true ->
  step e s = Some s' ->
  (phase_of s' = ShuttingDown \/ is_finished s' = true)
  /\ futures s' = futures s /\ collected s' = collected s
  /\ completed s' = completed s /\ run_log s' = run_log s.
Proof.
  intros Hph H. unfold is_finished in Hph.
  destruct e; simpl in H.
  - unfold submit_step in H.
    destruct (phase_of s) eqn:Hp; try discriminate; by destruct Hph.
  - unfold collect_step in H.
    destruct (phase_of s) eqn:Hp; try discriminate; by destruct Hph.
  - unfold end_collect_step in H.
    destruct (phase_of s) eqn:Hp; try discriminate; by destruct Hph.
  - unfold shutdown_step in H. destruct (phase_of s); try discriminate.
    destruct (work_queue s); [|discriminate].
    destruct (running s); [|discriminate]. injection H as <-.
    split; [by right | done].
  - unfold start_step in H. destruct (work_queue s); [discriminate|].
    destruct (Nat.ltb _ _); [|discriminate]. injection H as <-.
    split; [exact Hph | done].
  - unfold finish_step in H. destruct (mem j (running s)); [|discriminate].
    injection H as <-. split; [exact Hph | done].
  - injection H as <-. split; [exact Hph | done].
  - injection H as <-. split; [exact Hph | done].
  - destruct st; try discriminate; injection H as <-; (split; [exact Hph | done]).
Qed.

Lemma exec_after_loop sched : forall s s',
  phase_of s = ShuttingDown \/ is_finished s = true ->
  exec sched s = Some s' ->
  futures s' = futures s /\ collected s' = collected s
  /\ completed s' = completed s /\ run_log s' = run_log s.
Proof.
  induction sched as [|e sched IH]; simpl; intros s s' Hph H.
  - by injection H as <-.
  - destruct (step e s) as [s1|] eqn:Hstep; [|discriminate].
    destruct (step_after_loop e s s1 Hph Hstep) as (Hph1 & Hf & Hc & Hn & Hl).
    destruct (IH s1 s' Hph1 H) as (Hf' & Hc' & Hn' & Hl').
    repeat split; congruence.
Qed.

(** Without a click on Stop the flag stays clear and no loop is left by
    [break]. *)
Lemma step_no_stop e s s' :
  e <> StopClicked -> stop_event s = false -> stop_seen s = false ->
  step e s = Some s' ->
  stop_event s' = false /\ stop_seen s' = false.
Proof.
  intros He Hstop Hseen H. destruct e; simpl in H.
  - unfold submit_step in H.
    destruct (phase_of s) as [[|row rest]| | |]; try discriminate;
      [|rewrite Hstop in H]; by injection H as <-.
  - unfold collect_step in H. destruct (phase_of s); try discriminate.
    destruct (outcome_of j (finished s)); [|discriminate].
    destruct (mem j (collected s)); [discriminate|].
    rewrite Hstop in H. by injection H as <-.
  - unfold end_collect_step in H. destruct (phase_of s); try discriminate.
    destruct (forallb _ _); [|discriminate]. by injection H as <-.
  - unfold shutdown_step in H. destruct (phase_of s); try discriminate.
    destruct (work_queue s); [|discriminate].
    destruct (running s); [|discriminate]. by injection H as <-.
  - unfold start_step in H. destruct (work_queue s); [discriminate|].
    destruct (Nat.ltb _ _); [|discriminate]. by injection H as <-.
  - unfold finish_step in H. destruct (mem j (running s)); [|discriminate].
    by injection H as <-.
  - done.
  - by injection H as <-.
  - destruct st; try discriminate; by injection H as <-.
Qed.

Lemma exec_no_stop sched : forall s s',
  StopClicked ∉ sched -> stop_event s = false -> stop_seen s = false ->
  exec sched s = Some s' ->
  stop_event s' = false /\ stop_seen s' = false.
Proof.
  induction sched as [|e sched IH]; simpl; intros s s' Hno Hstop Hseen H.
  - by injection H as <-.
  - apply not_elem_of_cons in Hno as [He Hno].
    destruct (step e s) as [s1|] eqn:Hstep; [|discriminate].
    destruct (step_no_stop e s s1 (not_eq_sym He) Hstop Hseen Hstep) as [Hstop1 Hseen1].
    by apply (IH s1).
Qed.

(** Only the end of the [with] block ends the run. *)
Lemma step_finishes e s s' :
  step e s = Some s' -> is_finished s = false -> is_finished s' = true ->
  e = MainShutdown.
Proof.
  unfold is_finished. intros H Hs Hs'. destruct e; simpl in H; [| | |done| | | | |].
  - unfold submit_step in H.
    destruct (phase_of s) as [[|row rest]| | |]; try discriminate;
      [|destruct (stop_event s)]; by injection H as <-.
  - unfold collect_step in H. destruct (phase_of s); try discriminate.
    destruct (outcome_of j (finished s)); [|discriminate].
    destruct (mem j (collected s)); [discriminate|].
    destruct (stop_event s); by injection H as <-.
  - unfold end_collect_step in H. destruct (phase_of s); try discriminate.
    destruct (forallb _ _); [|discriminate]. by injection H as <-.
  - unfold start_step in H. destruct (work_queue s); [discriminate|].
    destruct (Nat.ltb _ _); [|discriminate]. injection H as <-.
    cbn [phase_of] in Hs'. congruence.
  - unfold finish_step in H. destruct (mem j (running s)); [|discriminate].
    injection H as <-. cbn [phase_of] in Hs'. congruence.
  - injection H as <-. cbn [phase_of stop_dl] in Hs'. congruence.
  - injection H as <-. cbn [phase_of start_dl] in Hs'. congruence.
  - destruct st; try discriminate; injection H as <-;
      cbn [phase_of] in Hs'; congruence.
Qed.

Lemma exec_shutdown_split sched : forall s0 s,
  exec sched s0 = Some s -> is_finished s0 = false -> is_finished s = true ->
  exists before after s1 s2,
    sched = before ++ MainShutdown :: after
    /\ exec before s0 = Some s1
    /\ shutdown_step s1 = Some s2
    /\ exec after s2 = Some s.
Proof.
  induction sched as [|e sched IH]; simpl; intros s0 s H Hs0 Hs.
  - injection H as <-. congruence.
  - destruct (step e s0) as [s1|] eqn:Hstep; [|discriminate].
    destruct (is_finished s1) eqn:Hs1.
    + pose proof (step_finishes e s0 s1 Hstep Hs0 Hs1) as ->.
      by exists [], sched, s0, s1.
    + destruct (IH s1 s H Hs1 Hs) as (before & after & t1 & t2 & -> & Hb & Hsh & Ha).
      exists (e :: before), after, t1, t2. simpl. by rewrite Hstep.
Qed.

(** *** The outcomes of the jobs do not steer the run *)

Lemma outcome_of_outcomes_as f j fin :
  outcome_of j (outcomes_as f fin) = f j <$> outcome_of j fin.
Proof.
  unfold outcomes_as. induction fin as [|[k o] fin IH]; simpl; [done|].
  destruct (Nat.eqb_spec j k) as [-> | _]; [done | apply IH].
Qed.

Lemma fst_outcomes_as f fin : fst <$> outcomes_as f fin = fst <$> fin.
Proof.
  unfold outcomes_as. rewrite <- list_fmap_compose.
  by apply list_fmap_ext.
Qed.

Lemma relabelled_init f n workers :
  relabelled f (init n workers) = init n workers.
Proof. reflexivity. Qed.

Ltac relabelled_eq :=
  unfold relabelled, stop_dl, start_dl;
  cbn [phase_of total max_workers futures work_queue running finished
       collected completed stop_event stop_seen dl_status run_log];
  try reflexivity.

Lemma step_relabelled f e s s' :
  run_inv s -> step e s = Some s' ->
  step (with_outcomes f e) (relabelled f s) = Some (relabelled f s').
Proof.
  intros Hinv H. destruct e; cbn [with_outcomes step] in *.
  - unfold submit_step in *. cbn [relabelled phase_of stop_event].
    destruct (phase_of s) as [[|row rest]| | |]; try discriminate;
      [|destruct (stop_event s)]; injection H as <-; relabelled_eq.
  - unfold collect_step in *. cbn [relabelled phase_of finished collected stop_event].
    destruct (phase_of s); try discriminate.
    rewrite outcome_of_outcomes_as.
    destruct (outcome_of j (finished s)) as [o|] eqn:Ho; [|discriminate].
    cbn [fmap option_fmap option_map].
    destruct (mem j (collected s)); [discriminate|].
    destruct (stop_event s); injection H as <-; relabelled_eq.
    do 2 f_equal. rewrite error_lines_snoc, outcome_of_outcomes_as, Ho.
    cbn [fmap option_fmap option_map].
    destruct (f j o); [by rewrite app_nil_r | done].
  - unfold end_collect_step in *. cbn [relabelled phase_of collected futures].
    destruct (phase_of s); try discriminate.
    destruct (forallb _ _); [|discriminate]. injection H as <-. relabelled_eq.
  - unfold shutdown_step in *. cbn [relabelled phase_of work_queue running].
    destruct (phase_of s); try discriminate.
    destruct (work_queue s); [|discriminate].
    destruct (running s); [|discriminate]. injection H as <-. relabelled_eq.
  - unfold start_step in *. cbn [relabelled work_queue running max_workers].
    destruct (work_queue s); [discriminate|].
    destruct (Nat.ltb _ _); [|discriminate]. injection H as <-. relabelled_eq.
  - unfold finish_step in *. cbn [relabelled running].
    destruct (mem j (running s)); [|discriminate]. injection H as <-.
    relabelled_eq.
    assert (Hfin : outcomes_as f (finished s ++ [(j, o)])
                   = outcomes_as f (finished s) ++ [(j, f j o)]).
    { unfold outcomes_as. by rewrite fmap_app. }
    rewrite Hfin. do 2 f_equal. f_equal.
    symmetry. apply error_lines_app_fin. intros k Hk.
    rewrite fst_outcomes_as. by apply (inv_collected s Hinv).
  - injection H as <-. relabelled_eq.
  - injection H as <-. relabelled_eq.
  - unfold other_run_status in *.
    destruct st; try discriminate; injection H as <-; relabelled_eq.
Qed.

Lemma exec_relabelled f sched : forall s s',
  run_inv s -> exec sched s = Some s' ->
  exec (with_outcomes f <$> sched) (relabelled f s) = Some (relabelled f s').
Proof.
  induction sched as [|e sched IH]; simpl; intros s s' Hinv H.
  - by injection H as <-.
  - destruct (step e s) as [s1|] eqn:Hstep; [|discriminate].
    rewrite (step_relabelled f e s s1 Hinv Hstep).
    apply IH; [|done]. by apply (step_inv e s).
Qed.

Lemma step_max_workers e s s' :
  step e s = Some s' -> max_workers s' = max_workers s.
Proof.
  destruct e; simpl.
  - unfold submit_step. destruct (phase_of s) as [[|? ?]| | |]; try discriminate;
      [|destruct (stop_event s)]; by intros [= <-].
  - unfold collect_step. destruct (phase_of s); try discriminate.
    destruct (outcome_of j (finished s)); [|discriminate].
    destruct (mem j (collected s)); [discriminate|].
    destruct (stop_event s); by intros [= <-].
  - unfold end_collect_step. destruct (phase_of s); try discriminate.
    destruct (forallb _ _); [|discriminate]. by intros [= <-].
  - unfold shutdown_step. destruct (phase_of s); try discriminate.
    destruct (work_queue s); [|discriminate].
    destruct (running s); [|discriminate]. by intros [= <-].
  - unfold start_step. destruct (work_queue s); [discriminate|].
    destruct (Nat.ltb _ _); [|discriminate]. by intros [= <-].
  - unfold finish_step. destruct (mem j (running s)); [|discriminate].
    by intros [= <-].
  - by intros [= <-].
  - by intros [= <-].
  - destruct st; try discriminate; by intros [= <-].
Qed.

Lemma exec_max_workers sched : forall s s',
  exec sched s = Some s' -> max_workers s' = max_workers s.
Proof.
  induction sched as [|e sched IH]; simpl; intros s s' H.
  - by injection H as <-.
  - destruct (step e s) as [s1|] eqn:Hstep; [|discriminate].
    rewrite (IH s1 s' H). by apply (step_max_workers e).
Qed.

(** The last step of [run_dl]: the status becomes "Done" unless the flag
    is set. *)
Lemma shutdown_step_ends s s' :
  shutdown_step s = Some s' ->
  is_finished s' = true
  /\ dl_status s' = if stop_event s then dl_status s else Done.
Proof.
  unfold shutdown_step. destruct (phase_of s); try discriminate.
  destruct (work_queue s); [|discriminate].
  destruct (running s); [|discriminate]. by intros [= <-].
Qed.

Lemma collected_submitted s j : run_inv s -> j ∈ collected s -> j ∈ futures s.
Proof.
  intros Hinv Hj. rewrite (inv_pool s Hinv), !elem_of_app.
  right. right. by apply (inv_collected s Hinv).
Qed.

Lemma completed_le_futures s :
  run_inv s -> (completed s <= length (futures s) <= total s)%nat.
Proof.
  intros Hinv. split.
  - rewrite (inv_completed s Hinv). apply submseteq_length, NoDup_submseteq.
    + apply (inv_collected_NoDup s Hinv).
    + intros j. by apply collected_submitted.
  - destruct (inv_rows s Hinv) as (rest & Hrest & _).
    apply (f_equal length) in Hrest.
    rewrite length_app, length_seq in Hrest. lia.
Qed.

Lemma finished_all_done s :
  run_inv s -> is_finished s = true ->
  work_queue s = [] /\ running s = [] /\ (fst <$> finished s) ≡ₚ futures s.
Proof.
  intros Hinv Hf. destruct (inv_drained s Hinv Hf) as [Hq Hr].
  split; [done|]. split; [done|].
  by rewrite (inv_pool s Hinv), Hq, Hr.
Qed.

Lemma error_lines_all_failed fin js :
  (forall j, j ∈ js -> exists e, outcome_of j fin = Some (Raised e)) ->
  length (error_lines fin js) = length js.
Proof.
  unfold error_lines. induction js as [|j js IH]; intros H; [done|].
  destruct (H j) as [e He]; [by left|].
  change (omap ?f (j :: js)) with
    (match f j with Some y => y :: omap f js | None => omap f js end).
  cbv beta. rewrite He. simpl. f_equal. apply IH. intros k Hk. apply H. by right.
Qed.

Lemma finished_not_cancelled s :
  run_inv s -> is_finished s = true -> stop_seen s = false ->
  futures s = seq 0 (total s) /\ collected s ≡ₚ futures s.
Proof.
  intros Hinv Hf Hns.
  assert (Hph : forall rows, phase_of s <> Submitting rows).
  { intros rows Hph. unfold is_finished in Hf. by rewrite Hph in Hf. }
  split.
  - destruct (inv_full s Hinv Hph) as [? | ?]; [congruence | done].
  - apply NoDup_Permutation.
    + apply (inv_collected_NoDup s Hinv).
    + by apply futures_NoDup.
    + intros j. split; [by apply collected_submitted|].
      destruct (inv_exit s Hinv (or_intror Hf)) as [? | Hall]; [congruence|].
      apply Hall.
Qed.

End run_facts.

(** C1. The code fails the claim.  Ten rows, two workers, Stop clicked
    after job 0 was counted.  All ten jobs were submitted at once, since
    submitting does not wait for a free worker; when the result loop
    sees the flag and breaks, jobs 2 to 9 are still queued and no job is
    running.  A worker then starts job 2, and the end of the [with]
    block waits until the pool has run all eight: ten jobs ran to
    completion, eight of them started after the signal was observed,
    and the completed count stays at one. *)
Theorem run_dl_cancel_runs_queue :
  exists s1 s2 s3,
    spotisaver.run_dl 10 2 sample.cancel_observed = Some s1
    /\ spotisaver.stop_seen s1 = true
    /\ spotisaver.running s1 = []
    /\ spotisaver.work_queue s1 = [2; 3; 4; 5; 6; 7; 8; 9]%nat
    /\ spotisaver.step spotisaver.WorkerStart s1 = Some s2
    /\ spotisaver.running s2 = [2%nat]
    /\ spotisaver.run_dl 10 2 (sample.cancel_observed ++ sample.drain_queue) = Some s3
    /\ spotisaver.is_finished s3 = true
    /\ fst <$> spotisaver.finished s3 = seq 0 10
    /\ spotisaver.completed s3 = 1%nat.
Proof.
  eexists _, _, _.
  split; [vm_compute; reflexivity|].
  split; [reflexivity|]. split; [reflexivity|]. split; [reflexivity|].
  split; [vm_compute; reflexivity|]. split; [reflexivity|].
  split; [vm_compute; reflexivity|].
  repeat split.
Qed.

(** C2 as stated fails.  Two jobs, both fail; Stop is clicked after the
    first failure was logged: the run ends with both jobs done, one
    counted, one [ERROR] line, and job 1's failure neither counted nor
    logged. *)
Lemma run_dl_summary_counterexample :
  exists s,
    spotisaver.run_dl 2 2 sample.cancelled_failures = Some s
    /\ spotisaver.is_finished s = true
    /\ spotisaver.futures s = [0; 1]%nat
    /\ spotisaver.finished s
       = [(0%nat, spotisaver.Raised sample.boom); (1%nat, spotisaver.Raised sample.boom)]
    /\ spotisaver.completed s = 1%nat
    /\ spotisaver.run_log s
       = [py "Starting downloads with 2 parallel workers";
          py "ERROR: Final output file was not created"].
Proof.
  eexists. split; [vm_compute; reflexivity|]. repeat split.
Qed.

(** C2, amended.  For every schedule of a run:
    - how the jobs end does not steer the run: the same schedule with
      any other outcomes for the jobs (failures for returns, returns for
      failures) is a schedule too, and leads to the same phase, the same
      jobs submitted, queued, running and done, the same results
      consumed, the same count, flag and status; only the recorded
      outcomes differ;
    - [run_dl] logs its opening line and then exactly one [ERROR] line
      for each failed job among the results consumed, in the order they
      were consumed, and the count is the number of results consumed,
      each at most once;
    - when Stop is never clicked and the run has ended, one result per
      row was consumed, so the count equals the total, and if every job
      failed there is one [ERROR] line per row; at the step that ended
      the run the count was the total and the status was set to "Done";
    - once the result loop has ended, by exhaustion or through its stop
      check, nothing more is consumed, counted or logged. *)
Theorem run_dl_failures_isolated (n workers : nat)
    (sched : list spotisaver.event) (s : spotisaver.RunState) :
  spotisaver.run_dl n workers sched = Some s ->
  (forall f : nat -> spotisaver.outcome -> spotisaver.outcome,
     exists s',
       spotisaver.run_dl n workers (spotisaver.with_outcomes f <$> sched) = Some s'
       /\ spotisaver.phase_of s' = spotisaver.phase_of s
       /\ spotisaver.futures s' = spotisaver.futures s
       /\ spotisaver.work_queue s' = spotisaver.work_queue s
       /\ spotisaver.running s' = spotisaver.running s
       /\ spotisaver.finished s'
          = spotisaver.outcomes_as f (spotisaver.finished s)
       /\ spotisaver.collected s' = spotisaver.collected s
       /\ spotisaver.completed s' = spotisaver.completed s
       /\ spotisaver.stop_event s' = spotisaver.stop_event s
       /\ spotisaver.dl_status s' = spotisaver.dl_status s)
  /\ spotisaver.run_log s
     = spotisaver.starting_line workers
       :: spotisaver.error_lines (spotisaver.finished s) (spotisaver.collected s)
  /\ spotisaver.completed s = length (spotisaver.collected s)
  /\ NoDup (spotisaver.collected s)
  /\ (spotisaver.StopClicked ∉ sched -> spotisaver.is_finished s = true ->
      spotisaver.futures s = seq 0 n
      /\ spotisaver.collected s ≡ₚ seq 0 n
      /\ spotisaver.completed s = n
      /\ (forall j, (j < n)%nat ->
            is_Some (spotisaver.outcome_of j (spotisaver.finished s)))
      /\ ((forall j o, spotisaver.outcome_of j (spotisaver.finished s) = Some o ->
             spotisaver.is_returned o = false) ->
          length (spotisaver.run_log s) = S n)
      /\ (exists before after s0,
            sched = before ++ spotisaver.MainShutdown :: after
            /\ spotisaver.run_dl n workers (before ++ [spotisaver.MainShutdown])
               = Some s0
            /\ spotisaver.completed s0 = n
            /\ spotisaver.dl_status s0 = spotisaver.Done))
  /\ (spotisaver.phase_of s = spotisaver.ShuttingDown
      \/ spotisaver.is_finished s = true ->
      forall later s', spotisaver.exec later s = Some s' ->
        spotisaver.collected s' = spotisaver.collected s
        /\ spotisaver.completed s' = spotisaver.completed s
        /\ spotisaver.run_log s' = spotisaver.run_log s).
Proof.
  intros Hrun. destruct (run_dl_inv n workers sched s Hrun) as [Hinv Htot].
  pose proof (exec_max_workers sched _ _ Hrun) as Hw.
  change (spotisaver.max_workers (spotisaver.init n workers)) with workers in Hw.
  split.
  { intros f. exists (spotisaver.relabelled f s). split; [|done].
    exact (exec_relabelled f sched (spotisaver.init n workers) s
             (init_inv n workers) Hrun). }
  split; [rewrite <- Hw; apply (spotisaver.inv_log s Hinv)|].
  split; [apply (spotisaver.inv_completed s Hinv)|].
  split; [apply (spotisaver.inv_collected_NoDup s Hinv)|].
  split.
  - intros Hno Hf.
    destruct (exec_no_stop sched (spotisaver.init n workers) s Hno eq_refl eq_refl Hrun)
      as [_ Hseen].
    destruct (finished_not_cancelled s Hinv Hf Hseen) as [Hfut Hperm].
    rewrite Htot in Hfut. rewrite Hfut in Hperm.
    assert (Hcomp : spotisaver.completed s = n).
    { by rewrite (spotisaver.inv_completed s Hinv), Hperm, length_seq. }
    assert (Hsome : forall j, j ∈ spotisaver.collected s ->
              is_Some (spotisaver.outcome_of j (spotisaver.finished s))).
    { intros j Hj. by apply outcome_of_Some, (spotisaver.inv_collected s Hinv). }
    split; [done|]. split; [done|]. split; [done|]. split; [|split].
    + intros j Hj. apply Hsome. rewrite Hperm. apply elem_of_seq. lia.
    + intros Hfail. rewrite (spotisaver.inv_log s Hinv). cbn [length]. f_equal.
      rewrite error_lines_all_failed;
        [by rewrite <- (spotisaver.inv_completed s Hinv)|].
      intros j Hj. destruct (Hsome j Hj) as [[|e] Ho]; [|by exists e].
      by specialize (Hfail j _ Ho).
    + destruct (exec_shutdown_split sched (spotisaver.init n workers) s Hrun eq_refl Hf)
        as (before & after & s1 & s2 & -> & Hb & Hsh & Ha).
      apply not_elem_of_app in Hno as [Hno _].
      destruct (exec_no_stop before (spotisaver.init n workers) s1 Hno eq_refl eq_refl Hb)
        as [Hstop1 _].
      destruct (shutdown_step_ends s1 s2 Hsh) as [Hf2 Hst].
      rewrite Hstop1 in Hst.
      destruct (exec_after_loop after s2 s (or_intror Hf2) Ha) as (_ & _ & Hc & _).
      exists before, after, s2. split; [done|]. split.
      * unfold spotisaver.run_dl. rewrite exec_app, Hb.
        cbn [spotisaver.exec spotisaver.step]. by rewrite Hsh.
      * split; [congruence | done].
  - intros Hph later s' Hexec.
    destruct (exec_after_loop later s s' Hph Hexec) as (_ & Hc & Hn & Hl).
    done.
Qed.

Lemma run_dl_failures_isolated_witness :
  exists s,
    spotisaver.run_dl 2 1 sample.all_failures = Some s
    /\ spotisaver.completed s = 2%nat
    /\ length (spotisaver.run_log s) = 3%nat.
Proof.
  eexists. split; [vm_compute; reflexivity|].
  match goal with
  | |- context [spotisaver.completed ?s] =>
      destruct (run_dl_failures_isolated 2 1 sample.all_failures s)
        as (_ & _ & _ & _ & Hend & _); [vm_compute; reflexivity|]
  end.
  destruct Hend as (_ & _ & Hc & _ & Hlog & _).
  - unfold sample.all_failures. intros Hin.
    repeat (apply elem_of_cons in Hin as [Hin | Hin]; [discriminate|]).
    by apply elem_of_nil in Hin.
  - reflexivity.
  - split; [exact Hc|]. apply Hlog.
    intros j o. destruct j as [|[|j]]; vm_compute; intros [= <-]; reflexivity.
Defined.

(** [run_dl] ends by touching [self.start_btn], which [build_downloader]
    never assigns. *)
Remark restore_buttons_raises :
  spotisaver.restore_buttons
  = Raise (PyExn AttributeError
             (py "'SpotiSaverApp' object has no attribute 'start_btn'")).
Proof. reflexivity. Qed.

(** ** The download run: scheduling *)
Section run_scheduling.
Import spotisaver.

Lemma remove_job_length j l : (length (remove_job j l) <= length l)%nat.
Proof. unfold remove_job. apply List.filter_length_le. Qed.

Lemma step_running_bound e s s' :
  (length (running s) <= max_workers s)%nat ->
  step e s = Some s' ->
  (length (running s') <= max_workers s')%nat.
Proof.
  intros Hle. destruct e; simpl.
  - unfold submit_step. destruct (phase_of s) as [[|? ?]| | |]; try discriminate;
      [|destruct (stop_event s)]; by intros [= <-].
  - unfold collect_step. destruct (phase_of s); try discriminate.
    destruct (outcome_of j (finished s)); [|discriminate].
    destruct (mem j (collected s)); [discriminate|].
    destruct (stop_event s); by intros [= <-].
  - unfold end_collect_step. destruct (phase_of s); try discriminate.
    destruct (forallb _ _); [|discriminate]. by intros [= <-].
  - unfold shutdown_step. destruct (phase_of s); try discriminate.
    destruct (work_queue s); [|discriminate].
    destruct (running s); [|discriminate]. intros [= <-]. simpl. lia.
  - unfold start_step. destruct (work_queue s); [discriminate|].
    destruct (Nat.ltb_spec (length (running s)) (max_workers s)); [|discriminate].
    intros [= <-]. simpl. rewrite length_app. simpl. lia.
  - unfold finish_step. destruct (mem j (running s)); [|discriminate].
    intros [= <-]. simpl. pose proof (remove_job_length j (running s)). lia.
  - by intros [= <-].
  - by intros [= <-].
  - destruct st; try discriminate; by intros [= <-].
Qed.

Lemma exec_running_bound sched : forall s s',
  (length (running s) <= max_workers s)%nat ->
  exec sched s = Some s' ->
  (length (running s') <= max_workers s')%nat /\ max_workers s' = max_workers s.
Proof.
  induction sched as [|e sched IH]; simpl; intros s s' Hle H.
  - by injection H as <-.
  - destruct (step e s) as [s1|] eqn:Hstep; [|discriminate].
    destruct (IH s1 s' (step_running_bound e s s1 Hle Hstep) H) as [? Hw].
    split; [done|]. rewrite Hw. by apply (step_max_workers e).
Qed.

End run_scheduling.

(** X1. Bounded concurrency: in every state a run can reach, the number
    of jobs being executed is at most the pool size the run was started
    with. *)
Theorem run_dl_bounded_workers (n workers : nat)
    (sched : list spotisaver.event) (s : spotisaver.RunState) :
  spotisaver.run_dl n workers sched = Some s ->
  (length (spotisaver.running s) <= workers)%nat.
Proof.
  intros Hrun.
  destruct (exec_running_bound sched (spotisaver.init n workers) s) as [Hle Hw];
    [simpl; lia | done |].
  by rewrite Hw in Hle.
Qed.

Lemma run_dl_bounded_workers_witness :
  exists s,
    spotisaver.run_dl 10 2 (take 13 sample.cancel_observed) = Some s
    /\ (length (spotisaver.running s) <= 2)%nat.
Proof.
  eexists. split; [vm_compute; reflexivity|].
  apply (run_dl_bounded_workers 10 2 (take 13 sample.cancel_observed)).
  vm_compute. reflexivity.
Defined.

Section run_order.
Import spotisaver.

(** The jobs started so far are a prefix of the jobs submitted. *)
Lemma step_started_prefix e s s' :
  run_inv s ->
  (exists started, futures s = started ++ work_queue s
                   /\ started ≡ₚ running s ++ (fst <$> finished s)) ->
  step e s = Some s' ->
  exists started, futures s' = started ++ work_queue s'
                  /\ started ≡ₚ running s' ++ (fst <$> finished s').
Proof.
  intros Hinv (started & Hfut & Hperm) H.
  destruct e; simpl in H.
  - unfold submit_step in H.
    destruct (phase_of s) as [[|row rest]| | |]; try discriminate;
      [|destruct (stop_event s)]; injection H as <-; simpl;
      try (by exists started).
    exists started. split; [|done]. by rewrite Hfut, <- app_assoc.
  - unfold collect_step in H. destruct (phase_of s); try discriminate.
    destruct (outcome_of j (finished s)); [|discriminate].
    destruct (mem j (collected s)); [discriminate|].
    destruct (stop_event s); injection H as <-; by exists started.
  - unfold end_collect_step in H. destruct (phase_of s); try discriminate.
    destruct (forallb _ _); [|discriminate]. injection H as <-. by exists started.
  - unfold shutdown_step in H. destruct (phase_of s); try discriminate.
    destruct (work_queue s) eqn:Hq; [|discriminate].
    destruct (running s) eqn:Hr; [|discriminate]. injection H as <-. simpl.
    by exists started.
  - unfold start_step in H. destruct (work_queue s) as [|j rest] eqn:Hq; [discriminate|].
    destruct (Nat.ltb _ _); [|discriminate]. injection H as <-. simpl.
    exists (started ++ [j]). split; [by rewrite Hfut, <- app_assoc|].
    rewrite Hperm, <- !app_assoc. apply Permutation_app_head.
    apply Permutation_app_comm.
  - unfold finish_step in H. destruct (mem j (running s)) eqn:Hmem; [|discriminate].
    apply mem_elem_of in Hmem. injection H as <-. simpl.
    exists started. split; [done|]. rewrite Hperm, fmap_app.
    change (fst <$> [(j, o)]) with [j].
    pose proof (futures_NoDup s Hinv) as Hnd.
    rewrite (inv_pool s Hinv) in Hnd.
    apply NoDup_app in Hnd as (_ & _ & Hnd).
    apply NoDup_app in Hnd as (Hrnd & _ & _).
    rewrite (remove_job_perm j (running s) Hrnd Hmem) at 1.
    rewrite (app_assoc (remove_job j (running s))).
    by rewrite <- Permutation_cons_append.
  - injection H as <-. by exists started.
  - injection H as <-. by exists started.
  - destruct st; try discriminate; injection H as <-; by exists started.
Qed.

Lemma exec_started_prefix sched : forall s s',
  run_inv s ->
  (exists started, futures s = started ++ work_queue s
                   /\ started ≡ₚ running s ++ (fst <$> finished s)) ->
  exec sched s = Some s' ->
  exists started, futures s' = started ++ work_queue s'
                  /\ started ≡ₚ running s' ++ (fst <$> finished s').
Proof.
  induction sched as [|e sched IH]; simpl; intros s s' Hinv Hst H.
  - by injection H as <-.
  - destruct (step e s) as [s1|] eqn:Hstep; [|discriminate].
    apply (IH s1 s'); [by apply (step_inv e s) | | done].
    by apply (step_started_prefix e s).
Qed.

Lemma seq_app_inv (l1 l2 : list nat) a k :
  l1 ++ l2 = seq a k ->
  l1 = seq a (length l1) /\ l2 = seq (a + length l1) (k - length l1).
Proof.
  intros H.
  assert (Hlen : (length l1 + length l2 = k)%nat).
  { apply (f_equal length) in H. by rewrite length_app, length_seq in H. }
  replace k with (length l1 + (k - length l1))%nat in H by lia.
  rewrite seq_app in H.
  apply app_inj_1 in H; [done|]. by rewrite length_seq.
Qed.

(** The result of the last event of a finished run. *)
Lemma step_finished_result e s s' :
  (forall r, phase_of s = Finished r -> r = restore_buttons) ->
  step e s = Some s' ->
  forall r, phase_of s' = Finished r -> r = restore_buttons.
Proof.
  intros Hr H. destruct e; simpl in H.
  - unfold submit_step in H.
    destruct (phase_of s) as [[|row rest]| | |]; try discriminate;
      [|destruct (stop_event s)]; injection H as <-; simpl; by intros r [=].
  - unfold collect_step in H. destruct (phase_of s); try discriminate.
    destruct (outcome_of j (finished s)); [|discriminate].
    destruct (mem j (collected s)); [discriminate|].
    destruct (stop_event s); injection H as <-; simpl; by intros r [=].
  - unfold end_collect_step in H. destruct (phase_of s); try discriminate.
    destruct (forallb _ _); [|discriminate]. injection H as <-. simpl. by intros r [=].
  - unfold shutdown_step in H. destruct (phase_of s); try discriminate.
    destruct (work_queue s); [|discriminate].
    destruct (running s); [|discriminate]. injection H as <-. simpl.
    by intros r [= <-].
  - unfold start_step in H. destruct (work_queue s); [discriminate|].
    destruct (Nat.ltb _ _); [|discriminate]. by injection H as <-.
  - unfold finish_step in H. destruct (mem j (running s)); [|discriminate].
    by injection H as <-.
  - by injection H as <-.
  - by injection H as <-.
  - destruct st; try discriminate; by injection H as <-.
Qed.

Lemma exec_finished_result sched : forall s s',
  (forall r, phase_of s = Finished r -> r = restore_buttons) ->
  exec sched s = Some s' ->
  forall r, phase_of s' = Finished r -> r = restore_buttons.
Proof.
  induction sched as [|e sched IH]; simpl; intros s s' Hr H.
  - by injection H as <-.
  - destruct (step e s) as [s1|] eqn:Hstep; [|discriminate].
    apply (IH s1 s'); [|done]. by apply (step_finished_result e s).
Qed.

End run_order.

(** X2. Jobs start in row order: in every state a run can reach, the
    jobs that have started (running or done) are exactly the first [a]
    rows for some [a], and the queue holds the rows submitted after
    them, in order. *)
Theorem run_dl_starts_in_order (n workers : nat)
    (sched : list spotisaver.event) (s : spotisaver.RunState) :
  spotisaver.run_dl n workers sched = Some s ->
  exists a,
    (a <= length (spotisaver.futures s))%nat
    /\ spotisaver.running s ++ (fst <$> spotisaver.finished s) ≡ₚ seq 0 a
    /\ spotisaver.work_queue s = seq a (length (spotisaver.futures s) - a).
Proof.
  intros Hrun. destruct (run_dl_inv n workers sched s Hrun) as [Hinv _].
  destruct (exec_started_prefix sched (spotisaver.init n workers) s)
    as (started & Hfut & Hperm); [apply init_inv | by exists [] | done |].
  destruct (spotisaver.inv_rows s Hinv) as (rest & Hrest & _).
  rewrite Hfut, <- app_assoc in Hrest.
  destruct (seq_app_inv _ _ _ _ Hrest) as [Hst Hqr].
  destruct (seq_app_inv _ _ _ _ Hqr) as [Hq _].
  exists (length started). split.
  - rewrite Hfut, length_app. lia.
  - split; [by rewrite <- Hperm, <- Hst|].
    rewrite Hfut, length_app.
    by replace (length started + length (spotisaver.work_queue s) - length started)%nat
      with (length (spotisaver.work_queue s)) by lia.
Qed.

Lemma run_dl_starts_in_order_witness :
  exists s a,
    spotisaver.run_dl 10 2 sample.cancel_observed = Some s
    /\ spotisaver.running s ++ (fst <$> spotisaver.finished s) ≡ₚ seq 0 a
    /\ spotisaver.work_queue s = seq a (length (spotisaver.futures s) - a).
Proof.
  assert (Hrun : exists s, spotisaver.run_dl 10 2 sample.cancel_observed = Some s)
    by (eexists; vm_compute; reflexivity).
  destruct Hrun as [s Hrun].
  destruct (run_dl_starts_in_order 10 2 sample.cancel_observed s Hrun)
    as (a & _ & Hp & Hq).
  exists s, a. split; [exact Hrun|]. split; [exact Hp | exact Hq].
Defined.

(** X3. Every run that reaches the end of [run_dl] ends by raising
    [AttributeError]: the statement after the [with] block reads
    [self.start_btn], an attribute the class never assigns. *)
Theorem run_dl_ends_raising (n workers : nat)
    (sched : list spotisaver.event) (s : spotisaver.RunState) :
  spotisaver.run_dl n workers sched = Some s ->
  spotisaver.is_finished s = true ->
  spotisaver.phase_of s
  = spotisaver.Finished
      (Raise (PyExn AttributeError
                (py "'SpotiSaverApp' object has no attribute 'start_btn'"))).
Proof.
  intros Hrun Hf.
  pose proof (exec_finished_result sched (spotisaver.init n workers) s) as Hr.
  unfold spotisaver.is_finished in Hf.
  destruct (spotisaver.phase_of s) as [| | |r] eqn:Hph; try discriminate.
  rewrite (Hr ltac:(by intros r' [=]) Hrun r eq_refl). reflexivity.
Qed.

Lemma run_dl_ends_raising_witness :
  exists s,
    spotisaver.run_dl 2 1 sample.all_failures = Some s
    /\ spotisaver.phase_of s
       = spotisaver.Finished
           (Raise (PyExn AttributeError
                     (py "'SpotiSaverApp' object has no attribute 'start_btn'"))).
Proof.
  eexists. split; [vm_compute; reflexivity|].
  apply (run_dl_ends_raising 2 1 sample.all_failures); vm_compute; reflexivity.
Defined.

Section run_progress.
Import spotisaver.

Lemma forallb_mem_all (l c : list nat) :
  (forall j, j ∈ l -> j ∈ c) -> forallb (fun j => mem j c) l = true.
Proof.
  intros H. apply forallb_forall. intros j Hj.
  apply mem_elem_of, H. by apply list_elem_of_In.
Qed.

(** Either every finished future has been consumed, or one has not. *)
Lemma uncollected_dec (fin : list (nat * outcome)) (c : list nat) :
  (forall j, j ∈ (fst <$> fin) -> j ∈ c)
  \/ exists j, j ∈ (fst <$> fin) /\ j ∉ c.
Proof.
  induction (fst <$> fin) as [|j l IH].
  - left. by intros j ?%elem_of_nil.
  - destruct (decide (j ∈ c)) as [Hj | Hj].
    + destruct IH as [IH | (k & Hk & Hkc)].
      * left. intros k [-> | Hk]%elem_of_cons; auto.
      * right. exists k. split; [by right | done].
    + right. exists j. split; [by left | done].
Qed.

(** While jobs are queued or running, a worker can act. *)
Lemma worker_can_act s :
  (1 <= max_workers s)%nat ->
  work_queue s <> [] \/ running s <> [] ->
  exists e s', is_click e = false /\ step e s = Some s'.
Proof.
  intros Hw Hbusy.
  destruct (running s) as [|j r] eqn:Hr.
  - destruct (work_queue s) as [|j q] eqn:Hq; [by destruct Hbusy|].
    exists WorkerStart. simpl. unfold start_step. rewrite Hq, Hr. simpl.
    destruct (Nat.ltb_spec 0 (max_workers s)); [|lia]. by eexists.
  - exists (WorkerFinish j Returned). simpl. unfold finish_step. rewrite Hr.
    simpl. rewrite Nat.eqb_refl. simpl. by eexists.
Qed.

Lemma step_can_act s :
  run_inv s -> (1 <= max_workers s)%nat -> is_finished s = false ->
  exists e s', is_click e = false /\ step e s = Some s'.
Proof.
  intros Hinv Hw Hf.
  destruct (phase_of s) as [rows| | |r] eqn:Hph.
  - exists MainSubmit. simpl. unfold submit_step. rewrite Hph.
    destruct rows as [|row rest]; [by eexists|].
    destruct (stop_event s); by eexists.
  - destruct (uncollected_dec (finished s) (collected s)) as [Hall | (j & Hj & Hjc)].
    + destruct (work_queue s) as [|q0 q] eqn:Hq.
      * destruct (running s) as [|r0 r] eqn:Hr.
        -- exists MainEndCollect. simpl. unfold end_collect_step. rewrite Hph.
           rewrite forallb_mem_all; [by eexists|].
           intros j Hj. apply Hall. rewrite (inv_pool s Hinv), Hq, Hr in Hj.
           done.
        -- apply worker_can_act; [done|]. right. by rewrite Hr.
      * apply worker_can_act; [done|]. left. by rewrite Hq.
    + exists (MainCollect j). simpl. unfold collect_step. rewrite Hph.
      apply outcome_of_Some in Hj as [o Ho]. rewrite Ho.
      apply mem_false in Hjc. rewrite Hjc.
      destruct (stop_event s); by eexists.
  - destruct (work_queue s) as [|q0 q] eqn:Hq.
    + destruct (running s) as [|r0 r] eqn:Hr.
      * exists MainShutdown. simpl. unfold shutdown_step. rewrite Hph, Hq, Hr.
        by eexists.
      * apply worker_can_act; [done|]. right. by rewrite Hr.
    + apply worker_can_act; [done|]. left. by rewrite Hq.
  - unfold is_finished in Hf. by rewrite Hph in Hf.
Qed.

(** Every event of the run's own threads uses up one of [steps_left]. *)
Lemma step_steps_left e s s' :
  run_inv s -> is_click e = false -> step e s = Some s' ->
  (S (steps_left s') <= steps_left s)%nat.
Proof.
  intros Hinv He H.
  assert (Hc : (length (collected s) <= length (finished s))%nat).
  { rewrite <- (length_fmap fst (finished s)).
    apply submseteq_length, NoDup_submseteq;
      [apply (inv_collected_NoDup s Hinv) | apply (inv_collected s Hinv)]. }
  pose proof (step_inv e s s' Hinv H) as Hinv'.
  assert (Hc' : (length (collected s') <= length (finished s'))%nat).
  { rewrite <- (length_fmap fst (finished s')).
    apply submseteq_length, NoDup_submseteq;
      [apply (inv_collected_NoDup s' Hinv') | apply (inv_collected s' Hinv')]. }
  clear Hinv Hinv'. unfold steps_left in *.
  destruct e; simpl in H; try discriminate.
  - unfold submit_step in H.
    destruct (phase_of s) as [[|row rest]| | |]; try discriminate;
      [|destruct (stop_event s)]; injection H as <-; simpl in *;
      rewrite ?length_app; simpl; lia.
  - unfold collect_step in H. destruct (phase_of s); try discriminate.
    destruct (outcome_of j (finished s)); [|discriminate].
    destruct (mem j (collected s)); [discriminate|].
    destruct (stop_event s); injection H as <-; simpl in *;
      rewrite ?length_app in *; simpl in *; lia.
  - unfold end_collect_step in H. destruct (phase_of s); try discriminate.
    destruct (forallb _ _); [|discriminate]. injection H as <-. simpl. lia.
  - unfold shutdown_step in H. destruct (phase_of s); try discriminate.
    destruct (work_queue s); [|discriminate].
    destruct (running s); [|discriminate]. injection H as <-. simpl. lia.
  - unfold start_step in H. destruct (work_queue s); [discriminate|].
    destruct (Nat.ltb _ _); [|discriminate]. injection H as <-. simpl.
    rewrite length_app. simpl. lia.
  - unfold finish_step in H. destruct (mem j (running s)) eqn:Hmem; [|discriminate].
    injection H as <-. simpl in *. rewrite length_app in *. simpl in *.
    assert (Hlt : (length (remove_job j (running s)) < length (running s))%nat).
    { unfold remove_job. apply mem_elem_of, list_elem_of_In in Hmem.
      clear -Hmem. induction (running s) as [|k l IH]; [done|]. simpl.
      destruct (Nat.eqb_spec j k) as [-> | Hne]; simpl.
      - pose proof (List.filter_length_le (fun k0 => negb (Nat.eqb k k0)) l). lia.
      - destruct Hmem as [? | Hin]; [congruence|]. specialize (IH Hin). lia. }
    lia.
Qed.

Lemma exec_steps_left sched : forall s s',
  run_inv s -> exec sched s = Some s' ->
  (length (List.filter (fun e => negb (is_click e)) sched) + steps_left s'
   <= steps_left s)%nat.
Proof.
  induction sched as [|e sched IH]; simpl; intros s s' Hinv H.
  - injection H as <-. lia.
  - destruct (step e s) as [s1|] eqn:Hstep; [|discriminate].
    specialize (IH s1 s' (step_inv e s s1 Hinv Hstep) H).
    destruct (is_click e) eqn:He; simpl.
    + destruct e; try discriminate.
      * injection Hstep as <-. unfold steps_left in *. simpl in *. lia.
      * injection Hstep as <-. unfold steps_left in *. simpl in *. lia.
      * simpl in Hstep. destruct st; try discriminate; injection Hstep as <-;
          unfold steps_left in *; simpl in *; lia.
    + pose proof (step_steps_left e s s1 Hinv He Hstep). lia.
Qed.

End run_progress.

(** X4. No deadlock: with a pool of at least one worker, in every state
    a run can reach before its end, some thread of the run (the run
    thread or a worker) can take a step, whatever was clicked and
    whatever another run did. *)
Theorem run_dl_can_proceed (n workers : nat)
    (sched : list spotisaver.event) (s : spotisaver.RunState) :
  (1 <= workers)%nat ->
  spotisaver.run_dl n workers sched = Some s ->
  spotisaver.is_finished s = false ->
  exists e s', spotisaver.is_click e = false /\ spotisaver.step e s = Some s'.
Proof.
  intros Hw Hrun Hf. destruct (run_dl_inv n workers sched s Hrun) as [Hinv _].
  apply step_can_act; [done | | done].
  destruct (exec_running_bound sched (spotisaver.init n workers) s) as [_ Hmw];
    [simpl; lia | done |].
  by rewrite Hmw.
Qed.

Lemma run_dl_can_proceed_witness :
  exists s e s',
    spotisaver.run_dl 10 2 sample.cancel_observed = Some s
    /\ spotisaver.is_click e = false /\ spotisaver.step e s = Some s'.
Proof.
  assert (Hrun : exists s, spotisaver.run_dl 10 2 sample.cancel_observed = Some s)
    by (eexists; vm_compute; reflexivity).
  destruct Hrun as [s Hrun].
  destruct (run_dl_can_proceed 10 2 sample.cancel_observed s) as (e & s' & He & Hs).
  - lia.
  - exact Hrun.
  - vm_compute in Hrun. injection Hrun as <-. reflexivity.
  - exists s, e, s'. split; [exact Hrun|]. split; [exact He | exact Hs].
Defined.

(** X5. Termination: a run over [n] rows takes at most [4 n + 3] events
    of its own threads (clicks on Stop or Start and events of other
    runs not counted), whatever the schedule and the job outcomes. *)
Theorem run_dl_step_bound (n workers : nat)
    (sched : list spotisaver.event) (s : spotisaver.RunState) :
  spotisaver.run_dl n workers sched = Some s ->
  (length (List.filter (fun e => negb (spotisaver.is_click e)) sched)
     + spotisaver.steps_left s <= 4 * n + 3)%nat.
Proof.
  intros Hrun.
  pose proof (exec_steps_left sched (spotisaver.init n workers) s
                (init_inv n workers) Hrun) as H.
  unfold spotisaver.steps_left in H at 2. simpl in H.
  rewrite length_seq in H. lia.
Qed.

Lemma run_dl_step_bound_witness :
  exists s,
    spotisaver.run_dl 2 1 sample.all_failures = Some s
    /\ (length (List.filter (fun e => negb (spotisaver.is_click e))
                  sample.all_failures)
        + spotisaver.steps_left s <= 4 * 2 + 3)%nat.
Proof.
  eexists. split; [vm_compute; reflexivity|].
  apply (run_dl_step_bound 2 1 sample.all_failures). vm_compute. reflexivity.
Defined.

(** ** Per-track download: skip, scratch directory, verification *)
Section download_facts.
Import spotisaver.

Variables (env : Env) (cfg : Config) (row : TrackJob).

Lemma bind_Ok_inv {A B} (m : M A) (k : A -> M B) w b w' :
  bind m k w = (Ok b, w') ->
  exists a w1, m w = (Ok a, w1) /\ k a w1 = (Ok b, w').
Proof.
  unfold bind. destruct (m w) as [[a|e] w1]; [|discriminate].
  intros H. by exists a, w1.
Qed.

Lemma with_tmpdir_files {A} (body : pystr -> M A) w p :
  p ∈ files (snd (with_tmpdir env body w)) ->
  p <> mkdtemp env w /\ ~ under (mkdtemp env w) p.
Proof.
  unfold with_tmpdir.
  destruct (body (mkdtemp env w) _) as [r w1]. simpl.
  rewrite elem_of_filter. tauto.
Qed.

Lemma with_tmpdir_Ok_inv {A} (body : pystr -> M A) w a w' :
  with_tmpdir env body w = (Ok a, w') ->
  exists w1,
    body (mkdtemp env w) {| files := {[mkdtemp env w]} ∪ files w; log := log w |}
    = (Ok a, w1)
    /\ files w' = filter (fun p => p <> mkdtemp env w /\ ~ under (mkdtemp env w) p)
                         (files w1)
    /\ log w' = log w1.
Proof.
  unfold with_tmpdir.
  destruct (body (mkdtemp env w) _) as [r w1]. intros [= -> <-].
  by exists w1.
Qed.

Lemma download_track_skip_eq w :
  skipped cfg row w = true ->
  download_track env cfg row w
  = (Ok tt, {| files := files w;
               log := log w ++ [py "Skipped (exists): " ++ output_name cfg row] |}).
Proof.
  unfold skipped, output_path, output_name, download_track, bind, path_exists.
  intros ->. reflexivity.
Qed.

Lemma download_track_run_eq w :
  skipped cfg row w = false ->
  exists body, download_track env cfg row w = with_tmpdir env body w
    /\ forall tmp w0 w1, body tmp w0 = (Ok tt, w1) -> output_path cfg row ∈ files w1.
Proof.
  unfold skipped, output_path, output_name, download_track, bind at 1, path_exists.
  intros ->. eexists. split; [reflexivity|].
  intros tmp w0 w1 H.
  apply bind_Ok_inv in H as (? & w2 & _ & H).
  apply bind_Ok_inv in H as (cover & w3 & _ & H).
  apply bind_Ok_inv in H as (? & w4 & _ & H).
  apply bind_Ok_inv in H as (? & w5 & _ & H).
  apply bind_Ok_inv in H as (made & w6 & Hmade & H).
  unfold path_exists in Hmade. injection Hmade as <- <-.
  case_bool_decide as Hin; [|discriminate].
  unfold ret in H. by injection H as <-.
Qed.

End download_facts.

(** X6. Skip policy: when the policy is "skip" and the output file
    exists, the job returns at once, whatever the external programs and
    the catalog would do: no file is created or removed and the only
    trace is one "Skipped (exists)" log line. *)
Theorem download_track_skip (env : spotisaver.Env) (cfg : spotisaver.Config)
    (row : spotisaver.TrackJob) (w : spotisaver.World) :
  spotisaver.overwrite_var cfg = py "skip" ->
  spotisaver.output_path cfg row ∈ spotisaver.files w ->
  spotisaver.download_track env cfg row w
  = (Ok tt,
     {| spotisaver.files := spotisaver.files w;
        spotisaver.log := spotisaver.log w
          ++ [py "Skipped (exists): " ++ spotisaver.output_name cfg row] |}).
Proof.
  intros Hskip Hin. apply download_track_skip_eq.
  unfold spotisaver.skipped, spotisaver.pystr_eqb.
  by rewrite !bool_decide_eq_true_2.
Qed.

(** X7. Verification gate: a job that returns normally leaves its output
    file in place (the scratch directory being elsewhere), whatever the
    external programs did. *)
Theorem download_track_ok_output (env : spotisaver.Env) (cfg : spotisaver.Config)
    (row : spotisaver.TrackJob) (w w' : spotisaver.World) :
  spotisaver.download_track env cfg row w = (Ok tt, w') ->
  spotisaver.output_path cfg row <> spotisaver.mkdtemp env w ->
  ~ spotisaver.under (spotisaver.mkdtemp env w) (spotisaver.output_path cfg row) ->
  spotisaver.output_path cfg row ∈ spotisaver.files w'.
Proof.
  intros H Hne Hnu.
  destruct (spotisaver.skipped cfg row w) eqn:Hsk.
  - rewrite (download_track_skip_eq env cfg row w Hsk) in H.
    injection H as <-. simpl. unfold spotisaver.skipped in Hsk.
    apply andb_true_iff in Hsk as [_ Hin]. by apply bool_decide_eq_true in Hin.
  - destruct (download_track_run_eq env cfg row w Hsk) as (body & Heq & Hbody).
    rewrite Heq in H.
    apply with_tmpdir_Ok_inv in H as (w1 & Hb & Hfiles & _).
    rewrite Hfiles. apply elem_of_filter. split; [done|].
    by apply (Hbody _ _ _ Hb).
Qed.

(** X8. Scratch directory: after a job that was not skipped, whether it
    returned or raised, neither the scratch directory nor anything below
    it exists. *)
Theorem download_track_cleans_up (env : spotisaver.Env) (cfg : spotisaver.Config)
    (row : spotisaver.TrackJob) (w : spotisaver.World) (p : pystr) :
  spotisaver.skipped cfg row w = false ->
  p ∈ spotisaver.files (snd (spotisaver.download_track env cfg row w)) ->
  p <> spotisaver.mkdtemp env w /\ ~ spotisaver.under (spotisaver.mkdtemp env w) p.
Proof.
  intros Hsk Hp.
  destruct (download_track_run_eq env cfg row w Hsk) as (body & Heq & _).
  rewrite Heq in Hp. by apply (with_tmpdir_files env body w p).
Qed.

Lemma download_track_skip_witness :
  spotisaver.download_track (sample.env []) sample.config sample.job
    sample.world_with_output
  = (Ok tt,
     {| spotisaver.files := {[py "/music/Sade - Smooth Operator.mp3"]};
        spotisaver.log := [py "Skipped (exists): Sade - Smooth Operator.mp3"] |}).
Proof.
  apply (download_track_skip (sample.env []) sample.config sample.job
           sample.world_with_output).
  - reflexivity.
  - apply (bool_decide_unpack _). vm_compute. exact I.
Defined.

Lemma download_track_ok_output_witness :
  py "/music/Sade - Smooth Operator.mp3"
  ∈ spotisaver.files
      (snd (spotisaver.download_track (sample.env [py "https://i.scdn.co/image/1"])
              sample.config sample.job sample.world)).
Proof.
  apply (download_track_ok_output (sample.env [py "https://i.scdn.co/image/1"])
           sample.config sample.job sample.world).
  - vm_compute. reflexivity.
  - intros Heq. vm_compute in Heq. discriminate Heq.
  - apply (bool_decide_eq_false_1 _). vm_compute. reflexivity.
Defined.

Lemma download_track_cleans_up_witness :
  py "/music/Sade - Smooth Operator.mp3" <> py "/tmp/tmpab12"
  /\ ~ spotisaver.under (py "/tmp/tmpab12") (py "/music/Sade - Smooth Operator.mp3").
Proof.
  apply (download_track_cleans_up (sample.env [py "https://i.scdn.co/image/1"])
           sample.config sample.job sample.world).
  - vm_compute. reflexivity.
  - apply (bool_decide_unpack _). vm_compute. exact I.
Defined.

Section idle_programs.
Import spotisaver.

Variable env : Env.
Hypothesis Hidle : forall argv w, run_program env argv w = Ok w.

Lemma argv_strings_some (args : list pyval) :
  Forall (fun x => x <> VNone) args -> is_Some (argv_strings args).
Proof.
  induction 1 as [|[s|] args Hx _ IH]; simpl; [by eexists | | done].
  destruct IH as [argv ->]. by eexists.
Qed.

Lemma subprocess_run_idle (args : list pyval) w :
  Forall (fun x => x <> VNone) args ->
  subprocess_run env args w = (Ok tt, w).
Proof.
  intros Hargs. unfold subprocess_run.
  destruct (argv_strings_some args Hargs) as [argv ->]. by rewrite Hidle.
Qed.

Lemma optional_tag_str key value : optional_tag key value <> VNone.
Proof. unfold optional_tag. by destruct value. Qed.

Lemma Forall_filter_str (f : pyval -> bool) (l : list pyval) :
  Forall (fun x => x <> VNone) l -> Forall (fun x => x <> VNone) (List.filter f l).
Proof.
  induction 1 as [|x l Hx _ IH]; simpl; [constructor|].
  destruct (f x); [by constructor | done].
Qed.

End idle_programs.

(** X9. When the external programs run without raising but produce no
    file, a job with cover art is not skipped, logs "Finished: ..." and
    then raises [RuntimeError] at the verification step; no output file
    exists afterwards. *)
Theorem download_track_nothing_produced (env : spotisaver.Env)
    (cfg : spotisaver.Config) (row : spotisaver.TrackJob) (w : spotisaver.World)
    (url : pystr) (more : list pystr) :
  (forall argv w0, spotisaver.run_program env argv w0 = Ok w0) ->
  sp_track (spotisaver.sp env) (spotisaver.last_segment (spotisaver.job_uri row))
    = Ok (url :: more) ->
  spotisaver.requests_get env url = Ok tt ->
  spotisaver.output_path cfg row ∉ spotisaver.files w ->
  spotisaver.output_path cfg row <> spotisaver.mkdtemp env w ->
  spotisaver.output_path cfg row
    <> os_path_join (spotisaver.mkdtemp env w) (py "cover.jpg") ->
  fst (spotisaver.download_track env cfg row w)
    = Raise (PyExn RuntimeError (py "Final output file was not created"))
  /\ spotisaver.log (snd (spotisaver.download_track env cfg row w))
     = spotisaver.log w
       ++ [py "Finished: " ++ spotisaver.job_artist row ++ py " - "
           ++ spotisaver.job_title row]
  /\ spotisaver.output_path cfg row
     ∉ spotisaver.files (snd (spotisaver.download_track env cfg row w)).
Proof.
  intros Hidle Himg Hget Hout Htmp Hcover.
  unfold spotisaver.output_path, spotisaver.output_name in *.
  cut (exists w',
         spotisaver.download_track env cfg row w
         = (Raise (PyExn RuntimeError (py "Final output file was not created")), w')
         /\ spotisaver.log w'
            = spotisaver.log w
              ++ [py "Finished: " ++ spotisaver.job_artist row ++ py " - "
                  ++ spotisaver.job_title row]
         /\ os_path_join (spotisaver.output_dir cfg)
              (spotisaver.build_safe_filename (spotisaver.job_artist row)
                 (spotisaver.job_title row) (spotisaver.format_var cfg))
            ∉ spotisaver.files w').
  { intros (w' & -> & Hl & Hf). done. }
  eexists.
  unfold spotisaver.download_track, spotisaver.bind at 1, spotisaver.path_exists.
  rewrite (bool_decide_eq_false_2 _ Hout), andb_false_r.
  unfold spotisaver.with_tmpdir.
  unfold spotisaver.bind at 1.
  rewrite (subprocess_run_idle env Hidle)
    by (repeat constructor; discriminate).
  unfold spotisaver.bind at 1.
  unfold spotisaver.download_spotify_cover, spotisaver.bind at 1, spotisaver.lift.
  rewrite Himg. unfold spotisaver.bind at 1. rewrite Hget.
  unfold spotisaver.bind at 1, spotisaver.add_file, spotisaver.ret.
  unfold spotisaver.bind at 1.
  rewrite (subprocess_run_idle env Hidle).
  2:{ apply Forall_app. split; [|repeat constructor; discriminate].
      destruct (spotisaver.pystr_eqb _ _);
        [apply Forall_app; split; [|repeat constructor; discriminate]|];
        (apply Forall_filter_str;
         repeat (constructor; [first [discriminate | apply optional_tag_str]|]);
         constructor). }
  unfold spotisaver.bind, spotisaver.log_message, spotisaver.path_exists.
  cbn [spotisaver.files spotisaver.log].
  rewrite bool_decide_eq_false_2.
  2:{ rewrite !elem_of_union, !elem_of_singleton. intros [? | [? | ?]]; done. }
  unfold spotisaver.raise.
  split; [reflexivity|]. cbn [spotisaver.files spotisaver.log].
  split; [reflexivity|].
  rewrite elem_of_filter, !elem_of_union, !elem_of_singleton.
  intros [_ [? | [? | ?]]]; done.
Qed.

Lemma download_track_nothing_produced_witness :
  fst (spotisaver.download_track sample.idle_env sample.config sample.job
         sample.world)
  = Raise (PyExn RuntimeError (py "Final output file was not created"))
  /\ spotisaver.log (snd (spotisaver.download_track sample.idle_env sample.config
                            sample.job sample.world))
     = [py "Finished: Sade - Smooth Operator"].
Proof.
  destruct (download_track_nothing_produced sample.idle_env sample.config
              sample.job sample.world (py "https://i.scdn.co/image/1") [])
    as (Hr & Hl & _).
  - reflexivity.
  - reflexivity.
  - reflexivity.
  - apply (bool_decide_eq_false_1 _). vm_compute. reflexivity.
  - intros Heq. vm_compute in Heq. discriminate Heq.
  - intros Heq. vm_compute in Heq. discriminate Heq.
  - split; [exact Hr | exact Hl].
Defined.

(** X10. The track id [download_spotify_cover] looks up is the part of
    the URI after its last colon: a colon-free suffix of the URI that is
    either the whole URI or preceded by a colon. *)
Theorem last_segment_suffix (s : pystr) :
  (spotisaver.COLON ∉ spotisaver.last_segment s)
  /\ (exists pre, s = pre ++ spotisaver.last_segment s
                  /\ (pre = [] \/ last pre = Some spotisaver.COLON)).
Proof.
  unfold spotisaver.last_segment.
  cut (forall acc pre0,
         spotisaver.COLON ∉ acc ->
         (pre0 = [] \/ last pre0 = Some spotisaver.COLON) ->
         let r := fold_left
                    (fun acc c => if c =? spotisaver.COLON then [] else acc ++ [c])
                    s acc in
         (spotisaver.COLON ∉ r)
         /\ (exists pre, pre0 ++ acc ++ s = pre ++ r
                         /\ (pre = [] \/ last pre = Some spotisaver.COLON))).
  { intros H. apply (H [] []); [apply not_elem_of_nil | by left]. }
  induction s as [|c s IH]; intros acc pre0 Hacc Hpre; cbn [fold_left].
  - split; [done|]. exists pre0. by rewrite app_nil_r.
  - destruct (N.eqb_spec c spotisaver.COLON) as [-> | Hne]; cbv iota.
    + destruct (IH [] (pre0 ++ acc ++ [spotisaver.COLON])) as (Hr & pre & Heq & Hp).
      * apply not_elem_of_nil.
      * right. by rewrite !app_assoc, last_snoc.
      * split; [done|]. exists pre. split; [|done].
        transitivity ((pre0 ++ acc ++ [spotisaver.COLON]) ++ [] ++ s);
          [|exact Heq].
        simpl. by rewrite <- !app_assoc.
    + destruct (IH (acc ++ [c]) pre0) as (Hr & pre & Heq & Hp).
      * rewrite elem_of_app, list_elem_of_singleton. intros [? | ?]; [done|].
        by apply Hne.
      * done.
      * split; [done|]. exists pre. split; [|done].
        transitivity (pre0 ++ (acc ++ [c]) ++ s); [|exact Heq].
        by rewrite <- !app_assoc.
Qed.

(** ** Export: the rows *)
Section export_rows.

Lemma for_each_Forall2 {A B} (f : A -> result B) (P : A -> B -> Prop) (l : list A) :
  Forall (fun x => exists y, f x = Ok y /\ P x y) l ->
  exists ys, for_each f l = Ok ys /\ Forall2 P l ys.
Proof.
  induction 1 as [|x l (y & Hy & HP) _ (ys & Hys & HF)].
  - exists []. by split; [|constructor].
  - exists (y :: ys). simpl. rewrite Hy, Hys. simpl. split; [done|].
    by constructor.
Qed.

Lemma update_genres_total name pages genres images artists acc :
  is_ok (update_genres (serve name pages genres images) artists acc) = true.
Proof.
  revert acc. induction artists as [|a rest IH]; intros acc; simpl; [done|].
  apply IH.
Qed.

End export_rows.

(** X11. A playlist served in pages whose entries all have a track is
    exported completely and in order: [export_csv] writes, at the path
    derived from the playlist name, one row per entry, the i-th row
    carrying the URI, name and added-at stamp of the i-th entry; no other
    file is touched. *)
Theorem export_csv_all_rows (rt : PyRuntime) (name : pystr)
    (pages : list (list Item)) (genres images : pystr -> list pystr)
    (fuel : nat) (files : gmap pystr (list Row)) (pid out : pystr)
    (tracks : list Item) :
  concat pages = tracks ->
  (length pages <= S fuel)%nat ->
  Forall (fun t => is_Some (item_track t)) tracks ->
  let sp := serve name pages genres images in
  let path := os_path_join out (sanitize_filename name ++ py ".csv") in
  exists rows files',
    spotisaver.export_csv rt sp fuel files pid out = Some (Ok (path, files'))
    /\ files' !! path = Some rows
    /\ (forall q, q <> path -> files' !! q = files !! q)
    /\ Forall2 (fun t row =>
         exists tr, item_track t = Some tr
           /\ row_get (py "Track URI") row = Some (CStr (track_uri tr))
           /\ row_get (py "Track Name") row = Some (CStr (track_name tr))
           /\ row_get (py "Added At") row = Some (CStr (item_added_at t)))
         tracks rows.
Proof.
  intros Hcat Hlen Htr sp path.
  destruct (for_each_Forall2 (spotisaver.export_row rt sp)
              (fun t row =>
                 exists tr, item_track t = Some tr
                   /\ row_get (py "Track URI") row = Some (CStr (track_uri tr))
                   /\ row_get (py "Track Name") row = Some (CStr (track_name tr))
                   /\ row_get (py "Added At") row = Some (CStr (item_added_at t)))
              tracks) as (rows & Hrows & HF).
  { eapply Forall_impl; [exact Htr|]. intros t [tr Ht]. cbv beta.
    unfold spotisaver.export_row. rewrite Ht.
    pose proof (update_genres_total name pages genres images
                  (track_artists tr) set_new) as Hok.
    unfold collect_genres. fold sp in Hok.
    destruct (update_genres sp (track_artists tr) set_new) as [g|e]; [|discriminate].
    eexists. split; [reflexivity|]. exists tr. split; [done|].
    split; [reflexivity|]. split; reflexivity. }
  exists rows, (<[path := rows]> files).
  split.
  - unfold spotisaver.export_csv.
    change (sp_playlist sp pid) with (Ok (A:=pystr) name). cbv iota beta.
    unfold sp. rewrite (get_playlist_tracks_served name pages genres images fuel pid Hlen).
    rewrite Hcat. fold sp. rewrite Hrows. reflexivity.
  - split; [apply lookup_insert_eq|]. split; [|done].
    intros q Hq. by apply lookup_insert_ne.
Qed.

Lemma export_csv_all_rows_witness :
  exists rows files',
    spotisaver.export_csv runtime_a (sample.catalog (py "Mix") sample.pages) 2 ∅
      (py "37i9") (py "/music")
    = Some (Ok (py "/music/Mix.csv", files'))
    /\ files' !! py "/music/Mix.csv" = Some rows
    /\ length rows = 5%nat.
Proof.
  destruct (export_csv_all_rows runtime_a (py "Mix") sample.pages sample.genres
              (sample.images [py "https://i.scdn.co/image/1"]) 2 ∅
              (py "37i9") (py "/music") (concat sample.pages))
    as (rows & files' & He & Hl & _ & HF).
  - reflexivity.
  - simpl. lia.
  - repeat constructor; by eexists.
  - exists rows, files'. split; [exact He|]. split; [exact Hl|].
    symmetry. exact (Forall2_length _ _ _ HF).
Defined.

(** X12. The exporter of [spotisaver.py] and [extract_track_info] of
    [old py/csvsaver.py] agree on every entry that has a track: both
    raise the same exception or both return a row; the rows have the same
    twenty-four columns in the same order, are equal in every cell other
    than Record Label (where a missing label is the empty string in the
    new code and [None] in the old), and their twelve feature cells are
    zero. *)
Theorem export_row_matches_csvsaver (rt : PyRuntime) (sp : Spotify)
    (t : Item) (tr : Track) :
  item_track t = Some tr ->
  match csvsaver.extract_track_info rt sp t, spotisaver.export_row rt sp t with
  | Ok old, Ok new =>
      fst <$> old = export_columns
      /\ fst <$> new = export_columns
      /\ (forall k, k <> py "Record Label" -> row_get k new = row_get k old)
      /\ (is_Some (album_label (track_album tr)) -> new = old)
      /\ drop 12 (snd <$> new) = replicate 12 (CInt 0)
  | Raise e1, Raise e2 => e1 = e2
  | _, _ => False
  end.
Proof.
  intros Ht. unfold csvsaver.extract_track_info, spotisaver.export_row.
  rewrite Ht. destruct (collect_genres sp (track_artists tr)) as [g|e]; simpl; [|done].
  split; [reflexivity|]. split; [reflexivity|]. split.
  - intros k Hk. unfold row_get.
    repeat (case_bool_decide; [first [reflexivity | by subst k]|]).
    reflexivity.
  - split; [|reflexivity]. by intros [l ->].
Qed.

Lemma export_row_matches_csvsaver_witness :
  is_ok (csvsaver.extract_track_info runtime_a
           (sample.catalog (py "Mix") sample.pages) (sample.entry 65))
  = is_ok (spotisaver.export_row runtime_a
             (sample.catalog (py "Mix") sample.pages) (sample.entry 65)).
Proof.
  pose proof (export_row_matches_csvsaver runtime_a
                (sample.catalog (py "Mix") sample.pages) (sample.entry 65)
                (sample.track 65) eq_refl) as H.
  destruct (csvsaver.extract_track_info _ _ _), (spotisaver.export_row _ _ _);
    first [reflexivity | destruct H].
Defined.

(** ** Playlist and user ids *)
Section id_facts.

Lemma strip_prefix_Some pat : forall s after,
  strip_prefix pat s = Some after <-> s = pat ++ after.
Proof.
  induction pat as [|p pat IH]; intros s after; simpl.
  - destruct s; split; congruence.
  - destruct s as [|c s]; [split; discriminate|].
    destruct (N.eqb_spec c p) as [-> | Hne].
    + rewrite IH. split; [by intros -> | by intros [= ->]].
    + split; [discriminate | by intros [= ? ?]].
Qed.

Lemma take_alnum_split s :
  exists post, s = take_alnum s ++ post /\ take_alnum post = [].
Proof.
  induction s as [|c s (post & Hs & Hp)]; simpl.
  - by exists [].
  - destruct (is_alnum c) eqn:Hc.
    + exists post. split; [simpl; by f_equal | done].
    + exists (c :: s). split; [done|]. simpl. by rewrite Hc.
Qed.

Lemma take_alnum_Forall s : Forall (fun c => is_alnum c = true) (take_alnum s).
Proof.
  induction s as [|c s IH]; simpl; [constructor|].
  destruct (is_alnum c) eqn:Hc; by constructor.
Qed.

Lemma take_alnum_app id rest :
  Forall (fun c => is_alnum c = true) id -> take_alnum rest = [] ->
  take_alnum (id ++ rest) = id.
Proof.
  induction 1 as [|c id Hc _ IH]; intros Hrest; simpl; [done|].
  by rewrite Hc, IH.
Qed.

Lemma take_alnum_head c post :
  take_alnum (c :: post) = [] <-> is_alnum c = false.
Proof. simpl. destruct (is_alnum c); split; congruence. Qed.

(** What [search_id] returns is the id of the leftmost match. *)
Lemma search_id_Some literal : forall url id,
  search_id literal url = Some id ->
  id <> [] /\ Forall (fun c => is_alnum c = true) id
  /\ exists pre post,
       url = pre ++ literal ++ id ++ post /\ take_alnum post = []
       /\ forall pre1 c1 post1,
            url = pre1 ++ literal ++ c1 :: post1 -> is_alnum c1 = true ->
            (length pre <= length pre1)%nat.
Proof.
  induction url as [|c rest IH]; intros id H; [discriminate|].
  assert (Hrest : search_id literal rest = Some id ->
            (forall post1 c1, c :: rest = literal ++ c1 :: post1 ->
                              is_alnum c1 = false) ->
            id <> [] /\ Forall (fun c => is_alnum c = true) id
            /\ exists pre post,
                 c :: rest = pre ++ literal ++ id ++ post /\ take_alnum post = []
                 /\ forall pre1 c1 post1,
                      c :: rest = pre1 ++ literal ++ c1 :: post1 ->
                      is_alnum c1 = true -> (length pre <= length pre1)%nat).
  { intros Hs Hhere. destruct (IH id Hs) as (Hne & Hid & pre & post & -> & Hp & Hleft).
    split; [done|]. split; [done|]. exists (c :: pre), post.
    split; [done|]. split; [done|]. intros [|x pre1] c1 post1 Heq Hc1.
    - rewrite (Hhere post1 c1 Heq) in Hc1. discriminate.
    - injection Heq as -> Heq. simpl. apply le_n_S. by apply (Hleft pre1 c1 post1). }
  cbn [search_id] in H.
  destruct (strip_prefix literal (c :: rest)) as [after|] eqn:Hsp.
  - apply strip_prefix_Some in Hsp.
    destruct (take_alnum after) as [|i0 id0] eqn:Hta.
    + apply Hrest; [done|]. intros post1 c1 Heq.
      rewrite Hsp in Heq. apply app_inv_head in Heq. subst after.
      by apply (take_alnum_head c1 post1).
    + injection H as <-. split; [done|]. split.
      { rewrite <- Hta. apply take_alnum_Forall. }
      destruct (take_alnum_split after) as (post & Hafter & Hp).
      exists [], post. simpl. split; [by rewrite Hsp, Hafter, Hta|].
      split; [done|]. intros. lia.
  - apply Hrest; [done|]. intros post1 c1 Heq.
    apply strip_prefix_Some in Heq. congruence.
Qed.

Lemma search_id_None literal : forall url,
  search_id literal url = None ->
  forall pre c post, url = pre ++ literal ++ c :: post -> is_alnum c = false.
Proof.
  induction url as [|x rest IH]; intros H pre c post Heq.
  - destruct pre, literal; discriminate.
  - cbn [search_id] in H.
    assert (Hrest : search_id literal rest = None).
    { destruct (strip_prefix literal (x :: rest)) as [after|]; [|done].
      by destruct (take_alnum after). }
    destruct pre as [|y pre].
    + simpl in Heq. apply strip_prefix_Some in Heq.
      rewrite Heq in H. apply (take_alnum_head c post).
      by destruct (take_alnum (c :: post)).
    + injection Heq as -> Heq. by apply (IH Hrest pre c post).
Qed.

Lemma search_id_skip literal c url :
  strip_prefix literal (c :: url) = None ->
  search_id literal (c :: url) = search_id literal url.
Proof. intros H. cbn [search_id]. by rewrite H. Qed.

End id_facts.

(** X13. [parse_playlist_id] returns the id of the leftmost place where
    ["playlist/"] is followed by a letter or digit: the id is the longest
    run of ASCII letters and digits there (so it is not empty); and it
    returns [None] exactly when the URL has no such place. *)
Theorem parse_playlist_id_leftmost (url : pystr) :
  match parse_playlist_id url with
  | Some id =>
      id <> [] /\ Forall (fun c => is_alnum c = true) id
      /\ exists pre post,
           url = pre ++ py "playlist/" ++ id ++ post
           /\ take_alnum post = []
           /\ forall pre1 c1 post1,
                url = pre1 ++ py "playlist/" ++ c1 :: post1 ->
                is_alnum c1 = true -> (length pre <= length pre1)%nat
  | None =>
      forall pre c post,
        url = pre ++ py "playlist/" ++ c :: post -> is_alnum c = false
  end.
Proof.
  unfold parse_playlist_id.
  destruct (search_id (py "playlist/") url) as [id|] eqn:H.
  - by apply search_id_Some.
  - by apply search_id_None.
Qed.

(** X14. A share link is parsed to its id: for every non-empty id of
    letters and digits and every remainder that does not start with a
    letter or digit (a query string, or nothing),
    ["https://open.spotify.com/playlist/<id><remainder>"] gives the id. *)
Theorem parse_playlist_id_share_link (id rest : pystr) :
  id <> [] ->
  Forall (fun c => is_alnum c = true) id ->
  take_alnum rest = [] ->
  parse_playlist_id (py "https://open.spotify.com/playlist/" ++ id ++ rest)
  = Some id.
Proof.
  intros Hne Hid Hrest.
  change (py "https://open.spotify.com/playlist/")
    with (py "https://open.spotify.com/" ++ py "playlist/").
  rewrite <- app_assoc. unfold parse_playlist_id.
  assert (Hhere : search_id (py "playlist/") (py "playlist/" ++ id ++ rest)
                  = Some id).
  { destruct id as [|c id]; [done|].
    change (py "playlist/" ++ (c :: id) ++ rest)
      with (112 :: (py "laylist/" ++ (c :: id) ++ rest)).
    cbn [search_id].
    assert (Hsp : strip_prefix (py "playlist/")
                    (112 :: py "laylist/" ++ (c :: id) ++ rest)
                  = Some ((c :: id) ++ rest)) by (by apply strip_prefix_Some).
    rewrite Hsp, (take_alnum_app (c :: id) rest Hid Hrest). done. }
  revert Hhere. generalize (py "playlist/" ++ id ++ rest). intros tail Htail.
  let l := eval vm_compute in (py "https://open.spotify.com/") in
  change (py "https://open.spotify.com/") with l.
  cbn [app].
  repeat (rewrite search_id_skip by reflexivity).
  exact Htail.
Qed.

Lemma parse_playlist_id_share_link_witness :
  parse_playlist_id (py "https://open.spotify.com/playlist/37i9dQZF1DX?si=abc")
  = Some (py "37i9dQZF1DX").
Proof.
  apply (parse_playlist_id_share_link (py "37i9dQZF1DX") (py "?si=abc")).
  - discriminate.
  - repeat constructor.
  - reflexivity.
Defined.

Section sanitizer_more.

(** The characters below 128, one by one. *)
Lemma sanitized_char_valid c :
  sanitized_char c = true ->
  char_in c valid = true /\ py_isspace c = false /\ c <> SPACE.
Proof.
  intros Hc.
  assert (Hlt : c < 128).
  { unfold sanitized_char, is_ascii_letter, is_ascii_digit, is_filename_punct in Hc.
    rewrite !orb_true_iff, !andb_true_iff, !N.leb_le in Hc.
    destruct Hc as [[[[? ?] | [? ?]] | [? ?]] | Hp]; try lia.
    unfold char_in in Hp. rewrite existsb_exists in Hp.
    destruct Hp as (d & Hin & Heq). apply N.eqb_eq in Heq. subst d.
    vm_compute in Hin.
    repeat (destruct Hin as [<- | Hin]; [lia|]). destruct Hin. }
  assert (Hall : forallb (fun k =>
            implb (sanitized_char (N.of_nat k))
                  (char_in (N.of_nat k) valid
                   && negb (py_isspace (N.of_nat k))
                   && negb (N.of_nat k =? SPACE))) (seq 0 128) = true)
    by (vm_compute; reflexivity).
  rewrite forallb_forall in Hall.
  specialize (Hall (N.to_nat c)). rewrite N2Nat.id, Hc in Hall. simpl in Hall.
  assert (Hin : In (N.to_nat c) (seq 0 128)) by (apply in_seq; lia).
  apply Hall in Hin. rewrite !andb_true_iff, !negb_true_iff in Hin.
  destruct Hin as [[? ?] Hsp]. split; [done|]. split; [done|].
  by apply N.eqb_neq.
Qed.

Lemma is_alnum_sanitized c : is_alnum c = true -> sanitized_char c = true.
Proof. unfold is_alnum, sanitized_char. intros ->. reflexivity. Qed.

Lemma filter_length_le' {A} (f : A -> bool) l :
  (length (List.filter f l) <= length l)%nat.
Proof. apply List.filter_length_le. Qed.

Lemma py_lstrip_length s : (length (py_lstrip s) <= length s)%nat.
Proof.
  induction s as [|c s IH]; simpl; [lia|].
  destruct (py_isspace c); simpl; lia.
Qed.

Lemma py_strip_ends c s d :
  py_isspace c = false -> py_isspace d = false ->
  py_strip (c :: s ++ [d]) = c :: s ++ [d].
Proof.
  intros Hc Hd. unfold py_strip, py_rstrip. cbn [py_lstrip]. rewrite Hc.
  rewrite app_comm_cons, rev_app_distr.
  change (rev [d] ++ rev (c :: s)) with (d :: rev (c :: s)).
  cbn [py_lstrip]. rewrite Hd.
  change (rev (d :: rev (c :: s))) with (rev (rev (c :: s)) ++ [d]).
  by rewrite rev_involutive.
Qed.

End sanitizer_more.

(** X15. The names the sanitizer leaves alone are exactly those made of
    ASCII letters, digits and the characters [-_.()]; and no name gets
    longer. *)
Theorem sanitize_filename_fixed_points (s : pystr) :
  (sanitize_filename s = s <-> Forall (fun c => sanitized_char c = true) s)
  /\ (length (sanitize_filename s) <= length s)%nat.
Proof.
  split; [split|].
  - intros Heq. apply List.Forall_forall. intros c Hc.
    rewrite <- Heq in Hc.
    by destruct (sanitize_filename_chars s c Hc) as (_ & ? & _).
  - intros Hs. apply sanitize_filename_fixed. intros c Hc.
    rewrite List.Forall_forall in Hs. by apply sanitized_char_valid, Hs.
  - unfold sanitize_filename, py_replace_char, py_strip, py_rstrip.
    rewrite length_map, length_rev.
    etransitivity; [apply py_lstrip_length|]. rewrite length_rev.
    etransitivity; [apply py_lstrip_length|]. apply filter_length_le'.
Qed.

(** X16. The folder the user branch of [main] creates: for a user id
    parsed from a URL it is the id followed by
    ["s_spotify_playlist_data"] (the apostrophe is dropped, the spaces
    become underscores). *)
Theorem user_folder_name_of_parsed_id (url user_id : pystr) :
  parse_user_id url = Some user_id ->
  user_folder_name user_id = user_id ++ py "s_spotify_playlist_data".
Proof.
  intros Hparse. apply search_id_Some in Hparse as (Hne & Hid & _).
  assert (Hv : forall c, In c user_id ->
            char_in c valid = true /\ py_isspace c = false /\ c <> SPACE).
  { intros c Hc. rewrite List.Forall_forall in Hid.
    by apply sanitized_char_valid, is_alnum_sanitized, Hid. }
  unfold user_folder_name, sanitize_filename.
  rewrite List.filter_app.
  rewrite (filter_all _ user_id) by (intros c Hc; by apply Hv).
  let l := eval vm_compute in
    (List.filter (fun c => char_in c valid) (py "'s spotify playlist data")) in
  change (List.filter (fun c => char_in c valid) (py "'s spotify playlist data"))
    with l.
  destruct user_id as [|c0 user_id]; [done|].
  assert (Hc0 : py_isspace c0 = false) by (by apply Hv; left).
  change [115; 32; 115; 112; 111; 116; 105; 102; 121; 32; 112; 108; 97; 121;
          108; 105; 115; 116; 32; 100; 97; 116; 97]
    with ([115; 32; 115; 112; 111; 116; 105; 102; 121; 32; 112; 108; 97; 121;
           108; 105; 115; 116; 32; 100; 97; 116] ++ [97]).
  rewrite app_assoc.
  etransitivity;
    [apply f_equal; apply (py_strip_ends c0 (user_id ++ _) 97 Hc0 eq_refl)|].
  unfold py_replace_char.
  rewrite <- (app_assoc user_id), (app_comm_cons user_id), List.map_app.
  change (List.map (fun c => if c =? SPACE then UNDERSCORE else c)
            (c0 :: user_id))
    with (py_replace_char SPACE UNDERSCORE (c0 :: user_id)).
  rewrite py_replace_char_id by (intros c Hc; by apply Hv).
  reflexivity.
Qed.

Lemma user_folder_name_of_parsed_id_witness :
  user_folder_name (py "spotify") = py "spotifys_spotify_playlist_data".
Proof.
  apply (user_folder_name_of_parsed_id (py "https://open.spotify.com/user/spotify")).
  reflexivity.
Defined.

(** ** Output file names *)
Section filename_facts.
Import spotisaver.

Lemma py_lstrip_split s :
  exists l, s = l ++ py_lstrip s
            /\ Forall (fun c => py_isspace c = true) l
            /\ (forall c, head (py_lstrip s) = Some c -> py_isspace c = false).
Proof.
  induction s as [|c s (l & Hs & Hl & Hh)]; simpl.
  - exists []. by repeat split.
  - destruct (py_isspace c) eqn:Hc.
    + exists (c :: l). split; [simpl; by f_equal|]. split; [by constructor | done].
    + exists []. split; [done|]. split; [constructor|]. by intros ? [= <-].
Qed.

Lemma py_rstrip_split s :
  exists r, s = py_rstrip s ++ r
            /\ Forall (fun c => py_isspace c = true) r
            /\ (forall c, last (py_rstrip s) = Some c -> py_isspace c = false).
Proof.
  unfold py_rstrip. destruct (py_lstrip_split (rev s)) as (l & Hs & Hl & Hh).
  exists (rev l). split.
  - rewrite <- rev_app_distr, <- Hs. by rewrite rev_involutive.
  - split; [by apply List.Forall_rev|].
    intros c Hc. apply Hh. rewrite <- Hc.
    rewrite <- (rev_involutive (py_lstrip (rev s))) at 1.
    generalize (rev (py_lstrip (rev s))). intros x.
    destruct x as [|y x _] using rev_ind; [done|].
    rewrite rev_app_distr. simpl. by rewrite last_snoc.
Qed.

(** [strip] keeps a middle part, cut at characters that are not white
    space. *)
Lemma py_strip_split s :
  exists l r, s = l ++ py_strip s ++ r
    /\ Forall (fun c => py_isspace c = true) l
    /\ Forall (fun c => py_isspace c = true) r
    /\ (forall c, head (py_strip s) = Some c -> py_isspace c = false)
    /\ (forall c, last (py_strip s) = Some c -> py_isspace c = false).
Proof.
  unfold py_strip.
  destruct (py_lstrip_split s) as (l & Hs & Hl & Hh).
  destruct (py_rstrip_split (py_lstrip s)) as (r & Hr & Hrs & Hlast).
  exists l, r. split; [by rewrite <- Hr|]. split; [done|]. split; [done|].
  split; [|done]. intros c Hc. apply Hh.
  destruct (py_rstrip (py_lstrip s)) as [|c' t] eqn:Ht; [done|].
  rewrite Hr. simpl in *. done.
Qed.

Lemma collapse_spaces_head c s :
  py_isspace c = false -> collapse_spaces (c :: s) = c :: collapse_spaces s.
Proof. intros Hc. simpl. by rewrite Hc. Qed.

Lemma collapse_spaces_elem s c :
  c ∈ collapse_spaces s ->
  c = SPACE \/ (c ∈ s /\ py_isspace c = false).
Proof.
  induction s as [|d s IH]; [by intros ?%elem_of_nil|].
  cbn [collapse_spaces]. destruct (py_isspace d) eqn:Hd.
  - destruct s as [|e s].
    + intros ->%list_elem_of_singleton. by left.
    + destruct (py_isspace e) eqn:He.
      * intros Hc. destruct (IH Hc) as [? | [? ?]]; [by left|].
        right. split; [by right | done].
      * intros [-> | Hc]%elem_of_cons; [by left|].
        destruct (IH Hc) as [? | [? ?]]; [by left|].
        right. split; [by right | done].
  - intros [-> | Hc]%elem_of_cons.
    + right. split; [by left | done].
    + destruct (IH Hc) as [? | [? ?]]; [by left|].
      right. split; [by right | done].
Qed.

Lemma collapse_spaces_keeps s c :
  c ∈ s -> py_isspace c = false -> c ∈ collapse_spaces s.
Proof.
  intros Hin Hc. induction s as [|d s IH]; [by apply elem_of_nil in Hin|].
  cbn [collapse_spaces]. apply elem_of_cons in Hin as [<- | Hin].
  - rewrite Hc. by left.
  - specialize (IH Hin). destruct (py_isspace d).
    + destruct s as [|e s]; [by apply elem_of_nil in Hin|].
      destruct (py_isspace e); [done | by right].
    + by right.
Qed.

Lemma collapse_spaces_single s a b :
  collapse_spaces s <> a ++ SPACE :: SPACE :: b.
Proof.
  revert a. induction s as [|c s IH]; intros a.
  - by destruct a.
  - cbn [collapse_spaces]. destruct (py_isspace c) eqn:Hc.
    + destruct s as [|d s].
      * by destruct a as [|? [|? ?]].
      * destruct (py_isspace d) eqn:Hd; [apply IH|].
        rewrite (collapse_spaces_head d s Hd).
        destruct a as [|x a]; simpl.
        -- intros [= -> _]. by vm_compute in Hd.
        -- intros [= _ Heq]. apply (IH a).
           by rewrite (collapse_spaces_head d s Hd).
    + destruct a as [|x a]; simpl.
      * intros [= -> _]. by vm_compute in Hc.
      * intros [= _ Heq]. by apply (IH a).
Qed.

End filename_facts.

(** X17. Output file names: for every artist, title and extension the
    name is a stem followed by a dot and the extension; the stem is not
    empty, holds no backslash, slash, colon, asterisk, question mark,
    double quote, angle bracket or bar, holds no white space other than
    single spaces, and neither starts nor ends with a space. *)
Theorem build_safe_filename_stem (artist title ext : pystr) :
  exists stem,
    spotisaver.build_safe_filename artist title ext = stem ++ py "." ++ ext
    /\ stem <> []
    /\ Forall (fun c => char_in c spotisaver.illegal_chars = false
                        /\ (py_isspace c = true -> c = SPACE)) stem
    /\ (forall a b, stem <> a ++ SPACE :: SPACE :: b)
    /\ (forall c, head stem = Some c -> py_isspace c = false)
    /\ (forall c, last stem = Some c -> py_isspace c = false).
Proof.
  unfold spotisaver.build_safe_filename.
  set (replaced := List.map
         (fun c => if char_in c spotisaver.illegal_chars then SPACE else c)
         (artist ++ py " - " ++ title)).
  set (collapsed := spotisaver.collapse_spaces replaced).
  destruct (py_strip_split collapsed) as (l & r & Hsplit & Hl & Hr & Hhead & Hlast).
  exists (py_strip collapsed). split; [done|].
  assert (Hkeep : forall c, c ∈ collapsed -> py_isspace c = false ->
                            c ∈ py_strip collapsed).
  { intros c Hc Hns. rewrite Hsplit, !elem_of_app in Hc.
    rewrite Forall_forall in Hl, Hr.
    destruct Hc as [Hc | [Hc | Hc]]; [|done|].
    - rewrite (Hl c Hc) in Hns. discriminate.
    - rewrite (Hr c Hc) in Hns. discriminate. }
  assert (Hsub : forall c, c ∈ py_strip collapsed -> c ∈ collapsed).
  { intros c Hc. rewrite Hsplit, !elem_of_app. auto. }
  split.
  { assert (Hdash : (45 : pychar) ∈ py_strip collapsed).
    { apply Hkeep; [|reflexivity]. apply collapse_spaces_keeps; [|reflexivity].
      unfold replaced. apply list_elem_of_In, in_map_iff. exists 45.
      split; [reflexivity|]. apply in_or_app. right.
      apply in_or_app. left. right. by left. }
    intros Hnil. rewrite Hnil in Hdash. by apply elem_of_nil in Hdash. }
  split.
  { apply Forall_forall. intros c Hc. apply Hsub in Hc.
    destruct (collapse_spaces_elem replaced c Hc) as [-> | [Hin Hns]].
    - split; [reflexivity | done].
    - split; [|by rewrite Hns].
      apply list_elem_of_In, in_map_iff in Hin as (d & Hd & _).
      destruct (char_in d spotisaver.illegal_chars) eqn:Hill; subst c; [reflexivity|done]. }
  split; [|done].
  intros a b Heq. rewrite Heq, <- app_assoc in Hsplit. rewrite app_assoc in Hsplit.
  by apply (collapse_spaces_single replaced (l ++ a) (b ++ r)).
Qed.

(** ** Pagination against an arbitrary catalog *)
Section pagination_any.

Variable sp : Spotify.

Lemma fetch_more_Ok fuel : forall results tracks out,
  fetch_more sp fuel results tracks = Some (Ok out) ->
  exists ps, follows sp results ps
             /\ (length ps <= fuel)%nat
             /\ out = tracks ++ concat (items <$> ps).
Proof.
  induction fuel as [|fuel IH]; intros results tracks out; simpl.
  - destruct (truthy_next results) eqn:Hn; [discriminate|].
    intros [= <-]. exists []. simpl. by rewrite app_nil_r.
  - destruct (truthy_next results) eqn:Hn.
    + destruct (sp_next sp results) as [q|e] eqn:Hq; [|discriminate].
      intros H. destruct (IH _ _ _ H) as (ps & Hf & Hlen & ->).
      exists (q :: ps). simpl. split; [done|]. split; [lia|].
      by rewrite <- app_assoc.
    + intros [= <-]. exists []. simpl. split; [done|]. split; [lia|].
      by rewrite app_nil_r.
Qed.

Lemma fetch_more_follows ps : forall fuel results tracks,
  follows sp results ps -> (length ps <= fuel)%nat ->
  fetch_more sp fuel results tracks
  = Some (Ok (tracks ++ concat (items <$> ps))).
Proof.
  induction ps as [|q ps IH]; intros fuel results tracks Hf Hlen; simpl in Hf.
  - destruct fuel; simpl; rewrite Hf; simpl; by rewrite app_nil_r.
  - destruct Hf as (Hn & Hq & Hf). destruct fuel as [|fuel]; [simpl in Hlen; lia|].
    simpl. rewrite Hn, Hq. rewrite (IH fuel q _ Hf) by (simpl in Hlen; lia).
    by rewrite <- app_assoc.
Qed.

Lemma fetch_more_endless fuel : forall results tracks,
  (forall r, truthy_next r = true ->
             exists r', sp_next sp r = Ok r' /\ truthy_next r' = true) ->
  truthy_next results = true ->
  fetch_more sp fuel results tracks = None.
Proof.
  induction fuel as [|fuel IH]; intros results tracks Hloop Hn; simpl; rewrite Hn.
  - done.
  - destruct (Hloop results Hn) as (r' & -> & Hn'). by apply IH.
Qed.

End pagination_any.

(** X18. Against any catalog, [get_playlist_tracks] returns a list
    exactly when the first request succeeds and following the [next]
    links from the first page reaches a page without one, every request
    on the way succeeding; the list is then the items of the pages
    visited, in that order.  A failed request anywhere leaves no partial
    list. *)
Theorem get_playlist_tracks_follows (sp : Spotify) (pid : pystr)
    (tracks : list Item) :
  (exists fuel, get_playlist_tracks sp fuel pid = Some (Ok tracks))
  <-> (exists first rest,
         sp_playlist_tracks sp pid = Ok first
         /\ follows sp first rest
         /\ tracks = concat (items <$> (first :: rest))).
Proof.
  unfold get_playlist_tracks. split.
  - intros (fuel & H).
    destruct (sp_playlist_tracks sp pid) as [first|e]; [|discriminate].
    destruct (fetch_more_Ok sp fuel _ _ _ H) as (ps & Hf & _ & ->).
    by exists first, ps.
  - intros (first & rest & -> & Hf & ->). exists (length rest).
    by rewrite (fetch_more_follows sp rest (length rest) first _ Hf).
Qed.

(** X19. The pagination loop has no page limit: against a catalog whose
    pages always carry a [next] link, it runs on for ever (no amount of
    fuel yields a result). *)
Theorem get_playlist_tracks_endless (sp : Spotify) (pid : pystr) (first : Page) :
  sp_playlist_tracks sp pid = Ok first ->
  truthy_next first = true ->
  (forall r, truthy_next r = true ->
             exists r', sp_next sp r = Ok r' /\ truthy_next r' = true) ->
  forall fuel, get_playlist_tracks sp fuel pid = None.
Proof.
  intros Hfirst Hn Hloop fuel. unfold get_playlist_tracks. rewrite Hfirst.
  by apply fetch_more_endless.
Qed.

Lemma get_playlist_tracks_endless_witness :
  get_playlist_tracks sample.looping_catalog 1000 (py "37i9") = None.
Proof.
  apply (get_playlist_tracks_endless sample.looping_catalog (py "37i9")
           sample.looping_page).
  - reflexivity.
  - reflexivity.
  - intros r _. exists sample.looping_page. split; reflexivity.
Defined.

(** ** The log panel *)
Section log_facts.
Import log_panel.

Lemma drain_app queue : forall text,
  drain queue text = text ++ drain queue [].
Proof.
  induction queue as [|msg queue IH]; intros text; simpl.
  - by rewrite app_nil_r.
  - rewrite (IH (text ++ msg ++ [10])), (IH (msg ++ [10])).
    by rewrite <- app_assoc.
Qed.

Lemma drain_snoc queue msg :
  drain (queue ++ [msg]) [] = drain queue [] ++ msg ++ [10].
Proof.
  induction queue as [|m queue IH]; simpl; [done|].
  rewrite (drain_app (queue ++ [msg])), (drain_app queue), IH.
  by rewrite <- !app_assoc.
Qed.

Lemma drain_snoc_gen queue msg text :
  drain (queue ++ [msg]) text = drain queue text ++ msg ++ [10].
Proof.
  rewrite (drain_app (queue ++ [msg])), drain_snoc, (drain_app queue text).
  by rewrite <- !app_assoc.
Qed.

End log_facts.

(** X20. The log panel loses and reorders nothing: after any sequence of
    [log] calls and [flush_logs] rounds, the text shown followed by the
    lines still queued is every logged line, in call order, each ended
    by a newline; and right after a flush the queue is empty. *)
Theorem log_panel_fifo (ops : list log_panel.op) :
  log_panel.drain (log_panel.log_queue (log_panel.run ops))
                  (log_panel.log_text (log_panel.run ops))
  = log_panel.drain (log_panel.logged ops) []
  /\ log_panel.log_queue (log_panel.run (ops ++ [log_panel.Flush])) = []
  /\ log_panel.log_text (log_panel.run (ops ++ [log_panel.Flush]))
     = log_panel.drain (log_panel.logged ops) [].
Proof.
  assert (H : log_panel.drain (log_panel.log_queue (log_panel.run ops))
                (log_panel.log_text (log_panel.run ops))
              = log_panel.drain (log_panel.logged ops) []).
  { unfold log_panel.run, log_panel.logged.
    induction ops as [|o ops IH] using rev_ind; [done|].
    rewrite fold_left_app, omap_app.
    cbn [fold_left log_panel.apply_op].
    destruct o as [ts msg|].
    - change (omap _ [log_panel.Log ts msg]) with [log_panel.line ts msg].
      unfold log_panel.log. cbn [log_panel.log_queue log_panel.log_text].
      etransitivity; [apply drain_snoc_gen|].
      symmetry. etransitivity; [apply drain_snoc_gen|].
      symmetry. by f_equal.
    - change (omap _ [log_panel.Flush]) with (@nil pystr).
      rewrite app_nil_r, <- IH. reflexivity. }
  split; [done|]. unfold log_panel.run in *. rewrite fold_left_app.
  cbn [fold_left log_panel.apply_op log_panel.flush_logs
       log_panel.log_queue log_panel.log_text].
  split; [done | exact H].
Qed.

(** ** The default download folder *)
Section path_facts.

Lemma split_at_last_None sep p :
  split_at_last sep p = None <-> sep ∉ p.
Proof.
  induction p as [|c p IH]; simpl.
  - split; [intros _; apply not_elem_of_nil | done].
  - rewrite not_elem_of_cons. destruct (split_at_last sep p) as [[b a]|].
    + split; [discriminate|]. intros [_ Hp]. apply IH in Hp. discriminate.
    + destruct (N.eqb_spec c sep) as [-> | Hne].
      * split; [discriminate | by intros [? _]].
      * split; [|done]. intros _. split; [done|]. by apply IH.
Qed.

Lemma split_at_last_app sep before after :
  sep ∉ after ->
  split_at_last sep (before ++ sep :: after) = Some (before, after).
Proof.
  intros Hafter. induction before as [|c before IH]; simpl.
  - rewrite (proj2 (split_at_last_None sep after) Hafter).
    by rewrite N.eqb_refl.
  - by rewrite IH.
Qed.

Lemma rstrip_char_snoc c s d :
  d <> c -> rstrip_char c ((s ++ [d]) ++ [c]) = s ++ [d].
Proof.
  intros Hd. unfold rstrip_char. rewrite !rev_app_distr. simpl.
  rewrite N.eqb_refl. destruct (N.eqb_spec d c); [done|].
  change (d :: rev s) with (rev [d] ++ rev s).
  by rewrite <- rev_app_distr, rev_involutive.
Qed.

Lemma forallb_snoc_false {A} (f : A -> bool) l x :
  f x = false -> forallb f (l ++ [x]) = false.
Proof.
  intros Hx. rewrite forallb_app. simpl. rewrite Hx.
  by rewrite andb_false_r.
Qed.

End path_facts.

(** X21. The download folder chosen when none was selected, for a table
    exported by [export_csv] into a directory [out] (not empty, not
    ending in a slash): it is the folder [<name>_download] inside [out],
    where [<name>] is the sanitized playlist name; but when the sanitized
    name is empty or made of dots only, [splitext] finds no extension and
    the folder is [<name>.csv_download]. *)
Theorem get_default_output_dir_of_export (out playlist_name : pystr) (d : pychar) :
  last out = Some d -> d <> SLASH ->
  let name := sanitize_filename playlist_name in
  let csv_path := os_path_join out (name ++ py ".csv") in
  spotisaver.get_default_output_dir csv_path
  = out ++ [SLASH]
    ++ (if forallb (fun c => c =? DOT) name then name ++ py ".csv" else name)
    ++ py "_download".
Proof.
  intros Hlast Hd name csv_path.
  assert (Hname : SLASH ∉ name).
  { intros Hin. apply list_elem_of_In in Hin.
    destruct (sanitize_filename_chars playlist_name SLASH Hin) as (Hv & _).
    by vm_compute in Hv. }
  assert (Hout : exists out', out = out' ++ [d]).
  { destruct out as [|x out] using rev_ind; [done|].
    rewrite last_snoc in Hlast. injection Hlast as ->. by exists out. }
  destruct Hout as [out' ->].
  assert (Hjoin : forall b c0, head b = Some c0 -> c0 <> SLASH ->
            os_path_join (out' ++ [d]) b = (out' ++ [d]) ++ SLASH :: b).
  { intros b c0 Hb Hc0. unfold os_path_join. destruct b as [|c b]; [done|].
    injection Hb as ->. destruct (N.eqb_spec c0 SLASH); [done|].
    rewrite last_snoc. by destruct (N.eqb_spec d SLASH). }
  assert (Hpath : csv_path = (out' ++ [d]) ++ SLASH :: name ++ py ".csv").
  { unfold csv_path. destruct name as [|c0 name'] eqn:Hn.
    - by apply (Hjoin _ DOT).
    - apply (Hjoin _ c0); [done|]. intros ->. apply Hname. by left. }
  assert (Hfile : SLASH ∉ name ++ py ".csv").
  { rewrite elem_of_app. intros [? | Hin]; [done|]. by vm_compute in Hin;
      repeat (apply elem_of_cons in Hin as [Hin | Hin]; [discriminate|]);
      apply elem_of_nil in Hin. }
  unfold spotisaver.get_default_output_dir.
  assert (Hbase : os_path_basename csv_path = name ++ py ".csv").
  { unfold os_path_basename. by rewrite Hpath, split_at_last_app. }
  assert (Hdir : os_path_dirname csv_path = out' ++ [d]).
  { unfold os_path_dirname. rewrite Hpath, split_at_last_app by done.
    rewrite forallb_app, forallb_snoc_false, andb_false_l.
    - by apply rstrip_char_snoc.
    - by apply N.eqb_neq. }
  rewrite Hbase, Hdir.
  assert (Hroot : os_path_splitext_root (name ++ py ".csv")
                  = if forallb (fun c => c =? DOT) name
                    then name ++ py ".csv" else name).
  { unfold os_path_splitext_root.
    change (py ".csv") with (DOT :: py "csv").
    rewrite split_at_last_app.
    2:{ intros Hin. repeat (apply elem_of_cons in Hin as [Hin | Hin]; [discriminate|]).
        by apply elem_of_nil in Hin. }
    change (char_in SLASH (py "csv")) with false. cbv iota.
    unfold os_path_basename.
    by rewrite (proj2 (split_at_last_None SLASH name) Hname). }
  rewrite Hroot.
  set (stem := if forallb (fun c => c =? DOT) name then name ++ py ".csv" else name).
  assert (Hstem : exists c0, head (stem ++ py "_download") = Some c0 /\ c0 <> SLASH).
  { unfold stem. destruct name as [|c0 name'].
    - simpl. by exists DOT.
    - assert (c0 <> SLASH) by (intros ->; apply Hname; by left).
      destruct (forallb _ _); by exists c0. }
  destruct Hstem as (c0 & Hh & Hc0).
  etransitivity; [apply (Hjoin _ c0 Hh Hc0)|]. by rewrite <- !app_assoc.
Qed.

Lemma get_default_output_dir_of_export_witness :
  spotisaver.get_default_output_dir
    (os_path_join (py "/music") (sanitize_filename (py "My Mix: 2024") ++ py ".csv"))
  = py "/music/My_Mix_2024_download".
Proof.
  apply (get_default_output_dir_of_export (py "/music") (py "My Mix: 2024") 99).
  - reflexivity.
  - discriminate.
Defined.

(** ** The sequential downloader of [old py/downloader.py] *)
Section old_runner.
Import downloader.

Variable W : Type.
Variable job : pystr -> pystr -> W -> Outcome W.


Lemma download_loop_quiet good : forall total i g rest,
  Forall (quiet job) good -> stop_event g = false ->
  exists g1,
    download_loop job total i (good ++ rest) g
    = download_loop job total (i + length good) rest g1
    /\ stop_event g1 = false
    /\ calls g1 = calls g ++ (query_of <$> good)
    /\ errors_shown g1 = errors_shown g
    /\ infos_shown g1 = infos_shown g.
Proof.
  induction good as [|[[artist title] uri] good IH]; intros total i g rest Hq Hs.
  - exists g. simpl. rewrite Nat.add_0_r, app_nil_r. done.
  - apply Forall_cons in Hq as [Ht Hq]. cbn [app download_loop]. rewrite Hs.
    unfold call.
    destruct (Ht (world (with_status (Downloading i total title) g))) as [Hr Hc].
    rewrite Hr, Hc.
    match goal with
    | |- context [download_loop job total (S i) (good ++ rest) ?g0] =>
        destruct (IH total (S i) g0 rest Hq Hs)
          as (g1 & Heq & Hs1 & Hc1 & He1 & Hi1)
    end.
    exists g1. split; [rewrite Heq; f_equal; simpl; lia|].
    split; [done|]. split; [|done].
    rewrite Hc1. cbn [calls with_progress with_status fmap list_fmap].
    by rewrite <- app_assoc.
Qed.





End old_runner.



(** X23. One failure aborts the old downloader's run: if the rows before
    some row download quietly and that row's download raises, the run
    makes exactly the calls up to and including that row, shows the
    exception's message, ends with status "Error" and never attempts the
    rows after it. *)
Theorem run_downloads_first_failure (W : Type)
    (job : pystr -> pystr -> W -> downloader.Outcome W)
    (df : downloader.DataFrame) (g : downloader.Gui W)
    (good rest : list (pystr * pystr * pystr)) (artist title uri message : pystr) :
  downloader.load_tracks df
    = downloader.Returned (good ++ (artist, title, uri) :: rest) ->
  downloader.stop_event g = false ->
  Forall (downloader.quiet job) good ->
  (forall w, downloader.raised (job (artist ++ py " - " ++ title) uri w)
             = Some message) ->
  let g' := downloader.run_downloads job df g in
  downloader.calls g'
    = downloader.calls g
      ++ (downloader.query_of <$> (good ++ [(artist, title, uri)]))
  /\ downloader.errors_shown g' = downloader.errors_shown g ++ [message]
  /\ downloader.infos_shown g' = downloader.infos_shown g
  /\ downloader.gui_status g' = downloader.Error.
Proof.
  intros Hload Hstop Hgood Hbad g'.
  unfold g', downloader.run_downloads, downloader.try_block. rewrite Hload.
  destruct (download_loop_quiet W job good
              (length (good ++ (artist, title, uri) :: rest)) 1
              (downloader.with_progress 0
                 (length (good ++ (artist, title, uri) :: rest)) g)
              ((artist, title, uri) :: rest) Hgood Hstop)
    as (g1 & -> & Hs1 & Hc1 & He1 & Hi1).
  cbn [downloader.download_loop]. rewrite Hs1. unfold downloader.call.
  rewrite Hbad.
  cbn [downloader.errors_shown downloader.infos_shown downloader.calls
       downloader.with_progress] in Hc1, He1, Hi1.
  match goal with
  | |- context [downloader.stop_clicked ?o] => destruct (downloader.stop_clicked o)
  end;
    cbn [downloader.errors_shown downloader.infos_shown downloader.calls
         downloader.gui_status downloader.stop downloader.with_status].
  all: rewrite Hc1, He1, Hi1, fmap_app, <- (app_assoc (downloader.calls g)).
  all: repeat split; reflexivity.
Qed.

Lemma run_downloads_first_failure_witness :
  downloader.calls (downloader.run_downloads sample_old.job sample_old.table
                      sample_old.gui)
  = [ (py "Sade - Smooth Operator", py "spotify:track:1");
      (py "Nobody - Missing", py "spotify:track:2") ]
  /\ downloader.errors_shown
       (downloader.run_downloads sample_old.job sample_old.table sample_old.gui)
     = [py "no match"].
Proof.
  destruct (run_downloads_first_failure nat sample_old.job sample_old.table
              sample_old.gui [(py "Sade", py "Smooth Operator", py "spotify:track:1")]
              [(py "Maxwell", py "Pretty Wings", py "spotify:track:3")]
              (py "Nobody") (py "Missing") (py "spotify:track:2") (py "no match"))
    as (Hc & He & _).
  - reflexivity.
  - reflexivity.
  - repeat constructor.
  - intros w. reflexivity.
  - split; [exact Hc | exact He].
Defined.

(** X24. A table the old downloader cannot use: without a "Track Name"
    or "Artist Name(s)" column the run shows "CSV missing required
    columns"; with both but without "Track URI" it shows the [KeyError]
    text ['Track URI']; either way no download is attempted and the
    status is "Error". *)
Theorem run_downloads_missing_column (W : Type)
    (job : pystr -> pystr -> W -> downloader.Outcome W)
    (df : downloader.DataFrame) (g : downloader.Gui W) :
  let g' := downloader.run_downloads job df g in
  let failed message :=
    downloader.errors_shown g' = downloader.errors_shown g ++ [message]
    /\ downloader.calls g' = downloader.calls g
    /\ downloader.world g' = downloader.world g
    /\ downloader.gui_status g' = downloader.Error in
  (py "Track Name" ∉ (fst <$> df) \/ py "Artist Name(s)" ∉ (fst <$> df) ->
   failed (py "CSV missing required columns"))
  /\ (py "Track Name" ∈ (fst <$> df) -> py "Artist Name(s)" ∈ (fst <$> df) ->
      py "Track URI" ∉ (fst <$> df) ->
      failed (py "'Track URI'")).
Proof.
  intros g' failed. unfold failed, g', downloader.run_downloads, downloader.try_block.
  assert (Hcol : forall key,
            match downloader.lookup_column key df with
            | Some _ => key ∈ (fst <$> df)
            | None => key ∉ (fst <$> df)
            end).
  { intros key. induction df as [|[k v] df' IH]; simpl; [apply not_elem_of_nil|].
    case_bool_decide as Hk; [subst; by left|].
    destruct (downloader.lookup_column key df');
      [by right | by apply not_elem_of_cons]. }
  split.
  - intros Hmiss. unfold downloader.load_tracks.
    assert (Hb : bool_decide (py "Track Name" ∈ (fst <$> df))
                 && bool_decide (py "Artist Name(s)" ∈ (fst <$> df)) = false).
    { apply andb_false_iff.
      destruct Hmiss; [left | right]; by apply bool_decide_eq_false_2. }
    rewrite Hb. cbn. done.
  - intros Hn Ha Hu. unfold downloader.load_tracks, downloader.column.
    rewrite !bool_decide_eq_true_2 by done. cbn [andb].
    pose proof (Hcol (py "Artist Name(s)")) as H1.
    pose proof (Hcol (py "Track Name")) as H2.
    pose proof (Hcol (py "Track URI")) as H3.
    destruct (downloader.lookup_column (py "Artist Name(s)") df); [|done].
    destruct (downloader.lookup_column (py "Track Name") df); [|done].
    destruct (downloader.lookup_column (py "Track URI") df); [done|].
    cbn. done.
Qed.

Lemma run_downloads_missing_column_witness :
  downloader.errors_shown
    (downloader.run_downloads sample_old.job (drop 1 sample_old.table)
       sample_old.gui)
  = [py "'Track URI'"].
Proof.
  pose proof (run_downloads_missing_column nat sample_old.job
                (drop 1 sample_old.table) sample_old.gui) as [_ H].
  destruct H as (He & _).
  - apply (bool_decide_unpack _). vm_compute. exact I.
  - apply (bool_decide_unpack _). vm_compute. exact I.
  - apply (bool_decide_eq_false_1 _). vm_compute. reflexivity.
  - exact He.
Defined.

(** ** Saving a user's playlists *)
Section save_facts.
Import spotisave_cli.

Lemma csv_not_xlsx (a b : pystr) : a ++ py ".csv" <> b ++ py ".xlsx".
Proof.
  intros H. apply (f_equal (@rev pychar)) in H.
  rewrite !rev_app_distr in H. simpl in H. discriminate.
Qed.

Lemma save_to_file_lookup (data : list Row) (filename : pystr) (save_xls : bool)
    (files : Files) (stem : pystr) :
  save_to_file data filename save_xls files !! (stem ++ py ".csv")
  = if bool_decide (sanitize_filename filename = stem) then Some data
    else files !! (stem ++ py ".csv").
Proof.
  unfold save_to_file.
  assert (H : (<[sanitize_filename filename ++ py ".csv" := data]> files)
                !! (stem ++ py ".csv")
              = if bool_decide (sanitize_filename filename = stem) then Some data
                else files !! (stem ++ py ".csv")).
  { case_bool_decide as Hs.
    - subst stem. apply lookup_insert_eq.
    - apply lookup_insert_ne. intros Heq. by apply app_inv_tail in Heq. }
  destruct save_xls; [|done].
  rewrite lookup_insert_ne; [done|]. intros Heq. symmetry in Heq.
  by apply csv_not_xlsx in Heq.
Qed.

End save_facts.

(** X25. Saving a user's playlists: when the loop ends normally, the
    file [<stem>.csv] holds the records of the last playlist whose
    sanitized name is [<stem>] (an earlier playlist with the same
    sanitized name is overwritten), and is untouched when there is no
    such playlist. *)
Theorem save_playlists_last_wins (sp : Spotify) (fuel : nat) (save_xls : bool)
    (playlists : list spotisave_cli.Playlist)
    (files files' : gmap pystr (list Row)) (stem : pystr) :
  spotisave_cli.save_playlists sp fuel save_xls playlists files
    = Some (files', Ok tt) ->
  match last (List.filter
                (fun pl => bool_decide
                   (sanitize_filename (spotisave_cli.playlist_name pl) = stem))
                playlists) with
  | Some pl =>
      exists tracks,
        get_playlist_tracks sp fuel (spotisave_cli.playlist_id pl) = Some (Ok tracks)
        /\ files' !! (stem ++ py ".csv")
           = Some (List.map spotisave.extract_track_info tracks)
  | None => files' !! (stem ++ py ".csv") = files !! (stem ++ py ".csv")
  end.
Proof.
  revert files. induction playlists as [|pl rest IH]; intros files H.
  - simpl in H. by injection H as <-.
  - cbn [spotisave_cli.save_playlists] in H.
    destruct (get_playlist_tracks sp fuel (spotisave_cli.playlist_id pl))
      as [[tracks|e]|] eqn:Hget; try discriminate.
    specialize (IH _ H). cbn [List.filter].
    set (matching := List.filter _ rest) in *.
    pose proof (save_to_file_lookup (List.map spotisave.extract_track_info tracks)
                  (spotisave_cli.playlist_name pl) save_xls files stem) as Hl.
    case_bool_decide as Hs.
    + destruct matching as [|x m] eqn:Hm.
      * simpl. exists tracks. split; [done|]. simpl in IH. by rewrite IH.
      * change (last (pl :: x :: m)) with (last (x :: m)).
        destruct (last (x :: m)) as [y|] eqn:Hlast; [exact IH|].
        by apply last_None in Hlast.
    + destruct (last matching); [done|]. by rewrite IH.
Qed.

Lemma save_playlists_last_wins_witness :
  exists files' tracks,
    spotisave_cli.save_playlists (sample.catalog (py "Mix") sample.pages) 2 false
      [ {| spotisave_cli.playlist_id := py "p1";
           spotisave_cli.playlist_name := py "Chill!" |};
        {| spotisave_cli.playlist_id := py "p2";
           spotisave_cli.playlist_name := py "Chill?" |} ] ∅
    = Some (files', Ok tt)
    /\ files' !! py "Chill.csv"
       = Some (List.map spotisave.extract_track_info tracks).
Proof.
  assert (Hrun : exists f, spotisave_cli.save_playlists
            (sample.catalog (py "Mix") sample.pages) 2 false
            [ {| spotisave_cli.playlist_id := py "p1";
                 spotisave_cli.playlist_name := py "Chill!" |};
              {| spotisave_cli.playlist_id := py "p2";
                 spotisave_cli.playlist_name := py "Chill?" |} ] ∅
            = Some (f, Ok tt)) by (eexists; vm_compute; reflexivity).
  destruct Hrun as [f Hrun].
  pose proof (save_playlists_last_wins _ _ _ _ _ _ (py "Chill") Hrun) as H.
  destruct H as (tracks & _ & Hl).
  exists f, tracks. split; [exact Hrun | exact Hl].
Defined.
